(** * Checkpointed stage processing of [OptimizationService]

    A shallow embedding of
    [backend/app/services/optimization_service.py]: the run controller
    [start_optimization], the per-stage segment loop [_process_stage],
    the history compressor [_compress_history], the snapshot writer
    [_save_history], the audit upsert [_record_change] and the binding of
    the services [_init_ai_services].

    The service mutates ORM rows and commits after each step, and it can
    raise at any collaborator call while keeping every mutation made so
    far.  The embedding therefore threads one [World] through a small
    state-and-exception monad in which a raised error carries the state on.

    Collaborators that live outside this file of the repository (the
    segmenter, the two counting functions, the generative service and its
    constructor, the admission gate, the settings object) are the fields
    of [Collaborators].  The database session is taken to be healthy: its
    queries, writes and commits return.
    Python [str] values are Rocq strings holding the UTF-8 bytes; [len] of
    a [str] counts code points and is taken as the collaborator [str_len].
    The float arithmetic of the progress formula is carried out in exact
    rationals. *)

From Stdlib Require Import ZArith QArith Lqa String List Lia Sorted.
From stdpp Require Import base list strings option pretty.

Open Scope string_scope.
Open Scope list_scope.

(** ** Data model *)

(** The three stage names the service dispatches on. *)
Inductive Stage := Polish | EmotionPolish | Enhance.

Definition stage_name (stage : Stage) : string :=
  match stage with
  | Polish => "polish"
  | EmotionPolish => "emotion_polish"
  | Enhance => "enhance"
  end.

#[global] Instance Stage_eq_dec : EqDecision Stage.
Proof. solve_decision. Defined.

(** [stage in ["polish", "emotion_polish"]] *)
Definition polish_like (stage : Stage) : bool :=
  match stage with Polish | EmotionPolish => true | Enhance => false end.

(** [stage == "enhance"] *)
Definition is_enhance (stage : Stage) : bool :=
  match stage with Enhance => true | _ => false end.

Inductive SegStatus := SegPending | SegProcessing | SegCompleted | SegFailed.
Inductive RunStatus := RunCreated | RunQueued | RunProcessing | RunCompleted | RunFailed.

(** Python truthiness of a nullable text column: [None] and the empty
    string are falsy. *)
Definition truthy (t : option string) : bool :=
  match t with
  | Some (String _ _) => true
  | _ => false
  end.

(** [a or b] on a nullable text and a text. *)
Definition text_or (a : option string) (b : string) : string :=
  match a with
  | Some (String c s) => String c s
  | _ => b
  end.

(** A row of [OptimizationSegment]. *)
Record Segment := mkSegment {
  seg_session_id : Z;
  segment_index : Z;
  seg_stage : Stage;
  is_title : bool;
  original_text : string;
  polished_text : option string;
  enhanced_text : option string;
  seg_status : SegStatus;
  seg_completed_at : option nat
}.

(** The bindings of the four services, [_init_ai_services] (lines 30-58). *)

(** The keyword arguments of one [AIService(...)] construction. *)
Record AIServiceArgs := mkAIServiceArgs {
  svc_model : option string;
  svc_api_key : option string;
  svc_base_url : option string
}.

(** The per-stage overrides carried by the session row. *)
Record RunOverrides := mkRunOverrides {
  polish_model : option string;
  polish_api_key : option string;
  polish_base_url : option string;
  enhance_model : option string;
  enhance_api_key : option string;
  enhance_base_url : option string;
  emotion_model : option string;
  emotion_api_key : option string;
  emotion_base_url : option string
}.

(** The fields of [settings] that [_init_ai_services] reads. *)
Record ServiceSettings := mkServiceSettings {
  POLISH_MODEL : option string;
  POLISH_API_KEY : option string;
  POLISH_BASE_URL : option string;
  ENHANCE_MODEL : option string;
  ENHANCE_API_KEY : option string;
  ENHANCE_BASE_URL : option string;
  COMPRESSION_MODEL : option string;
  COMPRESSION_API_KEY : option string;
  COMPRESSION_BASE_URL : option string;
  OPENAI_API_KEY : option string;
  OPENAI_BASE_URL : option string
}.

(** The four handles [_init_ai_services] stores on the service object. *)
Record Services := mkServices {
  polish_service : AIServiceArgs;
  enhance_service : AIServiceArgs;
  emotion_service : AIServiceArgs;
  compression_service : AIServiceArgs
}.

(** [a or b] on two nullable texts *)
Definition value_or (a b : option string) : option string :=
  if truthy a then a else b.

Definition init_ai_services (o : RunOverrides) (st : ServiceSettings) : Services :=
  mkServices
    (mkAIServiceArgs (value_or (polish_model o) (POLISH_MODEL st))
                     (value_or (polish_api_key o) (POLISH_API_KEY st))
                     (value_or (polish_base_url o) (POLISH_BASE_URL st)))
    (mkAIServiceArgs (value_or (enhance_model o) (ENHANCE_MODEL st))
                     (value_or (enhance_api_key o) (ENHANCE_API_KEY st))
                     (value_or (enhance_base_url o) (ENHANCE_BASE_URL st)))
    (mkAIServiceArgs (value_or (emotion_model o) (POLISH_MODEL st))
                     (value_or (emotion_api_key o) (POLISH_API_KEY st))
                     (value_or (emotion_base_url o) (POLISH_BASE_URL st)))
    (mkAIServiceArgs (COMPRESSION_MODEL st)
                     (value_or (COMPRESSION_API_KEY st) (OPENAI_API_KEY st))
                     (value_or (COMPRESSION_BASE_URL st) (OPENAI_BASE_URL st))).

(** The [OptimizationSession] row, [self.session_obj]. *)
Record Run := mkRun {
  run_id : Z;
  run_original_text : string;
  processing_mode : option string;
  run_status : RunStatus;
  current_stage : option Stage;
  current_position : nat;
  total_segments : nat;
  progress : Q;
  failed_segment_index : option Z;
  error_message : option string;
  run_completed_at : option nat;
  run_overrides : RunOverrides
}.

(** One message of the rolling history, a dict with keys role and content. *)
Record Turn := mkTurn { role : string; content : string }.

(** A row of [SessionHistory]; [history_data] is the list that
    [json.dumps] serialises. *)
Record SessionHistory := mkSessionHistory {
  hist_session_id : Z;
  hist_stage : Stage;
  history_data : list Turn;
  is_compressed : bool;
  character_count : Z
}.

(** The dict [changes] that [_record_change] serialises into
    [changes_detail]. *)
Record ChangeDetail := mkChangeDetail {
  before_length : nat;
  after_length : nat;
  changed : bool
}.

(** A row of [ChangeLog]. *)
Record ChangeLog := mkChangeLog {
  log_session_id : Z;
  log_segment_index : Z;
  log_stage : Stage;
  before_text : string;
  after_text : string;
  changes_detail : ChangeDetail;
  log_created_at : nat
}.

(** The tables the service reads and writes.  [segments] holds the rows
    of this session in the order of the query
    [order_by(OptimizationSegment.segment_index)]; the rows are mutated in
    place, so a position of this list identifies one row object. *)
Record Store := mkStore {
  session_obj : Run;
  segments : list Segment;
  histories : list SessionHistory;
  change_logs : list ChangeLog
}.

(** The outcome of a call: a value or a raised exception, by its message
    [str(e)]. *)
Inductive Result (A : Type) : Type :=
| Ok (a : A)
| Raised (msg : string).
Arguments Ok {A} a.
Arguments Raised {A} msg.

(** What an observer of a run sees, in order: the traffic with the gate,
    the writes to the run status, the segmentation, the start of the loop
    of a stage with its first index, the progress writes of the loop, and
    the calls to the generative and to the summarising collaborator with
    their replies.  The service keeps no such log; the embedding records
    the events in [trace], which no operation reads, so that properties
    about what happened during a call can be stated. *)
Inductive Event :=
| EvGateAcquire (granted : bool)
| EvGatePoll (active : bool)
| EvGateRelease
| EvRunStatus (s : RunStatus)
| EvSplit (n : nat)
| EvStage (stage : Stage) (start_index : nat)
| EvProgress (idx : nat) (p : Q)
| EvGenerate (idx : nat) (stage : Stage) (input : option string) (r : Result string)
| EvCompress (turns : list Turn) (r : Result string).

(** [live] is the session's view of the rows, [durable] what the last
    [db.commit()] wrote.  [clock] is the reading [datetime.utcnow()]
    returns next; [ai_calls] and [compress_calls] count the calls made to
    the generative and to the summarising collaborator. *)
Record World := mkWorld {
  live : Store;
  durable : Store;
  clock : nat;
  ai_calls : nat;
  compress_calls : nat;
  trace : list Event
}.

(** The collaborators and settings the service imports. *)
Record Collaborators := mkCollaborators {
  split_text_into_segments : string -> list string;
  count_chinese_characters : string -> Z;
  count_text_length : string -> Z;
  str_len : string -> nat;
  SEGMENT_SKIP_THRESHOLD : Z;
  HISTORY_COMPRESSION_THRESHOLD : Z;
  get_default_polish_prompt : string;
  get_default_enhance_prompt : string;
  get_emotion_polish_prompt : string;
  (** [polish_text], [polish_emotion_text] and [enhance_text] of the bound
      service: the reply to the n-th generative call *)
  ai_text : nat -> Stage -> option string -> string -> list Turn -> Result string;
  (** [compression_service.compress_history]: the reply to the n-th call *)
  ai_compress : nat -> list Turn -> string -> Result string;
  (** [concurrency_manager.acquire] *)
  gate_acquire : bool;
  (** how many polls of [is_active] answer False before the gate admits
      the run; a queued run is taken to be admitted after finitely many *)
  gate_polls : nat;
  (** the [settings] fields that bind the services *)
  service_settings : ServiceSettings;
  (** the constructor [AIService(model=..., api_key=..., base_url=...)]:
      it returns a handle or raises *)
  AIService : AIServiceArgs -> Result unit
}.

(** ** Field updates *)

Definition seg_set_enhanced (v : option string) (s : Segment) : Segment :=
  mkSegment (seg_session_id s) (segment_index s) (seg_stage s) (is_title s)
    (original_text s) (polished_text s) v (seg_status s) (seg_completed_at s).

Definition seg_set_polished (v : option string) (s : Segment) : Segment :=
  mkSegment (seg_session_id s) (segment_index s) (seg_stage s) (is_title s)
    (original_text s) v (enhanced_text s) (seg_status s) (seg_completed_at s).

Definition seg_set_status (v : SegStatus) (s : Segment) : Segment :=
  mkSegment (seg_session_id s) (segment_index s) (seg_stage s) (is_title s)
    (original_text s) (polished_text s) (enhanced_text s) v (seg_completed_at s).

Definition seg_set_completed_at (v : option nat) (s : Segment) : Segment :=
  mkSegment (seg_session_id s) (segment_index s) (seg_stage s) (is_title s)
    (original_text s) (polished_text s) (enhanced_text s) (seg_status s) v.

Definition seg_set_stage (v : Stage) (s : Segment) : Segment :=
  mkSegment (seg_session_id s) (segment_index s) v (is_title s)
    (original_text s) (polished_text s) (enhanced_text s) (seg_status s)
    (seg_completed_at s).

Definition run_set_status (v : RunStatus) (r : Run) : Run :=
  mkRun (run_id r) (run_original_text r) (processing_mode r) v (current_stage r)
    (current_position r) (total_segments r) (progress r)
    (failed_segment_index r) (error_message r) (run_completed_at r) (run_overrides r).

Definition run_set_current_stage (v : option Stage) (r : Run) : Run :=
  mkRun (run_id r) (run_original_text r) (processing_mode r) (run_status r) v
    (current_position r) (total_segments r) (progress r)
    (failed_segment_index r) (error_message r) (run_completed_at r) (run_overrides r).

Definition run_set_current_position (v : nat) (r : Run) : Run :=
  mkRun (run_id r) (run_original_text r) (processing_mode r) (run_status r)
    (current_stage r) v (total_segments r) (progress r)
    (failed_segment_index r) (error_message r) (run_completed_at r) (run_overrides r).

Definition run_set_total_segments (v : nat) (r : Run) : Run :=
  mkRun (run_id r) (run_original_text r) (processing_mode r) (run_status r)
    (current_stage r) (current_position r) v (progress r)
    (failed_segment_index r) (error_message r) (run_completed_at r) (run_overrides r).

Definition run_set_progress (v : Q) (r : Run) : Run :=
  mkRun (run_id r) (run_original_text r) (processing_mode r) (run_status r)
    (current_stage r) (current_position r) (total_segments r) v
    (failed_segment_index r) (error_message r) (run_completed_at r) (run_overrides r).

Definition run_set_failed_segment_index (v : option Z) (r : Run) : Run :=
  mkRun (run_id r) (run_original_text r) (processing_mode r) (run_status r)
    (current_stage r) (current_position r) (total_segments r) (progress r)
    v (error_message r) (run_completed_at r) (run_overrides r).

Definition run_set_error_message (v : option string) (r : Run) : Run :=
  mkRun (run_id r) (run_original_text r) (processing_mode r) (run_status r)
    (current_stage r) (current_position r) (total_segments r) (progress r)
    (failed_segment_index r) v (run_completed_at r) (run_overrides r).

Definition run_set_completed_at (v : option nat) (r : Run) : Run :=
  mkRun (run_id r) (run_original_text r) (processing_mode r) (run_status r)
    (current_stage r) (current_position r) (total_segments r) (progress r)
    (failed_segment_index r) (error_message r) v (run_overrides r).

Definition store_upd_run (f : Run -> Run) (s : Store) : Store :=
  mkStore (f (session_obj s)) (segments s) (histories s) (change_logs s).

Definition store_upd_segments (f : list Segment -> list Segment) (s : Store) : Store :=
  mkStore (session_obj s) (f (segments s)) (histories s) (change_logs s).

Definition store_upd_histories (f : list SessionHistory -> list SessionHistory)
    (s : Store) : Store :=
  mkStore (session_obj s) (segments s) (f (histories s)) (change_logs s).

Definition store_upd_change_logs (f : list ChangeLog -> list ChangeLog)
    (s : Store) : Store :=
  mkStore (session_obj s) (segments s) (histories s) (f (change_logs s)).

Definition world_upd_live (f : Store -> Store) (w : World) : World :=
  mkWorld (f (live w)) (durable w) (clock w) (ai_calls w) (compress_calls w) (trace w).

(** ** The state-and-exception monad *)

Definition M (A : Type) : Type := World -> Result A * World.

Definition ret {A} (a : A) : M A := fun w => (Ok a, w).

Definition bind {A B} (m : M A) (k : A -> M B) : M B :=
  fun w =>
    match m w with
    | (Ok a, w1) => k a w1
    | (Raised msg, w1) => (Raised msg, w1)
    end.

Definition raise {A} (msg : string) : M A := fun w => (Raised msg, w).

(** [try: body  except Exception as e: handler(str(e))] *)
Definition try_except {A} (body : M A) (handler : string -> M A) : M A :=
  fun w =>
    match body w with
    | (Ok a, w1) => (Ok a, w1)
    | (Raised msg, w1) => handler msg w1
    end.

(** [try: body  finally: cleanup] *)
Definition try_finally {A} (body : M A) (cleanup : M unit) : M A :=
  fun w =>
    match body w with
    | (r, w1) =>
        match cleanup w1 with
        | (Ok _, w2) => (r, w2)
        | (Raised msg, w2) => (Raised msg, w2)
        end
    end.

Declare Scope svc_scope.
Delimit Scope svc_scope with svc.
Notation "x <- m ;; k" := (bind m (fun x => k))
  (at level 100, m at next level, right associativity) : svc_scope.
Notation "m ;;; k" := (bind m (fun _ => k))
  (at level 100, right associativity) : svc_scope.
Open Scope svc_scope.

Definition gets {A} (f : World -> A) : M A := fun w => (Ok (f w), w).

Definition modify_run (f : Run -> Run) : M unit :=
  fun w => (Ok tt, world_upd_live (store_upd_run f) w).

(** a write to a field of the row object at position [idx] *)
Definition modify_segment (idx : nat) (f : Segment -> Segment) : M unit :=
  fun w => (Ok tt, world_upd_live (store_upd_segments (alter f idx)) w).

(** [self.db.commit()] *)
Definition commit : M unit :=
  fun w => (Ok tt, mkWorld (live w) (live w) (clock w) (ai_calls w)
                     (compress_calls w) (trace w)).

(** appends an event to the log of the observer *)
Definition emit (e : Event) : M unit :=
  fun w => (Ok tt, mkWorld (live w) (durable w) (clock w) (ai_calls w)
                     (compress_calls w) (trace w ++ [e])).

(** [datetime.utcnow()] *)
Definition utcnow : M nat :=
  fun w => (Ok (clock w), mkWorld (live w) (durable w) (S (clock w)) (ai_calls w)
                            (compress_calls w) (trace w)).

(** [self.db.add(row)] on the three tables, and a write to the fields of
    the change-log row at position [j] *)
Definition add_segments (rows : list Segment) : M unit :=
  fun w => (Ok tt, world_upd_live (store_upd_segments (fun l => l ++ rows)) w).

Definition add_history (row : SessionHistory) : M unit :=
  fun w => (Ok tt, world_upd_live (store_upd_histories (fun l => l ++ [row])) w).

Definition add_change_log (row : ChangeLog) : M unit :=
  fun w => (Ok tt, world_upd_live (store_upd_change_logs (fun l => l ++ [row])) w).

Definition modify_change_log (j : nat) (f : ChangeLog -> ChangeLog) : M unit :=
  fun w => (Ok tt, world_upd_live (store_upd_change_logs (alter f j)) w).

(** the state a computation leaves, its outcome, and the events it adds *)
Definition exec {A} (m : M A) (w : World) : World := snd (m w).
Definition outcome {A} (m : M A) (w : World) : Result A := fst (m w).
Definition events_of {A} (m : M A) (w : World) : list Event :=
  drop (length (trace w)) (trace (exec m w)).

(** ** The service *)

(** the text of the exception [_run_with_retry] raises, with the 1-based
    segment number and the stage name *)
Definition retry_message (segment_index : nat) (stage : Stage) (exc : string) : string :=
  "段落 " +:+ pretty (segment_index + 1)%nat +:+ " 在 " +:+ stage_name stage
    +:+ " 阶段失败: " +:+ exc.

(** the text of the exception the loop of [_process_stage] raises *)
Definition abort_message (idx : nat) (e : string) : string :=
  "处理段落 " +:+ pretty idx +:+ " 失败: " +:+ e.

(** the text of the exception for a mode outside the dispatch *)
Definition unsupported_message (processing_mode : string) : string :=
  "不支持的处理模式: " +:+ processing_mode.

(** [segment.polished_text if stage == "enhance" else segment.original_text] *)
Definition stage_input (stage : Stage) (segment : Segment) : option string :=
  if is_enhance stage then polished_text segment else Some (original_text segment).

Section Service.

Variable env : Collaborators.

(** *** [_get_prompt] *)
Definition get_prompt (stage : Stage) : string :=
  match stage with
  | Polish => get_default_polish_prompt env
  | EmotionPolish => get_emotion_polish_prompt env
  | Enhance => get_default_enhance_prompt env
  end.

(** *** [_run_with_retry]: one attempt, the error wrapped *)
Definition run_with_retry {A} (segment_index : nat) (stage : Stage) (task : M A) : M A :=
  try_except task (fun exc => raise (retry_message segment_index stage exc)).

(** The closure [execute_call] of [_process_stage]: one call to the stage's
    bound generative operation. *)
Definition execute_call (idx : nat) (stage : Stage) (input_text : option string)
    (prompt : string) (history : list Turn) : M string :=
  fun w =>
    let r := ai_text env (ai_calls w) stage input_text prompt history in
    (r, mkWorld (live w) (durable w) (clock w) (S (ai_calls w)) (compress_calls w)
          (trace w ++ [EvGenerate idx stage input_text r])).

(** *** [_compress_history] *)

(** [len(history) == 1 and history[0].get("role") == "system"] *)
Definition single_system_turn (history : list Turn) : bool :=
  match history with
  | [t] => String.eqb (role t) "system"
  | _ => false
  end.

(** [history[-3:] if len(history) > 3 else history] *)
Definition recent_messages (history : list Turn) : list Turn :=
  if (3 <? length history)%nat then drop (length history - 3) history else history.

Definition emotion_compression_prompt : string :=
"你是一个专业的文本摘要助手。请压缩以下历史处理内容，提取关键风格特征：

1. 总结文本的表达风格和语言特点
2. 提取关键的修改方向和处理模式
3. 保留重要的词汇使用倾向
4. 删除重复的内容和冗余表述

要求：
- 压缩后内容不超过原内容的30%
- 只输出压缩后的摘要，不要添加任何解释和注释

历史处理内容：".

Definition paper_compression_prompt : string :=
"你是一个专业的学术文本摘要助手。请压缩以下历史处理内容，提取关键信息：

1. 保留论文的主要术语、核心概念和关键数据
2. 总结已处理段落的主题和要点
3. 提取处理风格和改进方向的关键特征
4. 删除重复内容和冗余表述

要求：
- 压缩后内容不超过原内容的30%
- 保持学术性和专业性
- 只输出压缩后的摘要文本，不要添加任何解释和注释


历史处理内容：".

Definition compression_prompt (stage : Stage) : string :=
  match stage with
  | EmotionPolish => emotion_compression_prompt
  | _ => paper_compression_prompt
  end.

Definition summary_prefix : string :=
"之前处理的段落摘要：
".

Definition summary_turn (compressed_summary : string) : Turn :=
  mkTurn "system" (summary_prefix +:+ compressed_summary).

(** [self.compression_service.compress_history(recent_messages, prompt)] *)
Definition call_compress (turns : list Turn) (prompt : string) : M string :=
  fun w =>
    let r := ai_compress env (compress_calls w) turns prompt in
    (r, mkWorld (live w) (durable w) (clock w) (ai_calls w) (S (compress_calls w))
          (trace w ++ [EvCompress turns r])).

Definition compress_history (history : list Turn) (stage : Stage) : M (list Turn) :=
  if single_system_turn history then ret history
  else
    compressed_summary <- call_compress (recent_messages history) (compression_prompt stage) ;;
    ret [summary_turn compressed_summary].

(** *** [_save_history] *)
Definition save_history (history : list Turn) (stage : Stage) (char_count : Z) : M unit :=
  sid <- gets (fun w => run_id (session_obj (live w))) ;;
  add_history (mkSessionHistory sid stage history (single_system_turn history) char_count) ;;;
  commit.

(** *** [_record_change] *)

Definition log_key : Type := Z * Z * Stage.

Definition key_of (r : ChangeLog) : log_key :=
  (log_session_id r, log_segment_index r, log_stage r).

(** the filter of the [ChangeLog] query *)
Definition log_matches (k : log_key) (r : ChangeLog) : bool :=
  bool_decide (key_of r = k).

(** [.order_by(ChangeLog.created_at.desc()).first()]: the position and the
    row of the matching entry created last (the first of them in table
    order when several share that time), [None] when no row matches. *)
Fixpoint latest_matching (k : log_key) (rows : list ChangeLog) : option (nat * ChangeLog) :=
  match rows with
  | [] => None
  | r :: rest =>
      let later := (fun jr => (S (fst jr), snd jr)) <$> latest_matching k rest in
      if log_matches k r then
        match later with
        | Some (j, r') =>
            if (log_created_at r <? log_created_at r')%nat then Some (j, r') else Some (0%nat, r)
        | None => Some (0%nat, r)
        end
      else later
  end.

(** Modelled from the spec: the [created_at] default of the [ChangeLog]
    model (app/models/models.py is not under src/), the time at which the
    row is created.  The other fields are those of the constructor call of
    lines 392-399. *)
Definition new_change_log (sid segment_index : Z) (stage : Stage) (before after : string)
    (changes : ChangeDetail) (created : nat) : ChangeLog :=
  mkChangeLog sid segment_index stage before after changes created.

(** lines 388-390 *)
Definition overwrite_log (before after : string) (d : ChangeDetail) (r : ChangeLog) : ChangeLog :=
  mkChangeLog (log_session_id r) (log_segment_index r) (log_stage r)
    before after d (log_created_at r).

(** [before] is [None] when the enhance stage finds no polished text; then
    [len(before)] raises. *)
Definition record_change (segment : Segment) (before : option string) (after : string)
    (stage : Stage) : M unit :=
  match before with
  | None => raise "object of type 'NoneType' has no len()"
  | Some before =>
      let changes := mkChangeDetail (str_len env before) (str_len env after)
                       (negb (String.eqb before after)) in
      sid <- gets (fun w => run_id (session_obj (live w))) ;;
      existing_log <- gets (fun w =>
        latest_matching (sid, segment_index segment, stage) (change_logs (live w))) ;;
      match existing_log with
      | Some (j, _) => modify_change_log j (overwrite_log before after changes)
      | None =>
          created <- utcnow ;;
          add_change_log (new_change_log sid (segment_index segment) stage before after
                            changes created)
      end ;;;
      commit
  end.

(** *** [_process_stage] *)

(** the turns collected from the outputs already present, and their weight *)
Fixpoint initial_history (stage : Stage) (segs : list Segment) (history : list Turn)
    (total_chars : Z) : list Turn * Z :=
  match segs with
  | [] => (history, total_chars)
  | segment :: rest =>
      if is_title segment then initial_history stage rest history total_chars
      else
        let out := if is_enhance stage then enhanced_text segment
                   else polished_text segment in
        match out with
        | Some (String c s) =>
            initial_history stage rest
              (history ++ [mkTurn "assistant" (String c s)])
              (total_chars + count_chinese_characters env (String c s))%Z
        | _ => initial_history stage rest history total_chars
        end
  end.

(** [((idx + (0.5 if stage == "enhance" else 0)) / len(segments)) * 100] *)
Definition stage_progress (stage : Stage) (idx n : nat) : Q :=
  ((inject_Z (Z.of_nat idx) + (if is_enhance stage then 1 # 2 else 0))
     / inject_Z (Z.of_nat n) * 100)%Q.

(** the output column of a stage *)
Definition stage_output (stage : Stage) (s : Segment) : option string :=
  if is_enhance stage then enhanced_text s else polished_text s.

Definition set_stage_output (stage : Stage) (v : option string) (s : Segment) : Segment :=
  if is_enhance stage then seg_set_enhanced v s else seg_set_polished v s.

(** the title branch, lines 211-216 *)
Definition mark_title (stage : Stage) (now : nat) (s : Segment) : Segment :=
  mkSegment (seg_session_id s) (segment_index s) stage true (original_text s)
    (Some (original_text s)) (Some (original_text s)) SegCompleted (Some now).

(** [sum(count_chinese_characters(msg.get("content", "")) for msg in history)] *)
Definition history_weight (history : list Turn) : Z :=
  fold_right (fun t acc => (count_chinese_characters env (content t) + acc)%Z) 0%Z history.

(** The row object the loop variable [segment] is bound to, read at
    position [idx] of the live rows ([seg0] is the element the
    enumeration yielded). *)
Definition current_segment (idx : nat) (seg0 : Segment) : M Segment :=
  gets (fun w => default seg0 (segments (live w) !! idx)).

(** lines 247-263: the audit entry, the new turn, compression past the
    threshold, and the snapshot *)
Definition record_and_save (stage : Stage) (segment : Segment)
    (input_text : option string) (output_text : string) (history : list Turn)
    (total_chars : Z) : M (list Turn * Z) :=
  record_change segment input_text output_text stage ;;;
  let history := history ++ [mkTurn "assistant" output_text] in
  let total_chars := (total_chars + count_chinese_characters env output_text)%Z in
  hc <- (if (HISTORY_COMPRESSION_THRESHOLD env <? total_chars)%Z then
           compressed_history <- compress_history history stage ;;
           ret (compressed_history, history_weight compressed_history)
         else ret (history, total_chars)) ;;
  save_history (fst hc) stage (snd hc) ;;;
  ret hc.

(** the body of the [try], lines 209-263 *)
Definition attempt_segment (stage : Stage) (prompt : string) (skip_threshold : Z)
    (idx : nat) (segment : Segment) (history : list Turn) (total_chars : Z)
    : M (list Turn * Z) :=
  if (count_text_length env (original_text segment) <? skip_threshold)%Z then
    now <- utcnow ;;
    modify_segment idx (mark_title stage now) ;;;
    commit ;;;
    ret (history, total_chars)
  else
    modify_segment idx (fun s => seg_set_stage stage (seg_set_status SegProcessing s)) ;;;
    commit ;;;
    let input_text := stage_input stage segment in
    output_text <- run_with_retry idx stage
                     (execute_call idx stage input_text prompt history) ;;
    modify_segment idx (set_stage_output stage (Some output_text)) ;;;
    now <- utcnow ;;
    modify_segment idx (fun s => seg_set_completed_at (Some now)
                                   (seg_set_status SegCompleted s)) ;;;
    commit ;;;
    record_and_save stage segment input_text output_text history total_chars.

(** the [except] of the loop body, lines 265-271 *)
Definition segment_failed (idx : nat) (e : string) : M (list Turn * Z) :=
  modify_segment idx (seg_set_status SegFailed) ;;;
  commit ;;;
  modify_run (run_set_failed_segment_index (Some (Z.of_nat idx))) ;;;
  modify_run (run_set_error_message (Some e)) ;;;
  commit ;;;
  raise (abort_message idx e).

(** one iteration of the loop, lines 191-271; the result is the history
    and its weight as the next iteration finds them *)
Definition process_segment (stage : Stage) (prompt : string) (n : nat)
    (skip_threshold : Z) (idx : nat) (seg0 : Segment) (history : list Turn)
    (total_chars : Z) : M (list Turn * Z) :=
  modify_run (run_set_current_position idx) ;;;
  modify_run (run_set_progress (stage_progress stage idx n)) ;;;
  emit (EvProgress idx (stage_progress stage idx n)) ;;;
  commit ;;;
  segment <- current_segment idx seg0 ;;
  if polish_like stage && truthy (polished_text segment) then
    ret (history, total_chars)
  else if is_enhance stage && (truthy (enhanced_text segment) || is_title segment) then
    (if is_title segment && negb (truthy (enhanced_text segment)) then
       modify_segment idx (seg_set_enhanced
         (Some (text_or (polished_text segment) (original_text segment)))) ;;;
       modify_segment idx (seg_set_status SegCompleted) ;;;
       match seg_completed_at segment with
       | Some _ => ret tt
       | None => now <- utcnow ;; modify_segment idx (seg_set_completed_at (Some now))
       end ;;;
       commit
     else ret tt) ;;;
    ret (history, total_chars)
  else
    try_except
      (attempt_segment stage prompt skip_threshold idx segment history total_chars)
      (segment_failed idx).

(** [enumerate(l, start=start)] *)
Fixpoint enumerate_from {A} (start : nat) (l : list A) : list (nat * A) :=
  match l with
  | [] => []
  | x :: rest => (start, x) :: enumerate_from (S start) rest
  end.

Fixpoint stage_loop (stage : Stage) (prompt : string) (n : nat) (skip_threshold : Z)
    (items : list (nat * Segment)) (history : list Turn) (total_chars : Z) : M unit :=
  match items with
  | [] => ret tt
  | (idx, seg0) :: rest =>
      hc <- process_segment stage prompt n skip_threshold idx seg0 history total_chars ;;
      stage_loop stage prompt n skip_threshold rest (fst hc) (snd hc)
  end.

(** lines 184-186 *)
Definition resume_index (failed : option Z) : nat :=
  match failed with
  | Some k => Z.to_nat (Z.max k 0)
  | None => 0%nat
  end.

Definition process_stage (stage : Stage) : M unit :=
  modify_run (run_set_current_stage (Some stage)) ;;;
  commit ;;;
  let prompt := get_prompt stage in
  segs <- gets (fun w => segments (live w)) ;;
  let hc := initial_history stage segs [] 0%Z in
  failed <- gets (fun w => failed_segment_index (session_obj (live w))) ;;
  let start_index := resume_index failed in
  let skip_threshold := Z.max (SEGMENT_SKIP_THRESHOLD env) 0 in
  emit (EvStage stage start_index) ;;;
  stage_loop stage prompt (length segs) skip_threshold
    (enumerate_from start_index (drop start_index segs)) (fst hc) (snd hc).

(** *** [start_optimization] *)

Definition set_run_status (s : RunStatus) : M unit :=
  modify_run (run_set_status s) ;;; emit (EvRunStatus s).

(** [while not concurrency_manager.is_active(...): await asyncio.sleep(2)] *)
Fixpoint wait_until_active (polls : nat) : M unit :=
  match polls with
  | O => emit (EvGatePoll true)
  | S k => emit (EvGatePoll false) ;;; wait_until_active k
  end.

(** Modelled from the spec: the column defaults of the
    [OptimizationSegment] model (app/models/models.py is not under src/):
    a new row has no title flag, no output texts and no completion time.
    The other fields are those of the constructor call of lines 97-103,
    [OptimizationSegment(session_id=..., segment_index=idx, stage="polish",
    original_text=segment_text, status="pending")]. *)
Definition new_segment (sid : Z) (idx : nat) (segment_text : string) : Segment :=
  mkSegment sid (Z.of_nat idx) Polish false segment_text None None SegPending None.

(** lines 85-109 *)
Definition materialize_segments : M unit :=
  existing_segments <- gets (fun w => segments (live w)) ;;
  match existing_segments with
  | [] =>
      text <- gets (fun w => run_original_text (session_obj (live w))) ;;
      sid <- gets (fun w => run_id (session_obj (live w))) ;;
      let segs := split_text_into_segments env text in
      emit (EvSplit (length segs)) ;;;
      modify_run (run_set_total_segments (length segs)) ;;;
      commit ;;;
      add_segments (map (fun p => new_segment sid (fst p) (snd p)) (enumerate_from 0 segs)) ;;;
      commit
  | _ :: _ =>
      modify_run (run_set_total_segments (length existing_segments)) ;;;
      commit
  end.

(** lines 111-125 *)
Definition run_stages (mode : string) : M unit :=
  if String.eqb mode "paper_polish" then process_stage Polish
  else if String.eqb mode "emotion_polish" then process_stage EmotionPolish
  else if String.eqb mode "paper_polish_enhance" then
    process_stage Polish ;;; process_stage Enhance
  else raise (unsupported_message mode).

(** lines 66-69 *)
Definition reset_error_state : M unit :=
  modify_run (run_set_error_message None) ;;;
  modify_run (run_set_failed_segment_index None) ;;;
  commit.

(** line 112 *)
Definition effective_mode (r : Run) : string :=
  text_or (processing_mode r) "paper_polish_enhance".

(** lines 71-83: the admission gate, then the run is processing *)
Definition await_admission : M unit :=
  emit (EvGateAcquire (gate_acquire env)) ;;;
  (if gate_acquire env then ret tt
   else set_run_status RunQueued ;;; commit ;;; wait_until_active (gate_polls env)) ;;;
  set_run_status RunProcessing ;;;
  commit.

(** lines 127-132 *)
Definition mark_completed : M unit :=
  set_run_status RunCompleted ;;;
  now <- utcnow ;;
  modify_run (run_set_completed_at (Some now)) ;;;
  modify_run (run_set_progress 100) ;;;
  modify_run (run_set_failed_segment_index None) ;;;
  commit.

(** one construction [AIService(...)]: the handle, or the error raised *)
Definition construct (args : AIServiceArgs) : M unit :=
  fun w => (AIService env args, w).

(** [_init_ai_services] as a run executes it: the four handles are
    constructed in the order of lines 33-58 from the bindings
    [init_ai_services]; a construction that raises ends it.  The handles
    it stores are the collaborators [ai_text] and [ai_compress]. *)
Definition init_services : M unit :=
  o <- gets (fun w => run_overrides (session_obj (live w))) ;;
  let bound := init_ai_services o (service_settings env) in
  construct (polish_service bound) ;;;
  construct (enhance_service bound) ;;;
  construct (emotion_service bound) ;;;
  construct (compression_service bound).

(** the body of the outer [try], lines 63-132 *)
Definition optimization_body : M unit :=
  init_services ;;;
  reset_error_state ;;;
  await_admission ;;;
  materialize_segments ;;;
  mode <- gets (fun w => effective_mode (session_obj (live w))) ;;
  run_stages mode ;;;
  mark_completed.

(** the [except] of [start_optimization], lines 134-138 *)
Definition optimization_failed (e : string) : M unit :=
  set_run_status RunFailed ;;;
  modify_run (run_set_error_message (Some e)) ;;;
  commit ;;;
  raise e.

(** The [except] marks the run failed and re-raises; the [finally]
    releases the gate. *)
Definition start_optimization : M unit :=
  try_finally
    (try_except optimization_body optimization_failed)
    (emit EvGateRelease).

End Service.

(** ** Counting over traces and tables *)

(** how many rows of the audit table carry the key [k] *)
Definition key_count (k : log_key) (rows : list ChangeLog) : nat :=
  length (filter (fun r => key_of r = k) rows).

Definition unique_keys (rows : list ChangeLog) : Prop :=
  forall k, key_count k rows <= 1.

(** the progress values written, with the loop index of each write *)
Definition progress_writes (evs : list Event) : list (nat * Q) :=
  omap (fun e => match e with EvProgress idx p => Some (idx, p) | _ => None end) evs.

(** the loop indices for which the generative collaborator was called *)
Definition generate_calls (evs : list Event) : list nat :=
  omap (fun e => match e with EvGenerate idx _ _ _ => Some idx | _ => None end) evs.

(** the number of generative calls made for the segment at [i] *)
Definition calls_for (i : nat) (evs : list Event) : nat :=
  length (filter (fun j => j = i) (generate_calls evs)).

(** the run states written, in order *)
Definition status_writes (evs : list Event) : list RunStatus :=
  omap (fun e => match e with EvRunStatus s => Some s | _ => None end) evs.

(** the stages begun, in order *)
Definition stages_begun (evs : list Event) : list Stage :=
  omap (fun e => match e with EvStage s _ => Some s | _ => None end) evs.

Arguments record_and_save : simpl never.

(** * The vocabulary of the properties *)

(** the trace grows by events that satisfy [Q] *)
Definition trace_adds (Q : Event -> Prop) (w w' : World) : Prop :=
  exists evs, trace w' = trace w ++ evs /\ Forall Q evs.

(** the segment rows are the same *)
Definition rows_same (w w' : World) : Prop :=
  segments (live w') = segments (live w).

(** the rows other than the one at [idx] are the same, and none is added *)
Definition rows_kept_but (idx : nat) (w w' : World) : Prop :=
  length (segments (live w')) = length (segments (live w)) /\
  forall j, j <> idx -> segments (live w') !! j = segments (live w) !! j.

(** no key of the audit table gets a second row *)
Definition logs_stay_unique (w w' : World) : Prop :=
  unique_keys (change_logs (live w)) -> unique_keys (change_logs (live w')).

(** a call to the summarising collaborator *)
Definition quiet_event (e : Event) : Prop :=
  match e with
  | EvCompress _ _ => True
  | _ => False
  end.

(** a progress write below 100, or any other event *)
Definition below_full (e : Event) : Prop :=
  match e with
  | EvProgress _ p => (0 <= p /\ p < 100)%Q
  | _ => True
  end.

(** an event other than a generative call for the segment at [i] *)
Definition no_call_for (i : nat) (e : Event) : Prop :=
  match e with
  | EvGenerate idx _ _ _ => idx <> i
  | _ => True
  end.

(** [R] relates the states around every execution of [m] *)
Definition preserves (R : World -> World -> Prop) {A} (m : M A) : Prop :=
  forall w, R w (exec m w).

(** the enhance branch for a title without enhanced text, lines 202-204 *)
Definition fill_title (now : nat) (s : Segment) : Segment :=
  mkSegment (seg_session_id s) (segment_index s) (seg_stage s) (is_title s)
    (original_text s) (polished_text s)
    (Some (text_or (polished_text s) (original_text s))) SegCompleted
    (Some (default now (seg_completed_at s))).

(** The five ways one iteration can go for the row [s] found at [idx]:
    what it leaves in the row, what it returns, and the events it adds
    after its progress write. *)
Inductive segment_step (env : Collaborators) (stage : Stage) (idx : nat) (s : Segment)
    (w w' : World) (r : Result (list Turn * Z)) (evs : list Event) : Prop :=
| StepSkipped :
    truthy (stage_output stage s) = true ->
    segments (live w') = segments (live w) ->
    evs = [] -> (exists hc, r = Ok hc) ->
    segment_step env stage idx s w w' r evs
| StepTitleFilled :
    stage = Enhance -> is_title s = true -> truthy (enhanced_text s) = false ->
    segments (live w') !! idx = Some (fill_title (clock w) s) ->
    evs = [] -> (exists hc, r = Ok hc) ->
    segment_step env stage idx s w w' r evs
| StepTitled :
    truthy (stage_output stage s) = false ->
    (stage = Enhance -> is_title s = false) ->
    (count_text_length env (original_text s) < Z.max (SEGMENT_SKIP_THRESHOLD env) 0)%Z ->
    segments (live w') !! idx = Some (mark_title stage (clock w) s) ->
    evs = [] -> (exists hc, r = Ok hc) ->
    segment_step env stage idx s w w' r evs
| StepFailed (e : string) :
    truthy (stage_output stage s) = false ->
    (stage = Enhance -> is_title s = false) ->
    (Z.max (SEGMENT_SKIP_THRESHOLD env) 0 <= count_text_length env (original_text s))%Z ->
    segments (live w') !! idx =
      Some (seg_set_status SegFailed (seg_set_stage stage (seg_set_status SegProcessing s))) ->
    evs = [EvGenerate idx stage (stage_input stage s) (Raised e)] ->
    r = Raised (abort_message idx (retry_message idx stage e)) ->
    failed_segment_index (session_obj (live w')) = Some (Z.of_nat idx) ->
    error_message (session_obj (live w')) = Some (retry_message idx stage e) ->
    segment_step env stage idx s w w' r evs
| StepGenerated (out : string) (s' : Segment) (evs' : list Event) :
    truthy (stage_output stage s) = false ->
    (stage = Enhance -> is_title s = false) ->
    (Z.max (SEGMENT_SKIP_THRESHOLD env) 0 <= count_text_length env (original_text s))%Z ->
    segments (live w') !! idx = Some s' ->
    stage_output stage s' = Some out ->
    evs = EvGenerate idx stage (stage_input stage s) (Ok out) :: evs' ->
    Forall quiet_event evs' ->
    (forall e, r = Raised e ->
       seg_status s' = SegFailed /\
       failed_segment_index (session_obj (live w')) = Some (Z.of_nat idx)) ->
    is_title s' = is_title s ->
    segment_step env stage idx s w w' r evs.

(** the state after the progress write of an iteration, lines 192-195 *)
Definition progress_written (stage : Stage) (n idx : nat) (w : World) : World :=
  let l := store_upd_run (run_set_progress (stage_progress stage idx n))
             (store_upd_run (run_set_current_position idx) (live w)) in
  mkWorld l l (clock w) (ai_calls w) (compress_calls w)
    (trace w ++ [EvProgress idx (stage_progress stage idx n)]).

(** [loop_run env stage n k l w r w' evs]: the loop over the rows [l],
    found at the positions [k], [k+1], ..., started in [w], ends in [w']
    with the outcome [r] after adding the events [evs].  It steps through
    the rows in order and stops at the first iteration that raises. *)
Inductive loop_run (env : Collaborators) (stage : Stage) (n : nat)
  : nat -> list Segment -> World -> Result unit -> World -> list Event -> Prop :=
| RunDone (k : nat) (w : World) :
    loop_run env stage n k [] w (Ok tt) w []
| RunNext (k : nat) (seg0 : Segment) (l : list Segment) (s : Segment) (w w1 : World)
    (hc : list Turn * Z) (evs : list Event) (r : Result unit) (w2 : World)
    (evs2 : list Event) :
    segments (live w) !! k = Some s ->
    rows_kept_but k w w1 ->
    segment_step env stage k s w w1 (Ok hc) evs ->
    loop_run env stage n (S k) l w1 r w2 evs2 ->
    loop_run env stage n k (seg0 :: l) w r w2
      (EvProgress k (stage_progress stage k n) :: evs ++ evs2)
| RunAbort (k : nat) (seg0 : Segment) (l : list Segment) (s : Segment) (w w1 : World)
    (e : string) (evs : list Event) :
    segments (live w) !! k = Some s ->
    rows_kept_but k w w1 ->
    segment_step env stage k s w w1 (Raised e) evs ->
    loop_run env stage n k (seg0 :: l) w (Raised e) w1
      (EvProgress k (stage_progress stage k n) :: evs).

(** the progress write a stage makes for the row at [j] of [n] *)
Definition progress_at (stage : Stage) (n j : nat) : nat * Q :=
  (j, stage_progress stage j n).

(** the projection [f] of the state is not changed *)
Definition keeps {A} (f : World -> A) (w w' : World) : Prop := f w' = f w.

(** [m] never returns *)
Definition fails {A} (m : M A) : Prop := forall w a, outcome m w <> Ok a.

(** [R] relates the states around every execution of [m] that returns *)
Definition preserves_ok (R : World -> World -> Prop) {A} (m : M A) : Prop :=
  forall w a, outcome m w = Ok a -> R w (exec m w).

Definition checkpoint (w : World) : option Z :=
  failed_segment_index (session_obj (live w)).

(** the same stage run again and again, each time with the collaborators
    of that run *)
Fixpoint rerun_stage (stage : Stage) (envs : list Collaborators) (w : World) : World :=
  match envs with
  | [] => w
  | env :: rest => rerun_stage stage rest (exec (process_stage env stage) w)
  end.

(** the polls of a queued run *)
Definition poll_events (polls : nat) : list Event :=
  repeat (EvGatePoll false) polls ++ [EvGatePoll true].

(** the events up to the point where the run is processing *)
Definition admission_events (env : Collaborators) : list Event :=
  EvGateAcquire (gate_acquire env)
    :: (if gate_acquire env then []
        else EvRunStatus RunQueued :: poll_events (gate_polls env))
    ++ [EvRunStatus RunProcessing].

(** the rows a first execution creates *)
Definition new_segments (env : Collaborators) (r : Run) : list Segment :=
  map (fun p => new_segment (run_id r) (fst p) (snd p))
    (enumerate_from 0 (split_text_into_segments env (run_original_text r))).

(** the rows [start_optimization] works on: the existing ones, or new
    ones when there are none *)
Definition materialized (env : Collaborators) (r : Run) (segs : list Segment)
    : list Segment :=
  match segs with
  | [] => new_segments env r
  | _ :: _ => segs
  end.

Definition split_events (env : Collaborators) (r : Run) (segs : list Segment)
    : list Event :=
  match segs with
  | [] => [EvSplit (length (split_text_into_segments env (run_original_text r)))]
  | _ :: _ => []
  end.

(** lines 66-109: what a run does between the construction of its
    services and the dispatch on the mode *)
Definition prepare (env : Collaborators) : M unit :=
  reset_error_state ;;; await_admission env ;;; materialize_segments env.

(** the state in which the dispatch on the mode finds the run *)
Definition prepared (env : Collaborators) (w : World) : World :=
  let r := session_obj (live w) in
  let segs := materialized env r (segments (live w)) in
  let r' := run_set_total_segments (length segs)
              (run_set_status RunProcessing
                 (run_set_failed_segment_index None (run_set_error_message None r))) in
  let st := mkStore r' segs (histories (live w)) (change_logs (live w)) in
  mkWorld st st (clock w) (ai_calls w) (compress_calls w)
    (trace w ++ admission_events env ++ split_events env r (segments (live w))).

(** lines 66-132: the body of the [try] from the point where the services
    are built *)
Definition body_after_setup (env : Collaborators) : M unit :=
  reset_error_state ;;;
  await_admission env ;;;
  materialize_segments env ;;;
  mode <- gets (fun w => effective_mode (session_obj (live w))) ;;
  run_stages env mode ;;;
  mark_completed.

(** the run from that point on, with its [except] and its [finally] *)
Definition run_after_setup (env : Collaborators) : M unit :=
  try_finally
    (try_except (body_after_setup env) optimization_failed)
    (emit EvGateRelease).

(** what building the services of the run gives: the unit, or the error
    of the first constructor that raises *)
Definition services_outcome (env : Collaborators) (w : World) : Result unit :=
  outcome (init_services env) w.

(** the state a run leaves when a constructor raised [e]: the [except]
    and the [finally] from the state the run began in *)
Definition setup_failed (e : string) (w : World) : World :=
  exec (emit EvGateRelease) (exec (optimization_failed e) w).

(** what follows the stages: completion, or the [except] of the run *)
Definition conclude (r : Result unit) : M unit :=
  match r with
  | Ok _ => mark_completed
  | Raised e => optimization_failed e
  end.

(** the fixed mapping from the processing mode to the sequence of stages *)
Definition stages_of_mode (mode : string) : option (list Stage) :=
  if String.eqb mode "paper_polish" then Some [Polish]
  else if String.eqb mode "emotion_polish" then Some [EmotionPolish]
  else if String.eqb mode "paper_polish_enhance" then Some [Polish; Enhance]
  else None.

(** the stages of a sequence, one after the other, up to the first that
    raises *)
Fixpoint run_stage_list (env : Collaborators) (stages : list Stage) : M unit :=
  match stages with
  | [] => ret tt
  | stage :: rest => process_stage env stage ;;; run_stage_list env rest
  end.

(** the trace of [m] only grows *)
Definition grows {A} (m : M A) : Prop :=
  forall w, trace (exec m w) = trace w ++ events_of m w.

(** the stage loop starts at the first row *)
Definition stage_from_first (e : Event) : Prop :=
  match e with
  | EvStage _ start => start = 0%nat
  | _ => True
  end.

(** an event of the stage loop *)
Definition loop_event (e : Event) : Prop :=
  match e with
  | EvProgress _ _ | EvGenerate _ _ _ _ | EvCompress _ _ => True
  | _ => False
  end.

(** a progress below 100 stays below 100 *)
Definition progress_stays_below (w w' : World) : Prop :=
  (progress (session_obj (live w)) < 100)%Q ->
  (progress (session_obj (live w')) < 100)%Q.

(** the run status a run ends with *)
Definition final_status (r : Result unit) : RunStatus :=
  match r with
  | Ok _ => RunCompleted
  | Raised _ => RunFailed
  end.

(** an event of the gate, of the run status or of the segmentation *)
Definition setup_event (e : Event) : Prop :=
  match e with
  | EvGateAcquire _ | EvGatePoll _ | EvGateRelease | EvRunStatus _ | EvSplit _ => True
  | _ => False
  end.

(** the turn the loop loads for a row: the stage output of a row that is
    not a title and has one *)
Definition loaded_turn (stage : Stage) (s : Segment) : option Turn :=
  if is_title s then None
  else match stage_output stage s with
       | Some (String c t) => Some (mkTurn "assistant" (String c t))
       | _ => None
       end.

(** the traffic with the admission gate *)
Definition gate_traffic (evs : list Event) : list Event :=
  omap (fun e => match e with
                 | EvGateAcquire _ | EvGatePoll _ | EvGateRelease => Some e
                 | _ => None
                 end) evs.

(** an event of a stage: its start, or an event of its loop *)
Definition stage_event (e : Event) : Prop :=
  match e with
  | EvStage _ _ | EvProgress _ _ | EvGenerate _ _ _ _ | EvCompress _ _ => True
  | _ => False
  end.

(** the error text of the run row *)
Definition run_error (w : World) : option string := error_message (session_obj (live w)).

(** the segment count of the run row *)
Definition run_total (w : World) : nat := total_segments (session_obj (live w)).

(** what a write to a row never undoes: the row keeps its session, its
    index and its original text; a title stays a title; an output or a
    completion time that is set stays set *)
Definition row_kept (s s' : Segment) : Prop :=
  seg_session_id s' = seg_session_id s /\
  segment_index s' = segment_index s /\
  original_text s' = original_text s /\
  (is_title s = true -> is_title s' = true) /\
  (polished_text s <> None -> polished_text s' <> None) /\
  (enhanced_text s <> None -> enhanced_text s' <> None) /\
  (seg_completed_at s <> None -> seg_completed_at s' <> None).

(** every row is still there, at its position, and kept in that sense *)
Definition rows_kept (w w' : World) : Prop :=
  forall i s, segments (live w) !! i = Some s ->
    exists s', segments (live w') !! i = Some s' /\ row_kept s s'.

(** the tables, the counters of calls and the checkpoint are the same *)
Definition same_content (w w' : World) : Prop :=
  segments (live w') = segments (live w) /\
  change_logs (live w') = change_logs (live w) /\
  histories (live w') = histories (live w) /\
  ai_calls w' = ai_calls w /\ compress_calls w' = compress_calls w /\
  checkpoint w' = checkpoint w.

(** the events of a stage that steps over each of [n] rows *)
Definition skipping_stage_events (n : nat) (stage : Stage) : list Event :=
  EvStage stage 0 :: map (fun i => EvProgress i (stage_progress stage i n)) (seq 0 n).

(** a snapshot as [_process_stage] writes them for the run [sid]: its
    count is the weight of its turns, it is flagged compressed exactly
    when it is one system turn, and it is within the threshold unless it
    is compressed *)
Definition snapshot_ok (env : Collaborators) (sid : Z) (h : SessionHistory) : Prop :=
  hist_session_id h = sid /\
  history_data h <> [] /\
  character_count h = history_weight env (history_data h) /\
  is_compressed h = single_system_turn (history_data h) /\
  ((character_count h <= HISTORY_COMPRESSION_THRESHOLD env)%Z \/ is_compressed h = true).

(** the run row keeps its id, the snapshots that were there are kept, and
    the snapshots added are such snapshots of the run *)
Definition snapshots_added (env : Collaborators) (w w' : World) : Prop :=
  run_id (session_obj (live w')) = run_id (session_obj (live w)) /\
  exists added,
    histories (live w') = histories (live w) ++ added /\
    Forall (snapshot_ok env (run_id (session_obj (live w)))) added.

(** every value [m] returns satisfies [P] *)
Definition returns {A} (P : A -> Prop) (m : M A) : Prop :=
  forall w a, outcome m w = Ok a -> P a.

(** the history and the count that [_save_history] is given *)
Definition history_ok (env : Collaborators) (hc : list Turn * Z) : Prop :=
  fst hc <> [] /\ snd hc = history_weight env (fst hc) /\
  ((snd hc <= HISTORY_COMPRESSION_THRESHOLD env)%Z \/ single_system_turn (fst hc) = true).

(** the enhance stage has nothing to generate for the row: it holds an
    enhanced text or is a title *)
Definition enhance_settled (s : Segment) : bool := truthy (enhanced_text s) || is_title s.

(** every row is still there, and a row settled for the enhance stage
    stays settled *)
Definition rows_stay_settled (w w' : World) : Prop :=
  forall i s, segments (live w) !! i = Some s ->
    exists s', segments (live w') !! i = Some s' /\
               (enhance_settled s = true -> enhance_settled s' = true).

(** how a stage ends when the summariser raised [e] while the reply for
    the row at [idx] was being recorded *)
Definition compress_abort (stage : Stage) (idx : nat) (e : string) (r : Result unit)
    (w' : World) : Prop :=
  r = Raised (abort_message idx e) /\
  checkpoint w' = Some (Z.of_nat idx) /\
  run_error w' = Some e /\
  exists s' out,
    segments (live w') !! idx = Some s' /\
    stage_output stage s' = Some out /\ seg_status s' = SegFailed.

(** the overrides of one stage, as a service would be built from them alone *)
Definition polish_overrides (o : RunOverrides) : AIServiceArgs :=
  mkAIServiceArgs (polish_model o) (polish_api_key o) (polish_base_url o).

Definition emotion_overrides (o : RunOverrides) : AIServiceArgs :=
  mkAIServiceArgs (emotion_model o) (emotion_api_key o) (emotion_base_url o).

(** no field of the arguments holds a non-empty text *)
Definition all_unset (a : AIServiceArgs) : Prop :=
  truthy (svc_model a) = false /\ truthy (svc_api_key a) = false /\
  truthy (svc_base_url a) = false.

(** the title flag of a row as the title branch sets it, lines 210-214:
    a flagged row holds its original text as polished text, and its
    counted length is below the skip threshold *)
Definition title_as_written (env : Collaborators) (s : Segment) : Prop :=
  is_title s = true ->
  polished_text s = Some (original_text s) /\
  (count_text_length env (original_text s) < Z.max (SEGMENT_SKIP_THRESHOLD env) 0)%Z.

Definition titles_as_written (env : Collaborators) (w : World) : Prop :=
  forall i s, segments (live w) !! i = Some s -> title_as_written env s.

(** ** Sample collaborators and runs *)

(** settings with a key for every service, and a run without overrides *)
Definition sample_settings : ServiceSettings :=
  mkServiceSettings (Some "polish-model") (Some "key") (Some "https://api")
    (Some "enhance-model") (Some "key") (Some "https://api")
    (Some "compress-model") None None (Some "key") (Some "https://api").

Definition no_overrides : RunOverrides :=
  mkRunOverrides None None None None None None None None None.

Definition sample_split (text : string) : list string :=
  ["Title"; "first paragraph body"; "second paragraph body"].

(** A service that answers every call but the [fail_at]-th, with a skip
    threshold of 10 characters. *)
Definition sample_env (fail_at : nat) : Collaborators :=
  mkCollaborators sample_split
    (fun s => Z.of_nat (String.length s)) (fun s => Z.of_nat (String.length s))
    String.length 10 1000 "polish prompt" "enhance prompt" "emotion prompt"
    (fun n _ input _ _ =>
       if (n =? fail_at)%nat then Raised "timeout" else Ok ("out:" +:+ default "" input))
    (fun _ _ _ => Ok "summary") true 0 sample_settings (fun _ => Ok tt).

Definition sample_run (mode : option string) : Run :=
  mkRun 7 "doc" mode RunCreated None 0 0 0 None None None no_overrides.

Definition world_of (r : Run) (segs : list Segment) (logs : list ChangeLog) : World :=
  mkWorld (mkStore r segs [] logs) (mkStore r segs [] logs) 0 0 0 [].

Definition fresh_world (mode : option string) : World :=
  world_of (sample_run mode) [] [].

(** ** Sample rows and states *)

Definition seg_polished : Segment :=
  mkSegment 7 0 Polish false "first paragraph body" (Some "out:first paragraph body")
    None SegCompleted (Some 1%nat).

Definition seg_pending : Segment :=
  mkSegment 7 1 Polish false "second paragraph body" None None SegPending None.

Definition seg_heading : Segment :=
  mkSegment 7 2 Polish false "Title" None None SegPending None.

(** a row flagged as a title whose polished text differs from its original
    text and whose enhanced text is missing *)
Definition seg_flagged_title : Segment :=
  mkSegment 7 0 Polish true "Intro" (Some "Polished intro") None SegCompleted (Some 1%nat).

(** a run found with its first row polished *)
Definition resumed_world : World :=
  world_of (sample_run (Some "paper_polish")) [seg_polished; seg_pending; seg_heading] [].

(** the same rows with the checkpoint at the second row *)
Definition checkpoint_world : World :=
  world_of (run_set_failed_segment_index (Some 1%Z) (sample_run (Some "paper_polish")))
    [seg_polished; seg_pending; seg_heading] [].

Definition flagged_world : World :=
  world_of (sample_run None) [seg_flagged_title] [].

(** ** A claim as the specification words it *)


(** ** Further sample collaborators and states *)




(** collaborators whose summariser answers with the contents of the turns
    it is given, joined by a bar *)
Definition digest_env : Collaborators :=
  mkCollaborators sample_split
    (fun s => Z.of_nat (String.length s)) (fun s => Z.of_nat (String.length s))
    String.length 10 1000 "polish prompt" "enhance prompt" "emotion prompt"
    (fun _ _ input _ _ => Ok ("out:" +:+ default "" input))
    (fun _ turns _ => Ok (String.concat "|" (map content turns)))
    true 0 sample_settings (fun _ => Ok tt).

Definition four_turns : list Turn :=
  [mkTurn "assistant" "first"; mkTurn "assistant" "second"; mkTurn "assistant" "third";
   mkTurn "assistant" "fourth"].

(** an audit table that holds an entry for the second row already *)
Definition old_log : ChangeLog :=
  mkChangeLog 7 1 Polish "old before" "old after" (mkChangeDetail 10 9 true) 3.

Definition other_log : ChangeLog :=
  mkChangeLog 7 0 Polish "first paragraph body" "out:first paragraph body"
    (mkChangeDetail 20 24 true) 1.

Definition audited_world : World :=
  world_of (sample_run (Some "paper_polish")) [seg_polished; seg_pending; seg_heading]
    [other_log; old_log].

(** settings without a key for the enhance service, and a constructor
    that refuses to build a service without a key *)
Definition keyless_settings : ServiceSettings :=
  mkServiceSettings (Some "polish-model") (Some "key") (Some "https://api")
    (Some "enhance-model") None (Some "https://api")
    (Some "compress-model") None None (Some "key") (Some "https://api").

Definition keyless_env : Collaborators :=
  mkCollaborators sample_split
    (fun s => Z.of_nat (String.length s)) (fun s => Z.of_nat (String.length s))
    String.length 10 1000 "polish prompt" "enhance prompt" "emotion prompt"
    (fun _ _ input _ _ => Ok ("out:" +:+ default "" input))
    (fun _ _ _ => Ok "summary") true 0 keyless_settings
    (fun args => if truthy (svc_api_key args) then Ok tt else Raised "api_key is required").

(** a short row polished under another threshold and not yet enhanced *)
Definition seg_polished_short : Segment :=
  mkSegment 7 0 Polish false "Intro" (Some "A polished introduction") None SegCompleted
    (Some 1%nat).

Definition polished_short_world : World :=
  world_of (sample_run None) [seg_polished_short] [].

(** collaborators whose summariser is down, with a history threshold of
    five characters *)
Definition summariser_down_env : Collaborators :=
  mkCollaborators sample_split
    (fun s => Z.of_nat (String.length s)) (fun s => Z.of_nat (String.length s))
    String.length 10 5 "polish prompt" "enhance prompt" "emotion prompt"
    (fun _ _ input _ _ => Ok ("out:" +:+ default "" input))
    (fun _ _ _ => Raised "quota") true 0 sample_settings (fun _ => Ok tt).

(** a run found with every row polished *)
Definition polished_world : World :=
  world_of (sample_run (Some "paper_polish")) [seg_polished] [].

(** collaborators whose segmenter finds no piece *)
Definition empty_split_env : Collaborators :=
  mkCollaborators (fun _ => [])
    (fun s => Z.of_nat (String.length s)) (fun s => Z.of_nat (String.length s))
    String.length 10 1000 "polish prompt" "enhance prompt" "emotion prompt"
    (fun _ _ input _ _ => Ok ("out:" +:+ default "" input))
    (fun _ _ _ => Ok "summary") true 0 sample_settings (fun _ => Ok tt).

(** * Facts about the service *)

(** ** History compression *)

Section Compression.

Variable env : Collaborators.

Lemma recent_messages_suffix (history : list Turn) :
  recent_messages history `suffix_of` history.
Proof.
  unfold recent_messages.
  destruct (3 <? length history)%nat.
  - apply suffix_drop.
  - reflexivity.
Qed.

Lemma compress_history_compressed (history : list Turn) (stage : Stage) (w : World) :
  single_system_turn history = true ->
  compress_history env history stage w = (Ok history, w).
Proof. intros H. unfold compress_history. rewrite H. reflexivity. Qed.

Lemma compress_history_fresh (history : list Turn) (stage : Stage) (w : World) :
  single_system_turn history = false ->
  outcome (compress_history env history stage) w =
    match ai_compress env (compress_calls w) (recent_messages history)
            (compression_prompt stage) with
    | Ok s => Ok [summary_turn s]
    | Raised e => Raised e
    end.
Proof.
  intros H. unfold outcome, compress_history, bind, call_compress, ret. rewrite H.
  simpl. destruct (ai_compress env _ _ _); reflexivity.
Qed.

End Compression.

(** ** The audit table *)

Section AuditTable.

Variable env : Collaborators.

Lemma key_count_app (k : log_key) (l1 l2 : list ChangeLog) :
  key_count k (l1 ++ l2) = (key_count k l1 + key_count k l2)%nat.
Proof. unfold key_count. rewrite filter_app, length_app. reflexivity. Qed.

Lemma key_count_cons (k : log_key) (r : ChangeLog) (rows : list ChangeLog) :
  key_count k (r :: rows) =
    ((if decide (key_of r = k) then 1 else 0) + key_count k rows)%nat.
Proof.
  unfold key_count. rewrite filter_cons.
  destruct (decide (key_of r = k)); reflexivity.
Qed.

Lemma key_count_alter (k : log_key) (f : ChangeLog -> ChangeLog) (j : nat)
    (rows : list ChangeLog) :
  (forall r, key_of (f r) = key_of r) ->
  key_count k (alter f j rows) = key_count k rows.
Proof.
  intros Hf. revert j. induction rows as [| r rows IH]; intros [| j]; try reflexivity.
  - change (alter f 0%nat (r :: rows)) with (f r :: rows).
    rewrite !key_count_cons, Hf. reflexivity.
  - change (alter f (S j) (r :: rows)) with (r :: alter f j rows).
    rewrite !key_count_cons, IH. reflexivity.
Qed.

Lemma latest_matching_None (k : log_key) (rows : list ChangeLog) :
  latest_matching k rows = None <-> key_count k rows = 0%nat.
Proof.
  induction rows as [| r rows IH]; [split; reflexivity |].
  rewrite key_count_cons. simpl. unfold log_matches.
  destruct (decide (key_of r = k)) as [E | N].
  - rewrite bool_decide_eq_true_2 by exact E.
    destruct (latest_matching k rows) as [[j r'] |]; simpl.
    + destruct (log_created_at r <? log_created_at r')%nat; split; intros; [discriminate | lia | discriminate | lia].
    + split; intros; [discriminate | lia].
  - rewrite bool_decide_eq_false_2 by exact N.
    destruct (latest_matching k rows) as [[j r'] |]; simpl in *.
    + split; [discriminate |]. intros H. apply IH in H. discriminate.
    + split; [| reflexivity]. intros _. apply IH. reflexivity.
Qed.

Lemma latest_matching_Some (k : log_key) (rows : list ChangeLog) (j : nat) (r : ChangeLog) :
  latest_matching k rows = Some (j, r) -> rows !! j = Some r /\ key_of r = k.
Proof.
  revert j r. induction rows as [| r0 rows IH]; intros j r; [discriminate |].
  simpl. unfold log_matches.
  destruct (latest_matching k rows) as [[j' r'] |]; simpl.
  - specialize (IH j' r' eq_refl) as [Hl Hk].
    destruct (decide (key_of r0 = k)) as [E | N].
    + rewrite bool_decide_eq_true_2 by exact E.
      destruct (log_created_at r0 <? log_created_at r')%nat; intros [= <- <-]; auto.
    + rewrite bool_decide_eq_false_2 by exact N. intros [= <- <-]; auto.
  - destruct (decide (key_of r0 = k)) as [E | N].
    + rewrite bool_decide_eq_true_2 by exact E. intros [= <- <-]; auto.
    + rewrite bool_decide_eq_false_2 by exact N. discriminate.
Qed.

(** the entry found is the one created last among those of the key *)
Lemma latest_matching_latest (k : log_key) (rows : list ChangeLog) (j : nat) (r : ChangeLog) :
  latest_matching k rows = Some (j, r) ->
  forall i r', rows !! i = Some r' -> key_of r' = k ->
    (log_created_at r' <= log_created_at r)%nat.
Proof.
  revert j r. induction rows as [| r0 rows IH]; intros j r; [discriminate |].
  simpl. unfold log_matches.
  destruct (latest_matching k rows) as [[j' r'] |] eqn:El; simpl.
  - specialize (IH j' r' eq_refl).
    destruct (decide (key_of r0 = k)) as [E | N].
    + rewrite bool_decide_eq_true_2 by exact E.
      destruct (Nat.ltb_spec (log_created_at r0) (log_created_at r')) as [Hlt | Hge];
        intros [= <- <-]; intros [| i] r1 Hi Hk; simpl in Hi.
      * injection Hi as <-. lia.
      * eapply IH; eauto.
      * injection Hi as <-. lia.
      * specialize (IH i r1 Hi Hk). lia.
    + rewrite bool_decide_eq_false_2 by exact N.
      intros [= <- <-]; intros [| i] r1 Hi Hk; simpl in Hi.
      * injection Hi as <-. contradiction.
      * eapply IH; eauto.
  - apply latest_matching_None in El.
    destruct (decide (key_of r0 = k)) as [E | N].
    + rewrite bool_decide_eq_true_2 by exact E.
      intros [= <- <-]; intros [| i] r1 Hi Hk; simpl in Hi.
      * injection Hi as <-. lia.
      * exfalso. apply list_elem_of_lookup_2 in Hi.
        unfold key_count in El. apply length_zero_iff_nil in El.
        assert (Hin : r1 ∈ filter (fun r => key_of r = k) rows)
          by (apply list_elem_of_filter; auto).
        rewrite El in Hin. inversion Hin.
    + rewrite bool_decide_eq_false_2 by exact N. discriminate.
Qed.

Lemma key_of_overwrite_log (before after : string) (d : ChangeDetail) (r : ChangeLog) :
  key_of (overwrite_log before after d r) = key_of r.
Proof. reflexivity. Qed.

(** the rows [_record_change] leaves, by the two branches of its lookup *)
Lemma record_change_rows (segment : Segment) (before after : string) (stage : Stage)
    (w : World) :
  let k := (run_id (session_obj (live w)), segment_index segment, stage) in
  let d := mkChangeDetail (str_len env before) (str_len env after)
             (negb (String.eqb before after)) in
  change_logs (live (exec (record_change env segment (Some before) after stage) w)) =
    match latest_matching k (change_logs (live w)) with
    | Some (j, _) => alter (overwrite_log before after d) j (change_logs (live w))
    | None => change_logs (live w) ++
                [new_change_log (run_id (session_obj (live w))) (segment_index segment)
                   stage before after d (clock w)]
    end.
Proof.
  unfold exec, record_change, bind, gets. simpl.
  destruct (latest_matching _ _) as [[j r] |]; reflexivity.
Qed.

Lemma record_change_none_rows (segment : Segment) (after : string) (stage : Stage)
    (w : World) :
  record_change env segment None after stage w =
    (Raised "object of type 'NoneType' has no len()", w).
Proof. reflexivity. Qed.

Lemma record_change_key_count (segment : Segment) (before : option string)
    (after : string) (stage : Stage) (w : World) (k' : log_key) :
  let k := (run_id (session_obj (live w)), segment_index segment, stage) in
  key_count k' (change_logs (live (exec (record_change env segment before after stage) w)))
  = if decide (k' = k) then
      match before with
      | Some _ => Nat.max 1 (key_count k (change_logs (live w)))
      | None => key_count k (change_logs (live w))
      end
    else key_count k' (change_logs (live w)).
Proof.
  intros k. destruct before as [before |].
  - rewrite record_change_rows. fold k.
    destruct (latest_matching k (change_logs (live w))) as [[j r] |] eqn:El.
    + rewrite key_count_alter by apply key_of_overwrite_log.
      destruct (decide (k' = k)) as [-> |]; [| reflexivity].
      assert (key_count k (change_logs (live w)) <> 0%nat).
      { intros H0. apply latest_matching_None in H0. congruence. }
      lia.
    + apply latest_matching_None in El.
      rewrite key_count_app, key_count_cons.
      change (key_of (new_change_log _ _ _ _ _ _ _)) with k.
      change (key_count k' []) with 0%nat.
      destruct (decide (k' = k)) as [-> |].
      * rewrite decide_True by reflexivity. lia.
      * rewrite decide_False by congruence. lia.
  - unfold exec. rewrite record_change_none_rows. simpl.
    destruct (decide (k' = k)) as [-> |]; reflexivity.
Qed.

Lemma record_change_unique (segment : Segment) (before : option string)
    (after : string) (stage : Stage) (w : World) :
  unique_keys (change_logs (live w)) ->
  unique_keys (change_logs (live (exec (record_change env segment before after stage) w))).
Proof.
  intros Hu k'. rewrite record_change_key_count.
  destruct (decide _); [destruct before |]; try apply Hu.
  specialize (Hu (run_id (session_obj (live w)), segment_index segment, stage)). lia.
Qed.

End AuditTable.

(** ** Relations every step of a computation keeps *)

Section Preservation.

Context (R : World -> World -> Prop) {HR : PreOrder R}.

Lemma preserves_ret {A} (a : A) : preserves R (ret a).
Proof. intros w. reflexivity. Qed.

Lemma preserves_raise {A} (msg : string) : preserves R (@raise A msg).
Proof. intros w. reflexivity. Qed.

Lemma preserves_gets {A} (f : World -> A) : preserves R (gets f).
Proof. intros w. reflexivity. Qed.

Lemma preserves_bind {A B} (m : M A) (k : A -> M B) :
  preserves R m -> (forall a, preserves R (k a)) -> preserves R (bind m k).
Proof.
  intros Hm Hk w. specialize (Hm w). unfold exec, bind in *.
  destruct (m w) as [[a | e] w1]; simpl in *.
  - etransitivity; [exact Hm | apply Hk].
  - exact Hm.
Qed.

Lemma preserves_try_except {A} (m : M A) (h : string -> M A) :
  preserves R m -> (forall e, preserves R (h e)) -> preserves R (try_except m h).
Proof.
  intros Hm Hh w. specialize (Hm w). unfold exec, try_except in *.
  destruct (m w) as [[a | e] w1]; simpl in *.
  - exact Hm.
  - etransitivity; [exact Hm | apply Hh].
Qed.

Lemma preserves_try_finally {A} (m : M A) (c : M unit) :
  preserves R m -> preserves R c -> preserves R (try_finally m c).
Proof.
  intros Hm Hc w. specialize (Hm w). unfold exec, try_finally in *.
  destruct (m w) as [r w1]; simpl in *. specialize (Hc w1). unfold exec in Hc.
  destruct (c w1) as [[u | e] w2]; simpl in *;
    (etransitivity; [exact Hm | exact Hc]).
Qed.

End Preservation.

#[global] Instance trace_adds_preorder (Q : Event -> Prop) : PreOrder (trace_adds Q).
Proof.
  split.
  - intros w. exists []. split; [symmetry; apply app_nil_r | constructor].
  - intros w1 w2 w3 (e1 & H1 & F1) (e2 & H2 & F2). exists (e1 ++ e2). split.
    + rewrite H2, H1, app_assoc. reflexivity.
    + apply Forall_app; auto.
Qed.

#[global] Instance rows_same_preorder : PreOrder rows_same.
Proof.
  split.
  - intros w. reflexivity.
  - intros w1 w2 w3 H1 H2. unfold rows_same in *. congruence.
Qed.

#[global] Instance rows_kept_but_preorder (idx : nat) : PreOrder (rows_kept_but idx).
Proof.
  split.
  - intros w. split; auto.
  - intros w1 w2 w3 [L1 H1] [L2 H2]. split; [congruence |].
    intros j Hj. rewrite H2, H1; auto.
Qed.

#[global] Instance logs_stay_unique_preorder : PreOrder logs_stay_unique.
Proof.
  split.
  - intros w H. exact H.
  - intros w1 w2 w3 H1 H2 H. auto.
Qed.

(** one structural step of a preservation proof; [leaf] closes the
    primitive operations *)
Ltac pres_step leaf :=
  lazymatch goal with
  | |- preserves _ (bind _ _) =>
      apply preserves_bind; [typeclasses eauto | | intros ?]
  | |- preserves _ (ret _) => apply preserves_ret; typeclasses eauto
  | |- preserves _ (raise _) => apply preserves_raise; typeclasses eauto
  | |- preserves _ (gets _) => apply preserves_gets; typeclasses eauto
  | |- preserves _ (try_except _ _) =>
      apply preserves_try_except; [typeclasses eauto | | intros ?]
  | |- preserves _ (try_finally _ _) =>
      apply preserves_try_finally; [typeclasses eauto | |]
  | |- preserves _ (if ?b then _ else _) => destruct b
  | |- preserves _ (match ?x with _ => _ end) => destruct x
  | |- _ => first [ solve [leaf]
                  | progress unfold run_with_retry, compress_history, save_history,
                      record_change, record_and_save, attempt_segment, segment_failed,
                      process_segment, current_segment, set_run_status,
                      materialize_segments, reset_error_state, await_admission, mark_completed,
                      optimization_failed, init_services; cbv zeta ]
  end.

Ltac pres leaf := repeat pres_step leaf.

(** the successor state of a primitive operation, spelled out *)
Ltac prim_exec :=
  intros ?w;
  unfold exec, modify_run, modify_segment, commit, emit, utcnow, add_segments,
    add_history, add_change_log, modify_change_log, execute_call, call_compress,
    construct;
  simpl.

Ltac rows_same_leaf := prim_exec; reflexivity.

Ltac rows_kept_leaf :=
  prim_exec; split; simpl;
  [ try apply length_alter; reflexivity
  | intros ? ?; simpl; try (apply list_lookup_alter_ne; congruence); reflexivity ].

Ltac trace_adds_leaf :=
  prim_exec;
  first [ exists []; split; [symmetry; apply app_nil_r | constructor]
        | eexists; split; [reflexivity | repeat constructor; simpl; auto; fail ] ].

Ltac logs_unique_leaf :=
  first [ intros ?w; unfold logs_stay_unique; apply record_change_unique
        | prim_exec; unfold logs_stay_unique; simpl; intros ?H; exact H ].

Section Quiet.

Variable env : Collaborators.

Lemma record_and_save_rows (stage : Stage) (segment : Segment) (input : option string)
    (output : string) (history : list Turn) (total_chars : Z) :
  preserves rows_same (record_and_save env stage segment input output history total_chars).
Proof. pres rows_same_leaf. Qed.

Lemma record_and_save_quiet (stage : Stage) (segment : Segment) (input : option string)
    (output : string) (history : list Turn) (total_chars : Z) :
  preserves (trace_adds quiet_event)
    (record_and_save env stage segment input output history total_chars).
Proof. pres trace_adds_leaf. Qed.

Lemma process_segment_rows (stage : Stage) (prompt : string) (n : nat) (thr : Z)
    (idx : nat) (seg0 : Segment) (history : list Turn) (total_chars : Z) :
  preserves (rows_kept_but idx)
    (process_segment env stage prompt n thr idx seg0 history total_chars).
Proof. pres rows_kept_leaf. Qed.

Lemma process_segment_logs (stage : Stage) (prompt : string) (n : nat)
    (thr : Z) (idx : nat) (seg0 : Segment) (history : list Turn) (total_chars : Z) :
  preserves logs_stay_unique
    (process_segment env stage prompt n thr idx seg0 history total_chars).
Proof. pres logs_unique_leaf. Qed.

End Quiet.

Section Iteration.

Variable env : Collaborators.

(** the part of an iteration after a reply [out] of the generative call:
    from the state [w2] in which the reply arrived *)
Lemma after_reply (stage : Stage) (idx : nat) (s : Segment) (out : string)
    (history : list Turn) (total_chars : Z) (w2 : World) :
  segments (live w2) !! idx = Some (seg_set_stage stage (seg_set_status SegProcessing s)) ->
  let m := try_except
             (modify_segment idx (set_stage_output stage (Some out)) ;;;
              now <- utcnow ;;
              modify_segment idx (fun s => seg_set_completed_at (Some now)
                                             (seg_set_status SegCompleted s)) ;;;
              commit ;;;
              record_and_save env stage s (stage_input stage s) out history total_chars)
             (segment_failed idx) in
  exists s' evs',
    trace (exec m w2) = trace w2 ++ evs' /\ Forall quiet_event evs' /\
    segments (live (exec m w2)) !! idx = Some s' /\
    stage_output stage s' = Some out /\
    (forall e, outcome m w2 = Raised e ->
       seg_status s' = SegFailed /\
       failed_segment_index (session_obj (live (exec m w2))) = Some (Z.of_nat idx)) /\
    is_title s' = is_title s.
Proof.
  intros Hs m. subst m.
  unfold exec, outcome, try_except, bind, modify_segment, utcnow, commit. simpl.
  match goal with
  | |- context [record_and_save env ?x1 ?x2 ?x3 ?x4 ?x5 ?x6 ?x7] =>
      pose proof (record_and_save_rows env x1 x2 x3 x4 x5 x6 x7) as Hrows;
      pose proof (record_and_save_quiet env x1 x2 x3 x4 x5 x6 x7) as (evs' & Htr & Hq);
      unfold rows_same, exec in Hrows, Htr;
      destruct (record_and_save env x1 x2 x3 x4 x5 x6 x7) as [[hc | e] w4]
  end; simpl in *.
  - eexists _, evs'. split; [exact Htr |]. split; [exact Hq |].
    rewrite Hrows, !list_lookup_alter_eq, Hs. simpl.
    split; [reflexivity |]. split; [destruct stage; reflexivity |].
    split; [discriminate | destruct stage; reflexivity].
  - unfold segment_failed, bind, modify_segment, modify_run, commit, raise. simpl.
    eexists _, evs'. split; [exact Htr |]. split; [exact Hq |].
    rewrite !list_lookup_alter_eq, Hrows, !list_lookup_alter_eq, Hs. simpl.
    split; [reflexivity |]. split; [destruct stage; reflexivity |].
    split; [intros e' _; split; reflexivity | destruct stage; reflexivity].
Qed.

Lemma try_except_bind {A B} (m : M A) (k : A -> M B) (h : string -> M B) (w : World) :
  try_except (bind m k) h w =
    match m w with
    | (Ok a, w1) => try_except (k a) h w1
    | (Raised e, w1) => h e w1
    end.
Proof. unfold try_except, bind. destruct (m w) as [[a | e] w1]; reflexivity. Qed.

Lemma run_with_retry_call (idx : nat) (stage : Stage) (input : option string)
    (prompt : string) (history : list Turn) (w : World) :
  run_with_retry idx stage (execute_call env idx stage input prompt history) w =
    let reply := ai_text env (ai_calls w) stage input prompt history in
    (match reply with
     | Ok out => Ok out
     | Raised e => Raised (retry_message idx stage e)
     end,
     mkWorld (live w) (durable w) (clock w) (S (ai_calls w)) (compress_calls w)
       (trace w ++ [EvGenerate idx stage input reply])).
Proof.
  unfold run_with_retry, try_except, execute_call, raise. cbv zeta.
  destruct (ai_text env (ai_calls w) stage input prompt history); reflexivity.
Qed.

Lemma attempt_segment_step (stage : Stage) (idx : nat) (s : Segment)
    (history : list Turn) (total_chars : Z) (w1 : World)
    (r : Result (list Turn * Z)) (w' : World) :
  segments (live w1) !! idx = Some s ->
  try_except
    (attempt_segment env stage (get_prompt env stage)
       (Z.max (SEGMENT_SKIP_THRESHOLD env) 0) idx s history total_chars)
    (segment_failed idx) w1 = (r, w') ->
  exists evs,
    trace w' = trace w1 ++ evs /\
    ((count_text_length env (original_text s) < Z.max (SEGMENT_SKIP_THRESHOLD env) 0)%Z /\
     segments (live w') !! idx = Some (mark_title stage (clock w1) s) /\
     evs = [] /\ (exists hc, r = Ok hc)
     \/
     (Z.max (SEGMENT_SKIP_THRESHOLD env) 0 <= count_text_length env (original_text s))%Z /\
     ((exists e,
         segments (live w') !! idx =
           Some (seg_set_status SegFailed
                   (seg_set_stage stage (seg_set_status SegProcessing s))) /\
         evs = [EvGenerate idx stage (stage_input stage s) (Raised e)] /\
         r = Raised (abort_message idx (retry_message idx stage e)) /\
         failed_segment_index (session_obj (live w')) = Some (Z.of_nat idx) /\
         error_message (session_obj (live w')) = Some (retry_message idx stage e))
      \/
      (exists out s' evs',
         segments (live w') !! idx = Some s' /\
         stage_output stage s' = Some out /\
         evs = EvGenerate idx stage (stage_input stage s) (Ok out) :: evs' /\
         Forall quiet_event evs' /\
         (forall e, r = Raised e ->
            seg_status s' = SegFailed /\
            failed_segment_index (session_obj (live w')) = Some (Z.of_nat idx)) /\
         is_title s' = is_title s))).
Proof.
  intros Hs. unfold attempt_segment.
  destruct (Z.ltb_spec (count_text_length env (original_text s))
              (Z.max (SEGMENT_SKIP_THRESHOLD env) 0)) as [Hlt | Hge].
  - unfold try_except, bind, utcnow, modify_segment, commit, ret. simpl.
    intros [= <- <-]. exists []. split; [symmetry; apply app_nil_r |].
    left. split; [exact Hlt |]. simpl.
    rewrite list_lookup_alter_eq, Hs. eauto.
  - rewrite try_except_bind. unfold modify_segment at 1. cbv beta iota.
    rewrite try_except_bind. unfold commit at 1. cbv beta iota.
    rewrite try_except_bind, run_with_retry_call. cbv zeta. simpl ai_calls.
    destruct (ai_text env (ai_calls w1) stage (stage_input stage s)
                (get_prompt env stage) history) as [out | e] eqn:Hai.
    + match goal with
      | |- try_except _ _ ?w2 = _ -> _ =>
          assert (Hs2 : segments (live w2) !! idx =
                        Some (seg_set_stage stage (seg_set_status SegProcessing s)))
            by (simpl; rewrite list_lookup_alter_eq, Hs; reflexivity);
          destruct (after_reply stage idx s out history total_chars w2 Hs2)
            as (s' & evs' & Htr & Hq & Hrow & Hout & Hfail & Hflag)
      end.
      intros Heq. unfold exec, outcome in *. rewrite Heq in *. simpl in *.
      exists (EvGenerate idx stage (stage_input stage s) (Ok out) :: evs').
      split; [rewrite Htr, <- app_assoc; reflexivity |].
      right. split; [exact Hge |]. right. exists out, s', evs'. auto 10.
    + unfold segment_failed, bind, modify_segment, modify_run, commit, raise. simpl.
      intros [= <- <-]. simpl.
      exists [EvGenerate idx stage (stage_input stage s) (Raised e)].
      split; [reflexivity |]. right. split; [exact Hge |]. left. exists e.
      rewrite !list_lookup_alter_eq, Hs. simpl. auto.
Qed.

Lemma process_segment_step (stage : Stage) (n : nat) (idx : nat) (seg0 s : Segment)
    (history : list Turn) (total_chars : Z) (w : World)
    (r : Result (list Turn * Z)) (w' : World) :
  segments (live w) !! idx = Some s ->
  process_segment env stage (get_prompt env stage) n
    (Z.max (SEGMENT_SKIP_THRESHOLD env) 0) idx seg0 history total_chars w = (r, w') ->
  exists evs,
    trace w' = trace w ++ EvProgress idx (stage_progress stage idx n) :: evs /\
    segment_step env stage idx s w w' r evs.
Proof.
  intros Hs. unfold process_segment, current_segment.
  unfold bind at 1 2 3 4 5. unfold gets, modify_run, emit, commit. simpl.
  rewrite Hs. simpl.
  fold (progress_written stage n idx w).
  assert (Hs1 : segments (live (progress_written stage n idx w)) !! idx = Some s)
    by exact Hs.
  assert (Htr1 : forall evs w2, trace w2 = trace (progress_written stage n idx w) ++ evs ->
            trace w2 = trace w ++ EvProgress idx (stage_progress stage idx n) :: evs).
  { intros evs w2 ->. simpl. rewrite <- app_assoc. reflexivity. }
  assert (Hclock : clock (progress_written stage n idx w) = clock w) by reflexivity.
  assert (Hrows1 : segments (live (progress_written stage n idx w)) = segments (live w))
    by reflexivity.
  generalize dependent (progress_written stage n idx w). intros w1 Hs1 Htr1 Hclock Hrows1.
  assert (Hattempt :
    truthy (stage_output stage s) = false ->
    (stage = Enhance -> is_title s = false) ->
    try_except
      (attempt_segment env stage (get_prompt env stage)
         (Z.max (SEGMENT_SKIP_THRESHOLD env) 0) idx s history total_chars)
      (segment_failed idx) w1 = (r, w') ->
    exists evs,
      trace w' = trace w ++ EvProgress idx (stage_progress stage idx n) :: evs /\
      segment_step env stage idx s w w' r evs).
  { intros Hout Htitle Heq.
    destruct (attempt_segment_step stage idx s history total_chars w1 r w' Hs1 Heq)
      as (evs & Htr & [(Hlt & Hrow & Hevs & Hok)
                      | (Hge & [(e & Hrow & Hevs & Hr & Hfi & Hem)
                               | (out & s' & evs' & Hrow & Hso & Hevs & Hq & Hfail & Hflag)])]);
      exists evs; (split; [apply Htr1, Htr |]).
    - rewrite Hclock in Hrow. apply StepTitled; assumption.
    - eapply StepFailed; eassumption.
    - eapply StepGenerated; eassumption. }
  assert (Hskip :
    truthy (stage_output stage s) = true ->
    ret (history, total_chars) w1 = (r, w') ->
    exists evs,
      trace w' = trace w ++ EvProgress idx (stage_progress stage idx n) :: evs /\
      segment_step env stage idx s w w' r evs).
  { intros Hout [= <- <-]. exists []. split; [apply Htr1; symmetry; apply app_nil_r |].
    apply StepSkipped; eauto. }
  destruct stage; simpl.
  - destruct (truthy (polished_text s)) eqn:Ht; [apply Hskip | apply Hattempt];
      auto; discriminate.
  - destruct (truthy (polished_text s)) eqn:Ht; [apply Hskip | apply Hattempt];
      auto; discriminate.
  - destruct (truthy (enhanced_text s)) eqn:Ht; simpl.
    + rewrite andb_false_r. apply Hskip. exact Ht.
    + destruct (is_title s) eqn:Hti; simpl; [| apply Hattempt; auto].
      unfold bind, modify_segment, utcnow, ret. simpl.
      clear Hattempt Hskip.
      destruct (seg_completed_at s) as [t |] eqn:Hc; simpl;
        intros [= <- <-]; exists [];
        (split; [apply Htr1; symmetry; apply app_nil_r |]);
        apply StepTitleFilled; eauto; simpl;
        rewrite ?list_lookup_alter_eq, Hs1; simpl;
        unfold fill_title, seg_set_status, seg_set_enhanced, seg_set_completed_at;
        simpl; rewrite ?Hc, ?Hclock; reflexivity.
Qed.

End Iteration.

(** ** A run of the stage loop *)

Section Loop.

Variable env : Collaborators.

Lemma stage_loop_run (stage : Stage) (n : nat) (l : list Segment) :
  forall (k : nat) (history : list Turn) (total_chars : Z) (w : World)
         (r : Result unit) (w' : World),
    (l <> [] -> (k + length l <= length (segments (live w)))%nat) ->
    stage_loop env stage (get_prompt env stage) n (Z.max (SEGMENT_SKIP_THRESHOLD env) 0)
      (enumerate_from k l) history total_chars w = (r, w') ->
    exists evs, trace w' = trace w ++ evs /\ loop_run env stage n k l w r w' evs.
Proof.
  induction l as [| seg0 l IH]; intros k history total_chars w r w' Hlen.
  - simpl. intros [= <- <-]. exists []. split; [symmetry; apply app_nil_r | constructor].
  - specialize (Hlen ltac:(discriminate)). simpl in *. unfold bind.
    destruct (lookup_lt_is_Some_2 (segments (live w)) k ltac:(lia)) as [s Hs].
    pose proof (process_segment_rows env stage (get_prompt env stage) n
                  (Z.max (SEGMENT_SKIP_THRESHOLD env) 0) k seg0 history total_chars w)
      as Hrows.
    unfold exec in Hrows.
    destruct (process_segment env stage (get_prompt env stage) n
                (Z.max (SEGMENT_SKIP_THRESHOLD env) 0) k seg0 history total_chars w)
      as [[hc | e] w1] eqn:Hstep;
      destruct (process_segment_step env stage n k seg0 s history total_chars w _ _ Hs Hstep)
        as (evs & Htr & Hcase); simpl in Hrows.
    + intros Hrest.
      destruct (IH (S k) (fst hc) (snd hc) w1 r w') as (evs2 & Htr2 & Hrun).
      { intros _. destruct Hrows as [-> _]. lia. }
      { exact Hrest. }
      exists (EvProgress k (stage_progress stage k n) :: evs ++ evs2). split.
      * rewrite Htr2, Htr, <- app_assoc. reflexivity.
      * eapply RunNext; eassumption.
    + intros [= <- <-].
      exists (EvProgress k (stage_progress stage k n) :: evs). split; [exact Htr |].
      eapply RunAbort; eassumption.
Qed.

(** *** What the events of one iteration can be *)

Lemma quiet_no_call (i : nat) (evs : list Event) :
  Forall quiet_event evs -> Forall (no_call_for i) evs.
Proof.
  induction 1 as [| e evs He _ IH]; constructor; auto.
  destruct e; simpl in *; auto; contradiction.
Qed.

Lemma quiet_progress_writes (evs : list Event) :
  Forall quiet_event evs -> progress_writes evs = [].
Proof.
  induction 1 as [| e evs He _ IH]; [reflexivity |].
  destruct e; simpl in *; auto; contradiction.
Qed.

Lemma segment_step_progress (stage : Stage) (k : nat) (s : Segment) (w w' : World)
    (r : Result (list Turn * Z)) (evs : list Event) :
  segment_step env stage k s w w' r evs -> progress_writes evs = [].
Proof.
  intros [? ? -> ? | ? ? ? ? -> ? | ? ? ? ? -> ? | e ? ? ? ? -> ? ? ?
         | out s' evs' ? ? ? ? ? -> Hq ?]; try reflexivity.
  simpl. apply quiet_progress_writes, Hq.
Qed.

Lemma segment_step_other_calls (i : nat) (stage : Stage) (k : nat) (s : Segment)
    (w w' : World) (r : Result (list Turn * Z)) (evs : list Event) :
  k <> i -> segment_step env stage k s w w' r evs -> Forall (no_call_for i) evs.
Proof.
  intros Hne [? ? -> ? | ? ? ? ? -> ? | ? ? ? ? -> ? | e ? ? ? ? -> ? ? ?
             | out s' evs' ? ? ? ? ? -> Hq ?]; repeat constructor; auto.
  apply quiet_no_call, Hq.
Qed.

Lemma calls_for_app (i : nat) (e1 e2 : list Event) :
  calls_for i (e1 ++ e2) = (calls_for i e1 + calls_for i e2)%nat.
Proof.
  unfold calls_for, generate_calls. rewrite omap_app, filter_app, length_app. reflexivity.
Qed.

Lemma no_call_calls_for (i : nat) (evs : list Event) :
  Forall (no_call_for i) evs -> calls_for i evs = 0%nat.
Proof.
  induction 1 as [| e evs He _ IH]; [reflexivity |].
  change (e :: evs) with ([e] ++ evs). rewrite calls_for_app, IH.
  destruct e; try reflexivity. simpl in He. unfold calls_for. simpl.
  rewrite filter_cons, decide_False by exact He. reflexivity.
Qed.

Lemma segment_step_calls (i : nat) (stage : Stage) (k : nat) (s : Segment)
    (w w' : World) (r : Result (list Turn * Z)) (evs : list Event) :
  segment_step env stage k s w w' r evs -> (calls_for i evs <= 1)%nat.
Proof.
  intros [? ? -> ? | ? ? ? ? -> ? | ? ? ? ? -> ? | e ? ? ? ? -> ? ? ?
         | out s' evs' ? ? ? ? ? -> Hq ?]; try (unfold calls_for; simpl; lia).
  - unfold calls_for. simpl. rewrite filter_cons. destruct (decide _); simpl; lia.
  - change (EvGenerate k stage (stage_input stage s) (Ok out) :: evs')
      with ([EvGenerate k stage (stage_input stage s) (Ok out)] ++ evs').
    rewrite calls_for_app, (no_call_calls_for i evs') by (apply quiet_no_call, Hq).
    unfold calls_for. simpl. rewrite filter_cons. destruct (decide _); simpl; lia.
Qed.

(** *** Facts about a run of the loop *)

(** rows before the start of the loop, or past its end, are not touched *)
Lemma loop_run_rows (stage : Stage) (n k : nat) (l : list Segment) (w : World)
    (r : Result unit) (w' : World) (evs : list Event) :
  loop_run env stage n k l w r w' evs ->
  length (segments (live w')) = length (segments (live w)) /\
  forall j, (j < k \/ k + length l <= j)%nat ->
    segments (live w') !! j = segments (live w) !! j.
Proof.
  induction 1 as [k w | k seg0 l s w w1 hc evs r w2 evs2 Hs [Hl Hk] Hstep Hrun [IHl IHr]
                 | k seg0 l s w w1 e evs Hs [Hl Hk] Hstep].
  - auto.
  - split; [congruence |]. intros j Hj. simpl in Hj.
    rewrite IHr by lia. apply Hk. lia.
  - split; [exact Hl |]. intros j Hj. simpl in Hj. apply Hk. lia.
Qed.

(** the loop calls the collaborator only for rows it steps through *)
Lemma loop_run_calls_before (i : nat) (stage : Stage) (n k : nat) (l : list Segment)
    (w : World) (r : Result unit) (w' : World) (evs : list Event) :
  loop_run env stage n k l w r w' evs -> (i < k)%nat -> Forall (no_call_for i) evs.
Proof.
  induction 1 as [k w | k seg0 l s w w1 hc evs r w2 evs2 Hs Hrows Hstep Hrun IH
                 | k seg0 l s w w1 e evs Hs Hrows Hstep]; intros Hi.
  - constructor.
  - constructor; [exact I |]. apply Forall_app. split.
    + eapply segment_step_other_calls; [| exact Hstep]. lia.
    + apply IH. lia.
  - constructor; [exact I |].
    eapply segment_step_other_calls; [| exact Hstep]. lia.
Qed.

End Loop.

Section LoopFacts.

Variable env : Collaborators.

(** a populated row is stepped over: it is left as it is and no call is
    made for it *)
Lemma loop_run_skip (i : nat) (s : Segment) (stage : Stage) (n k : nat)
    (l : list Segment) (w : World) (r : Result unit) (w' : World) (evs : list Event) :
  loop_run env stage n k l w r w' evs ->
  segments (live w) !! i = Some s ->
  truthy (stage_output stage s) = true ->
  segments (live w') !! i = Some s /\ Forall (no_call_for i) evs.
Proof.
  induction 1 as [k w | k seg0 l s0 w w1 hc evs r w2 evs2 Hs [Hl Hk] Hstep Hrun IH
                 | k seg0 l s0 w w1 e evs Hs [Hl Hk] Hstep]; intros Hi Ht.
  - split; [exact Hi | constructor].
  - destruct (decide (k = i)) as [-> | Hne].
    + assert (s0 = s) as -> by congruence.
      destruct Hstep as [_ Hsame -> _ | -> _ Hf | Hf | e Hf | out s' evs' Hf];
        try (unfold stage_output in *; simpl in *; congruence).
      destruct IH as [IH1 IH2]; [rewrite Hsame; exact Hi | exact Ht |].
      split; [exact IH1 |]. constructor; [exact I | exact IH2].
    + destruct IH as [IH1 IH2]; [rewrite Hk by auto; exact Hi | exact Ht |].
      split; [exact IH1 |]. constructor; [exact I |]. apply Forall_app. split; [| exact IH2].
      eapply segment_step_other_calls; eassumption.
  - destruct (decide (k = i)) as [-> | Hne].
    + assert (s0 = s) as -> by congruence.
      destruct Hstep as [_ Hsame -> [hc Hr] | -> _ Hf | Hf | e' Hf | out s' evs' Hf];
        try (unfold stage_output in *; simpl in *; congruence).
    + split; [rewrite Hk by auto; exact Hi |]. constructor; [exact I |].
      eapply segment_step_other_calls; eassumption.
Qed.

(** at most one call per row in a run of the loop *)
Lemma loop_run_once (i : nat) (stage : Stage) (n k : nat) (l : list Segment)
    (w : World) (r : Result unit) (w' : World) (evs : list Event) :
  loop_run env stage n k l w r w' evs -> (calls_for i evs <= 1)%nat.
Proof.
  induction 1 as [k w | k seg0 l s0 w w1 hc evs r w2 evs2 Hs Hrows Hstep Hrun IH
                 | k seg0 l s0 w w1 e evs Hs Hrows Hstep].
  - unfold calls_for. simpl. lia.
  - change (EvProgress k (stage_progress stage k n) :: evs ++ evs2)
      with ([EvProgress k (stage_progress stage k n)] ++ evs ++ evs2).
    rewrite !calls_for_app. change (calls_for i [EvProgress k _]) with 0%nat.
    destruct (decide (k = i)) as [-> | Hne].
    + rewrite (no_call_calls_for i evs2)
        by (eapply loop_run_calls_before; [exact Hrun | lia]).
      pose proof (segment_step_calls env i _ _ _ _ _ _ _ Hstep). lia.
    + rewrite (no_call_calls_for i evs)
        by (eapply segment_step_other_calls; eassumption).
      lia.
  - change (EvProgress k (stage_progress stage k n) :: evs)
      with ([EvProgress k (stage_progress stage k n)] ++ evs).
    rewrite calls_for_app. change (calls_for i [EvProgress k _]) with 0%nat.
    pose proof (segment_step_calls env i _ _ _ _ _ _ _ Hstep). lia.
Qed.

Lemma quiet_not_generate (evs : list Event) (i : nat) (st : Stage)
    (input : option string) (reply : Result string) :
  Forall quiet_event evs -> ~ In (EvGenerate i st input reply) evs.
Proof.
  intros Hq Hin. rewrite Forall_forall in Hq.
  apply list_elem_of_In, Hq in Hin. exact Hin.
Qed.

(** a generative event of one iteration is for its row and its stage *)
Lemma segment_step_generate (stage : Stage) (k : nat) (s : Segment) (w w' : World)
    (r : Result (list Turn * Z)) (evs : list Event) (i : nat) (st : Stage)
    (input : option string) (reply : Result string) :
  segment_step env stage k s w w' r evs ->
  In (EvGenerate i st input reply) evs ->
  i = k /\ st = stage /\ input = stage_input stage s /\
  match reply with
  | Ok out =>
      exists s', segments (live w') !! k = Some s' /\ stage_output stage s' = Some out
  | Raised e =>
      r = Raised (abort_message k (retry_message k stage e)) /\
      segments (live w') !! k =
        Some (seg_set_status SegFailed (seg_set_stage stage (seg_set_status SegProcessing s))) /\
      failed_segment_index (session_obj (live w')) = Some (Z.of_nat k) /\
      error_message (session_obj (live w')) = Some (retry_message k stage e) /\
      evs = [EvGenerate k stage (stage_input stage s) (Raised e)]
  end.
Proof.
  intros [? ? -> ? | ? ? ? ? -> ? | ? ? ? ? -> ? | e ? ? ? Hrow -> Hr Hfi Hem
         | out s' evs' ? ? ? Hrow Hout -> Hq ?]; simpl; try contradiction.
  - intros [[= <- <- <- <-] | []]. auto 10.
  - intros [[= <- <- <- <-] | Hin]; [eauto 10 |].
    exfalso. eapply quiet_not_generate; eassumption.
Qed.

(** a reply that arrived is in the output column when the loop ends *)
Lemma loop_run_generated (stage : Stage) (n k : nat) (l : list Segment) (w : World)
    (r : Result unit) (w' : World) (evs : list Event) (i : nat) (st : Stage)
    (input : option string) (out : string) :
  loop_run env stage n k l w r w' evs ->
  In (EvGenerate i st input (Ok out)) evs ->
  st = stage /\ (k <= i)%nat /\
  exists s', segments (live w') !! i = Some s' /\ stage_output stage s' = Some out.
Proof.
  induction 1 as [k w | k seg0 l s0 w w1 hc evs r w2 evs2 Hs Hrows Hstep Hrun IH
                 | k seg0 l s0 w w1 e evs Hs Hrows Hstep]; simpl.
  - contradiction.
  - intros [[=] | Hin]. apply in_app_or in Hin as [Hin | Hin].
    + destruct (segment_step_generate _ _ _ _ _ _ _ _ _ _ _ Hstep Hin)
        as (-> & -> & _ & s' & Hrow & Hout).
      split; [reflexivity |]. split; [lia |]. exists s'. split; [| exact Hout].
      destruct (loop_run_rows env _ _ _ _ _ _ _ _ Hrun) as [_ Hframe].
      rewrite Hframe by lia. exact Hrow.
    + destruct (IH Hin) as (-> & Hle & Hex). split; [reflexivity |]. split; [lia | exact Hex].
  - intros [[=] | Hin].
    destruct (segment_step_generate _ _ _ _ _ _ _ _ _ _ _ Hstep Hin)
      as (-> & -> & _ & s' & Hrow & Hout).
    split; [reflexivity |]. split; [lia |]. exists s'. auto.
Qed.

(** a call that raised ends the loop at its row *)
Lemma loop_run_failed (stage : Stage) (n k : nat) (l : list Segment) (w : World)
    (r : Result unit) (w' : World) (evs : list Event) (i : nat) (st : Stage)
    (input : option string) (e : string) :
  loop_run env stage n k l w r w' evs ->
  In (EvGenerate i st input (Raised e)) evs ->
  st = stage /\ (k <= i)%nat /\
  r = Raised (abort_message i (retry_message i stage e)) /\
  (exists s', segments (live w') !! i = Some s' /\ seg_status s' = SegFailed) /\
  failed_segment_index (session_obj (live w')) = Some (Z.of_nat i) /\
  error_message (session_obj (live w')) = Some (retry_message i stage e) /\
  calls_for i evs = 1%nat /\
  exists before, evs = before ++ [EvGenerate i stage input (Raised e)].
Proof.
  induction 1 as [k w | k seg0 l s0 w w1 hc evs r w2 evs2 Hs Hrows Hstep Hrun IH
                 | k seg0 l s0 w w1 e0 evs Hs Hrows Hstep]; simpl.
  - contradiction.
  - intros [[=] | Hin]. apply in_app_or in Hin as [Hin | Hin].
    + destruct (segment_step_generate _ _ _ _ _ _ _ _ _ _ _ Hstep Hin)
        as (_ & _ & _ & [=] & _).
    + destruct (IH Hin) as (-> & Hle & Hr & Hrow & Hfi & Hem & Hcalls & before & ->).
      split; [reflexivity |]. split; [lia |]. repeat (split; [assumption |]).
      split.
      * change (EvProgress k (stage_progress stage k n)
                  :: evs ++ before ++ [EvGenerate i stage input (Raised e)])
          with ([EvProgress k (stage_progress stage k n)]
                  ++ evs ++ before ++ [EvGenerate i stage input (Raised e)]).
        rewrite calls_for_app, (calls_for_app i evs), Hcalls.
        change (calls_for i [EvProgress k _]) with 0%nat.
        rewrite (no_call_calls_for i evs); [reflexivity |].
        eapply segment_step_other_calls; [| exact Hstep]. lia.
      * exists (EvProgress k (stage_progress stage k n) :: evs ++ before).
        simpl. rewrite <- app_assoc. reflexivity.
  - intros [[=] | Hin].
    destruct (segment_step_generate _ _ _ _ _ _ _ _ _ _ _ Hstep Hin)
      as (-> & -> & -> & Hr & Hrow & Hfi & Hem & ->).
    injection Hr as ->.
    split; [reflexivity |]. split; [lia |]. split; [reflexivity |].
    split; [eexists; split; [exact Hrow | reflexivity] |].
    split; [exact Hfi |]. split; [exact Hem |].
    split; [| exists [EvProgress k (stage_progress stage k n)]; reflexivity].
    unfold calls_for. simpl. rewrite filter_cons, decide_True by reflexivity. reflexivity.
Qed.

End LoopFacts.

Section LoopProgress.

Variable env : Collaborators.

Lemma progress_writes_app (e1 e2 : list Event) :
  progress_writes (e1 ++ e2) = progress_writes e1 ++ progress_writes e2.
Proof. apply omap_app. Qed.

(** the rows stepped through are consecutive from the start of the loop:
    all of them when the loop returns, at least the first otherwise *)
Lemma loop_run_progress (stage : Stage) (n k : nat) (l : list Segment) (w : World)
    (r : Result unit) (w' : World) (evs : list Event) :
  loop_run env stage n k l w r w' evs ->
  exists m, (m <= length l)%nat /\
    progress_writes evs = map (progress_at stage n) (seq k m) /\
    (r = Ok tt -> m = length l) /\ (l <> [] -> (1 <= m)%nat).
Proof.
  induction 1 as [k w | k seg0 l s0 w w1 hc evs r w2 evs2 Hs Hrows Hstep Hrun IH
                 | k seg0 l s0 w w1 e evs Hs Hrows Hstep].
  - exists 0%nat. simpl. repeat split; auto. congruence.
  - destruct IH as (m & Hm & Hp & Hok & _). exists (S m). simpl.
    split; [lia |]. split.
    + rewrite progress_writes_app, (segment_step_progress env _ _ _ _ _ _ _ Hstep), Hp.
      reflexivity.
    + split; [intros Hr; f_equal; auto | lia].
  - exists 1%nat. simpl. split; [lia |]. split.
    + rewrite (segment_step_progress env _ _ _ _ _ _ _ Hstep). reflexivity.
    + split; [discriminate | lia].
Qed.

(** the step taken for a row the loop reached *)
Lemma loop_run_visit (i : nat) (s : Segment) (stage : Stage) (n k : nat)
    (l : list Segment) (w : World) (r : Result unit) (w' : World) (evs : list Event) :
  loop_run env stage n k l w r w' evs ->
  segments (live w) !! i = Some s ->
  In i (map fst (progress_writes evs)) ->
  exists w0 w1 r1 evs1,
    segment_step env stage i s w0 w1 r1 evs1 /\
    segments (live w') !! i = segments (live w1) !! i /\
    calls_for i evs = calls_for i evs1.
Proof.
  induction 1 as [k w | k seg0 l s0 w w1 hc evs r w2 evs2 Hs [Hl Hk] Hstep Hrun IH
                 | k seg0 l s0 w w1 e evs Hs [Hl Hk] Hstep]; intros Hi Hin.
  - contradiction.
  - change (EvProgress k (stage_progress stage k n) :: evs ++ evs2)
      with ([EvProgress k (stage_progress stage k n)] ++ evs ++ evs2).
    rewrite !calls_for_app. change (calls_for i [EvProgress k _]) with 0%nat.
    destruct (decide (k = i)) as [-> | Hne].
    + assert (s0 = s) as -> by congruence.
      exists w, w1, (Ok hc), evs. split; [exact Hstep |]. split.
      * destruct (loop_run_rows env _ _ _ _ _ _ _ _ Hrun) as [_ Hframe].
        apply Hframe. lia.
      * rewrite (no_call_calls_for i evs2)
          by (eapply loop_run_calls_before; [exact Hrun | lia]).
        lia.
    + simpl in Hin. rewrite progress_writes_app in Hin.
      rewrite (segment_step_progress env _ _ _ _ _ _ _ Hstep) in Hin. simpl in Hin.
      destruct Hin as [Hin | Hin]; [contradiction |].
      destruct IH as (w0 & w1' & r1 & evs1 & Hst & Hrow & Hcalls);
        [rewrite Hk by auto; exact Hi | exact Hin |].
      exists w0, w1', r1, evs1. split; [exact Hst |]. split; [exact Hrow |].
      rewrite (no_call_calls_for i evs)
        by (eapply segment_step_other_calls; eassumption).
      exact Hcalls.
  - simpl in Hin. rewrite (segment_step_progress env _ _ _ _ _ _ _ Hstep) in Hin.
    simpl in Hin. destruct Hin as [<- | []].
    assert (s0 = s) as -> by congruence.
    exists w, w1, (Raised e), evs. split; [exact Hstep |]. split; [reflexivity |].
    change (EvProgress k (stage_progress stage k n) :: evs)
      with ([EvProgress k (stage_progress stage k n)] ++ evs).
    rewrite calls_for_app. reflexivity.
Qed.

(** a short row without output that the loop reaches becomes a title *)
Lemma loop_run_titled (i : nat) (s : Segment) (stage : Stage) (n k : nat)
    (l : list Segment) (w : World) (r : Result unit) (w' : World) (evs : list Event) :
  loop_run env stage n k l w r w' evs ->
  segments (live w) !! i = Some s ->
  In i (map fst (progress_writes evs)) ->
  truthy (stage_output stage s) = false ->
  (stage = Enhance -> is_title s = false) ->
  (count_text_length env (original_text s) < Z.max (SEGMENT_SKIP_THRESHOLD env) 0)%Z ->
  (exists now, segments (live w') !! i = Some (mark_title stage now s)) /\
  calls_for i evs = 0%nat.
Proof.
  intros Hrun Hi Hin Hf Hnt Hshort.
  destruct (loop_run_visit i s _ _ _ _ _ _ _ _ Hrun Hi Hin)
    as (w0 & w1 & r1 & evs1 & Hstep & -> & ->).
  destruct Hstep as [Ht | He Ht | _ _ _ Hrow -> _ | e _ _ Hge | out s' evs' _ _ Hge].
  - congruence.
  - rewrite (Hnt He) in Ht. discriminate.
  - split; [eauto | reflexivity].
  - lia.
  - lia.
Qed.

(** a title without enhanced text that the enhance loop reaches is filled
    from its polished text or else its original text *)
Lemma loop_run_title_filled (i : nat) (s : Segment) (n k : nat)
    (l : list Segment) (w : World) (r : Result unit) (w' : World) (evs : list Event) :
  loop_run env Enhance n k l w r w' evs ->
  segments (live w) !! i = Some s ->
  In i (map fst (progress_writes evs)) ->
  truthy (enhanced_text s) = false ->
  is_title s = true ->
  (exists now, segments (live w') !! i = Some (fill_title now s)) /\
  calls_for i evs = 0%nat.
Proof.
  intros Hrun Hi Hin Hf Hti.
  destruct (loop_run_visit i s _ _ _ _ _ _ _ _ Hrun Hi Hin)
    as (w0 & w1 & r1 & evs1 & Hstep & -> & ->).
  destruct Hstep as [Ht | _ _ _ Hrow -> _ | _ Hnt | e _ Hnt | out s' evs' _ Hnt];
    try (rewrite (Hnt eq_refl) in Hti; discriminate).
  - unfold stage_output in Ht. simpl in Ht. congruence.
  - split; [eauto | reflexivity].
Qed.

End LoopProgress.

(** ** The progress formula *)

Lemma stage_progress_bounds (stage : Stage) (n j : nat) :
  (j < n)%nat -> (0 <= stage_progress stage j n /\ stage_progress stage j n < 100)%Q.
Proof.
  intros Hj. unfold stage_progress.
  assert (Hn : (0 < inject_Z (Z.of_nat n))%Q).
  { change 0%Q with (inject_Z 0). rewrite <- Zlt_Qlt. lia. }
  assert (Hj0 : (0 <= inject_Z (Z.of_nat j))%Q).
  { change 0%Q with (inject_Z 0). rewrite <- Zle_Qle. lia. }
  assert (Hjn : (inject_Z (Z.of_nat j) + 1 <= inject_Z (Z.of_nat n))%Q).
  { change 1%Q with (inject_Z 1). rewrite <- inject_Z_plus, <- Zle_Qle. lia. }
  set (x := (inject_Z (Z.of_nat j) + (if is_enhance stage then 1 # 2 else 0))%Q).
  assert (Hx0 : (0 <= x)%Q) by (subst x; destruct (is_enhance stage); lra).
  assert (Hx1 : (x < inject_Z (Z.of_nat n))%Q) by (subst x; destruct (is_enhance stage); lra).
  split.
  - apply Qmult_le_0_compat; [| lra]. apply Qle_shift_div_l; [exact Hn | lra].
  - assert (x / inject_Z (Z.of_nat n) < 1)%Q by (apply Qlt_shift_div_r; [exact Hn | lra]).
    lra.
Qed.

Lemma stage_progress_mono (stage : Stage) (n i j : nat) :
  (i <= j)%nat -> (stage_progress stage i n <= stage_progress stage j n)%Q.
Proof.
  intros Hij. unfold stage_progress.
  assert (Hn : (0 <= / inject_Z (Z.of_nat n))%Q).
  { apply Qinv_le_0_compat. change 0%Q with (inject_Z 0). rewrite <- Zle_Qle. lia. }
  assert (Hi : (inject_Z (Z.of_nat i) <= inject_Z (Z.of_nat j))%Q)
    by (rewrite <- Zle_Qle; lia).
  unfold Qdiv. apply Qmult_le_compat_r; [| lra].
  apply Qmult_le_compat_r; [| exact Hn]. lra.
Qed.

(** ** Steps that return, and what a returning step keeps *)

#[global] Instance keeps_preorder {A} (f : World -> A) : PreOrder (keeps f).
Proof.
  split.
  - intros w. reflexivity.
  - intros w1 w2 w3 H1 H2. unfold keeps in *. congruence.
Qed.

Ltac keeps_leaf := prim_exec; reflexivity.

Section ReturningSteps.

Context (R : World -> World -> Prop) {HR : PreOrder R}.

Lemma preserves_ok_weaken {A} (m : M A) : preserves R m -> preserves_ok R m.
Proof. intros H w a _. apply H. Qed.

Lemma preserves_ok_bind {A B} (m : M A) (k : A -> M B) :
  preserves_ok R m -> (forall a, preserves_ok R (k a)) -> preserves_ok R (bind m k).
Proof.
  intros Hm Hk w b. specialize (Hm w). unfold outcome, exec, bind in *.
  destruct (m w) as [[a | e] w1]; simpl in *; [| discriminate].
  intros Hb. etransitivity; [eapply Hm; reflexivity | eapply Hk; exact Hb].
Qed.

Lemma preserves_ok_try_except {A} (m : M A) (h : string -> M A) :
  preserves_ok R m -> (forall e, fails (h e)) -> preserves_ok R (try_except m h).
Proof.
  intros Hm Hh w a. specialize (Hm w). unfold outcome, exec, try_except in *.
  destruct (m w) as [[a' | e] w1]; simpl in *.
  - intros _. eapply Hm. reflexivity.
  - intros Hb. exfalso. exact (Hh e w1 a Hb).
Qed.

End ReturningSteps.

Ltac pres_ok_step leaf :=
  lazymatch goal with
  | |- preserves_ok _ (bind _ _) =>
      apply preserves_ok_bind; [typeclasses eauto | | intros ?]
  | |- preserves_ok _ (try_except _ _) =>
      apply preserves_ok_try_except; [| intros ?; solve [eauto]]
  | |- preserves_ok _ (if ?b then _ else _) => destruct b
  | |- preserves_ok _ (match ?x with _ => _ end) => destruct x
  | |- _ => first [ solve [apply preserves_ok_weaken; pres leaf]
                  | solve [eauto]
                  | progress unfold attempt_segment, process_segment, process_stage,
                      run_stages; cbv zeta ]
  end.

Section Checkpoint.

Variable env : Collaborators.

Lemma segment_failed_fails (idx : nat) (e : string) : fails (segment_failed idx e).
Proof. intros w a. unfold outcome, segment_failed, bind, raise. simpl. discriminate. Qed.

(** an iteration that returns leaves the checkpoint as it found it *)
Lemma process_segment_keeps_checkpoint (stage : Stage) (prompt : string) (n : nat)
    (thr : Z) (idx : nat) (seg0 : Segment) (history : list Turn) (total_chars : Z) :
  preserves_ok (keeps checkpoint)
    (process_segment env stage prompt n thr idx seg0 history total_chars).
Proof.
  pose proof segment_failed_fails.
  repeat pres_ok_step keeps_leaf.
Qed.

Lemma stage_loop_keeps_checkpoint (stage : Stage) (prompt : string) (n : nat) (thr : Z)
    (items : list (nat * Segment)) :
  forall history total_chars,
    preserves_ok (keeps checkpoint)
      (stage_loop env stage prompt n thr items history total_chars).
Proof.
  induction items as [| [idx seg0] items IH]; intros history total_chars; simpl.
  - apply preserves_ok_weaken. pres keeps_leaf.
  - apply preserves_ok_bind; [typeclasses eauto | | intros hc; apply IH].
    apply process_segment_keeps_checkpoint.
Qed.

(** a stage that returns leaves the checkpoint as it found it *)
Lemma process_stage_keeps_checkpoint (stage : Stage) :
  preserves_ok (keeps checkpoint) (process_stage env stage).
Proof.
  pose proof stage_loop_keeps_checkpoint.
  repeat pres_ok_step keeps_leaf.
Qed.

End Checkpoint.

(** ** One stage *)

Section StageFacts.

Variable env : Collaborators.

Lemma events_of_trace {A} (m : M A) (w : World) (evs : list Event) :
  trace (exec m w) = trace w ++ evs -> events_of m w = evs.
Proof. intros H. unfold events_of. rewrite H. apply drop_app_length. Qed.

(** the stage is a run of the loop over the rows from the resume index on *)
Lemma process_stage_run (stage : Stage) (w : World) :
  let m := process_stage env stage in
  let segs := segments (live w) in
  let start := resume_index (checkpoint w) in
  exists w0 evs,
    segments (live w0) = segs /\
    trace (exec m w) = trace w ++ EvStage stage start :: evs /\
    events_of m w = EvStage stage start :: evs /\
    loop_run env stage (length segs) start (drop start segs) w0 (outcome m w) (exec m w) evs.
Proof.
  intros m segs start. subst m. unfold outcome, exec.
  destruct (process_stage env stage w) as [r w'] eqn:Hrun.
  pose proof Hrun as Heq.
  unfold process_stage, bind, modify_run, commit, gets, emit in Hrun. simpl in Hrun.
  fold segs in Hrun. fold (checkpoint w) in Hrun. fold start in Hrun.
  apply stage_loop_run in Hrun.
  - destruct Hrun as (evs & Htr & Hloop). simpl in Htr.
    assert (Htr' : trace (exec (process_stage env stage) w) =
                   trace w ++ EvStage stage start :: evs).
    { unfold exec. rewrite Heq. simpl. rewrite Htr, <- app_assoc. reflexivity. }
    match type of Hloop with
    | loop_run _ _ _ _ _ ?w0 _ _ _ => exists w0, evs
    end.
    split; [reflexivity |]. unfold exec in Htr'. rewrite Heq in Htr'.
    split; [exact Htr' |]. split; [| exact Hloop].
    apply events_of_trace. unfold exec. rewrite Heq. exact Htr'.
  - simpl. fold segs. intros Hne. rewrite length_drop.
    destruct (Nat.le_gt_cases (length segs) start) as [Hle | Hgt]; [| lia].
    exfalso. apply Hne. apply drop_ge. exact Hle.
Qed.

End StageFacts.

Section StageClaims.

Variable env : Collaborators.

Lemma process_stage_skip (stage : Stage) (w : World) (i : nat) (s : Segment) :
  segments (live w) !! i = Some s ->
  truthy (stage_output stage s) = true ->
  segments (live (exec (process_stage env stage) w)) !! i = Some s /\
  calls_for i (events_of (process_stage env stage) w) = 0%nat.
Proof.
  intros Hi Ht.
  destruct (process_stage_run env stage w) as (w0 & evs & Hsegs & _ & -> & Hrun).
  destruct (loop_run_skip env i s _ _ _ _ _ _ _ _ Hrun) as [Hrow Hno];
    [rewrite Hsegs; exact Hi | exact Ht |].
  split; [exact Hrow |].
  apply no_call_calls_for. constructor; [exact I | exact Hno].
Qed.

Lemma process_stage_once (stage : Stage) (w : World) (j : nat) :
  (calls_for j (events_of (process_stage env stage) w) <= 1)%nat.
Proof.
  destruct (process_stage_run env stage w) as (w0 & evs & Hsegs & _ & -> & Hrun).
  change (EvStage stage (resume_index (checkpoint w)) :: evs)
    with ([EvStage stage (resume_index (checkpoint w))] ++ evs).
  rewrite calls_for_app. change (calls_for j [EvStage _ _]) with 0%nat.
  apply (loop_run_once env j _ _ _ _ _ _ _ _ Hrun).
Qed.



(** the rows a stage steps through: consecutive from the resume index,
    to the last row when the stage returns *)
Lemma process_stage_visits (stage : Stage) (w : World) :
  let m := process_stage env stage in
  let start := resume_index (checkpoint w) in
  let n := length (segments (live w)) in
  exists c, (c <= n - start)%nat /\
    progress_writes (events_of m w) = map (progress_at stage n) (seq start c) /\
    (outcome m w = Ok tt -> c = (n - start)%nat) /\
    (start < n -> 1 <= c)%nat.
Proof.
  intros m start n. subst m.
  destruct (process_stage_run env stage w) as (w0 & evs & Hsegs & _ & -> & Hrun).
  destruct (loop_run_progress env _ _ _ _ _ _ _ _ Hrun) as (c & Hc & Hp & Hok & Hne).
  rewrite length_drop in Hc, Hok. fold start n in Hc, Hok. exists c.
  split; [exact Hc |]. split; [exact Hp |]. split; [exact Hok |].
  intros Hlt. apply Hne. intros Hnil.
  apply (f_equal length) in Hnil. rewrite length_drop in Hnil. simpl in Hnil.
  fold start n in Hnil. lia.
Qed.

Lemma process_stage_titled (stage : Stage) (w : World) (i : nat) (s : Segment) :
  let m := process_stage env stage in
  segments (live w) !! i = Some s ->
  In i (map fst (progress_writes (events_of m w))) ->
  truthy (stage_output stage s) = false ->
  (stage = Enhance -> is_title s = false) ->
  (count_text_length env (original_text s) < Z.max (SEGMENT_SKIP_THRESHOLD env) 0)%Z ->
  (exists now, segments (live (exec m w)) !! i = Some (mark_title stage now s)) /\
  calls_for i (events_of m w) = 0%nat.
Proof.
  intros m. subst m.
  destruct (process_stage_run env stage w) as (w0 & evs & Hsegs & _ & -> & Hrun).
  intros Hi Hin Hf Hnt Hshort. rewrite <- Hsegs in Hi.
  exact (loop_run_titled env i s _ _ _ _ _ _ _ _ Hrun Hi Hin Hf Hnt Hshort).
Qed.

Lemma process_stage_title_filled (w : World) (i : nat) (s : Segment) :
  let m := process_stage env Enhance in
  segments (live w) !! i = Some s ->
  In i (map fst (progress_writes (events_of m w))) ->
  truthy (enhanced_text s) = false ->
  is_title s = true ->
  (exists now, segments (live (exec m w)) !! i = Some (fill_title now s)) /\
  calls_for i (events_of m w) = 0%nat.
Proof.
  intros m. subst m.
  destruct (process_stage_run env Enhance w) as (w0 & evs & Hsegs & _ & -> & Hrun).
  intros Hi Hin Hf Hti. rewrite <- Hsegs in Hi.
  exact (loop_run_title_filled env i s _ _ _ _ _ _ _ Hrun Hi Hin Hf Hti).
Qed.

End StageClaims.

Lemma rerun_stage_keeps_row (stage : Stage) (envs : list Collaborators) :
  forall (w : World) (i : nat) (s : Segment),
    segments (live w) !! i = Some s ->
    truthy (stage_output stage s) = true ->
    segments (live (rerun_stage stage envs w)) !! i = Some s.
Proof.
  induction envs as [| env envs IH]; intros w i s Hi Ht; simpl; [exact Hi |].
  apply IH; [| exact Ht]. apply process_stage_skip; assumption.
Qed.

(** ** The phases of a run *)

Section Phases.

Variable env : Collaborators.

Lemma length_enumerate_from {A} (l : list A) : forall k, length (enumerate_from k l) = length l.
Proof. induction l as [| x l IH]; intros k; simpl; [reflexivity | rewrite IH; reflexivity]. Qed.

Lemma wait_until_active_exec (polls : nat) : forall w,
  wait_until_active polls w =
    (Ok tt, mkWorld (live w) (durable w) (clock w) (ai_calls w) (compress_calls w)
              (trace w ++ poll_events polls)).
Proof.
  induction polls as [| k IH]; intros w; [reflexivity |].
  simpl. unfold bind, emit. rewrite IH. simpl. unfold poll_events. simpl.
  rewrite <- app_assoc. reflexivity.
Qed.

Lemma prepare_exec (w : World) : prepare env w = (Ok tt, prepared env w).
Proof.
  unfold prepare, reset_error_state, await_admission, materialize_segments,
    set_run_status, bind, modify_run, commit, emit, gets, add_segments.
  unfold prepared, admission_events.
  destruct (gate_acquire env); simpl; rewrite ?wait_until_active_exec; simpl;
    unfold store_upd_segments, store_upd_run; simpl;
    destruct (segments (live w)) as [| s0 l] eqn:Hsegs; simpl;
    rewrite ?Hsegs; unfold new_segments; simpl;
    rewrite ?length_map, ?length_enumerate_from, <- ?app_assoc; reflexivity.
Qed.

(** a run is its preparation, the stages of its mode, and its conclusion,
    with the gate released last *)
Lemma run_after_setup_phases (w : World) :
  let w3 := prepared env w in
  let rs := run_stages env (effective_mode (session_obj (live w3))) w3 in
  run_after_setup env w =
    (fst rs, exec (emit EvGateRelease) (exec (conclude (fst rs)) (snd rs))).
Proof.
  intros w3 rs.
  assert (Hbody : body_after_setup env w =
                  bind (run_stages env (effective_mode (session_obj (live w3))))
                    (fun _ => mark_completed) w3).
  { pose proof (prepare_exec w) as Hp. fold w3 in Hp.
    unfold prepare, bind in Hp. unfold body_after_setup, bind, gets.
    destruct (reset_error_state w) as [[[] | e] w1]; [| discriminate].
    destruct (await_admission env w1) as [[[] | e] w2]; [| discriminate].
    destruct (materialize_segments env w2) as [[[] | e] w3']; [| discriminate].
    injection Hp as ->. reflexivity. }
  unfold run_after_setup, try_finally, try_except. rewrite Hbody.
  unfold bind. fold rs. destruct rs as [[[] | e] w4]; simpl; reflexivity.
Qed.

End Phases.

(** ** The stages of a mode *)

#[global] Instance progress_stays_below_preorder : PreOrder progress_stays_below.
Proof.
  split.
  - intros w H. exact H.
  - intros w1 w2 w3 H1 H2 H. auto.
Qed.

Lemma grows_of_trace {A} (m : M A) :
  (forall w, exists evs, trace (exec m w) = trace w ++ evs) -> grows m.
Proof.
  intros H w. destruct (H w) as [evs Hevs].
  rewrite (events_of_trace m w evs Hevs). exact Hevs.
Qed.

Lemma events_of_bind {A B} (m : M A) (k : A -> M B) (w : World) :
  grows m -> (forall a, grows (k a)) ->
  events_of (bind m k) w =
    events_of m w ++
    match outcome m w with
    | Ok a => events_of (k a) (exec m w)
    | Raised _ => []
    end.
Proof.
  intros Hm Hk. apply events_of_trace.
  specialize (Hm w). unfold exec, outcome, bind in *.
  destruct (m w) as [[a | e] w1]; simpl in *.
  - specialize (Hk a w1). unfold exec in Hk. rewrite Hk, Hm, app_assoc. reflexivity.
  - rewrite Hm, app_nil_r. reflexivity.
Qed.

Lemma grows_bind {A B} (m : M A) (k : A -> M B) :
  grows m -> (forall a, grows (k a)) -> grows (bind m k).
Proof.
  intros Hm Hk. apply grows_of_trace. intros w.
  specialize (Hm w). unfold exec, bind in *.
  destruct (m w) as [[a | e] w1]; simpl in *.
  - specialize (Hk a w1). unfold exec in Hk. rewrite Hk, Hm, <- app_assoc. eauto.
  - eauto.
Qed.

Section Modes.

Variable env : Collaborators.

Lemma run_stages_mapping (mode : string) (w : World) :
  run_stages env mode w =
    match stages_of_mode mode with
    | Some stages => run_stage_list env stages w
    | None => (Raised (unsupported_message mode), w)
    end.
Proof.
  unfold run_stages, stages_of_mode.
  destruct (String.eqb mode "paper_polish");
    [| destruct (String.eqb mode "emotion_polish");
       [| destruct (String.eqb mode "paper_polish_enhance")]]; simpl; unfold bind.
  - destruct (process_stage env Polish w) as [[[] | e] w1]; reflexivity.
  - destruct (process_stage env EmotionPolish w) as [[[] | e] w1]; reflexivity.
  - destruct (process_stage env Polish w) as [[[] | e] w1]; [| reflexivity].
    destruct (process_stage env Enhance w1) as [[[] | e] w2]; reflexivity.
  - reflexivity.
Qed.

Lemma grows_process_stage (stage : Stage) : grows (process_stage env stage).
Proof.
  intros w. destruct (process_stage_run env stage w) as (w0 & evs & _ & Htr & -> & _).
  exact Htr.
Qed.

Lemma grows_run_stage_list (stages : list Stage) : grows (run_stage_list env stages).
Proof.
  induction stages as [| stage rest IH]; simpl.
  - intros w. unfold events_of, exec, ret. simpl. rewrite drop_all, app_nil_r. reflexivity.
  - apply grows_bind; [apply grows_process_stage | intros _; exact IH].
Qed.

Lemma run_stage_list_events (stage : Stage) (rest : list Stage) (w : World) :
  events_of (run_stage_list env (stage :: rest)) w =
    events_of (process_stage env stage) w ++
    match outcome (process_stage env stage) w with
    | Ok _ => events_of (run_stage_list env rest) (exec (process_stage env stage) w)
    | Raised _ => []
    end.
Proof.
  simpl. apply events_of_bind; [apply grows_process_stage |].
  intros _. apply grows_run_stage_list.
Qed.

Lemma run_stage_list_step (stage : Stage) (rest : list Stage) (w : World) :
  run_stage_list env (stage :: rest) w =
    match outcome (process_stage env stage) w with
    | Ok _ => run_stage_list env rest (exec (process_stage env stage) w)
    | Raised e => (Raised e, exec (process_stage env stage) w)
    end.
Proof.
  simpl. unfold bind, outcome, exec.
  destruct (process_stage env stage w) as [[[] | e] w1]; reflexivity.
Qed.

Lemma run_stage_list_outcome (stage : Stage) (rest : list Stage) (w : World) :
  outcome (run_stage_list env (stage :: rest)) w =
    match outcome (process_stage env stage) w with
    | Ok _ => outcome (run_stage_list env rest) (exec (process_stage env stage) w)
    | Raised e => Raised e
    end.
Proof.
  unfold outcome at 1. rewrite run_stage_list_step.
  destruct (outcome (process_stage env stage) w); reflexivity.
Qed.

Lemma run_stage_list_exec (stage : Stage) (rest : list Stage) (w : World) :
  exec (run_stage_list env (stage :: rest)) w =
    match outcome (process_stage env stage) w with
    | Ok _ => exec (run_stage_list env rest) (exec (process_stage env stage) w)
    | Raised e => exec (process_stage env stage) w
    end.
Proof.
  unfold exec at 1. rewrite run_stage_list_step.
  destruct (outcome (process_stage env stage) w); reflexivity.
Qed.

End Modes.

Section RunFacts.

Variable env : Collaborators.

Lemma segment_step_loop_events (stage : Stage) (k : nat) (s : Segment) (w w' : World)
    (r : Result (list Turn * Z)) (evs : list Event) :
  segment_step env stage k s w w' r evs -> Forall loop_event evs.
Proof.
  intros [? ? -> ? | ? ? ? ? -> ? | ? ? ? ? -> ? | e ? ? ? ? -> ? ? ?
         | out s' evs' ? ? ? ? ? -> Hq ?]; repeat constructor.
  eapply Forall_impl; [exact Hq |]. intros [] Hev; simpl in *; auto.
Qed.

Lemma loop_run_events (stage : Stage) (n k : nat) (l : list Segment) (w : World)
    (r : Result unit) (w' : World) (evs : list Event) :
  loop_run env stage n k l w r w' evs -> Forall loop_event evs.
Proof.
  induction 1 as [k w | k seg0 l s0 w w1 hc evs r w2 evs2 Hs Hrows Hstep Hrun IH
                 | k seg0 l s0 w w1 e evs Hs Hrows Hstep].
  - constructor.
  - constructor; [exact I |]. apply Forall_app. split; [| exact IH].
    eapply segment_step_loop_events, Hstep.
  - constructor; [exact I |]. eapply segment_step_loop_events, Hstep.
Qed.

(** with no checkpoint a stage starts at the first row *)
Lemma process_stage_from_first (stage : Stage) (w : World) :
  checkpoint w = None ->
  Forall stage_from_first (events_of (process_stage env stage) w).
Proof.
  intros Hc.
  destruct (process_stage_run env stage w) as (w0 & evs & _ & _ & -> & Hrun).
  rewrite Hc. constructor; [reflexivity |].
  eapply Forall_impl; [exact (loop_run_events _ _ _ _ _ _ _ _ Hrun) |].
  intros [] Hev; simpl in *; auto; contradiction.
Qed.

Lemma run_stage_list_from_first (stages : list Stage) : forall w,
  checkpoint w = None ->
  Forall stage_from_first (events_of (run_stage_list env stages) w).
Proof.
  induction stages as [| stage rest IH]; intros w Hc.
  - unfold events_of, exec. simpl. rewrite drop_all. constructor.
  - rewrite run_stage_list_events. apply Forall_app.
    split; [apply process_stage_from_first, Hc |].
    destruct (outcome (process_stage env stage) w) as [[] |] eqn:Ho; [| constructor].
    apply IH. rewrite <- Hc.
    exact (process_stage_keeps_checkpoint env stage w tt Ho).
Qed.


(** *** What every step of a run keeps *)

Lemma stage_loop_preserves (R : World -> World -> Prop) {HR : PreOrder R}
    (stage : Stage) (prompt : string) (n : nat) (thr : Z) (items : list (nat * Segment)) :
  (forall idx seg0 history total_chars, In (idx, seg0) items ->
     preserves R (process_segment env stage prompt n thr idx seg0 history total_chars)) ->
  forall history total_chars,
    preserves R (stage_loop env stage prompt n thr items history total_chars).
Proof.
  induction items as [| [idx seg0] items IH]; intros Hbody history total_chars; simpl.
  - apply preserves_ret. exact HR.
  - apply preserves_bind; [exact HR | apply Hbody; left; reflexivity |].
    intros hc. apply IH. intros idx' seg' h' tc' Hin. apply Hbody. right. exact Hin.
Qed.

Lemma enumerate_from_bound {A} (l : list A) : forall (k idx : nat) (x : A),
  In (idx, x) (enumerate_from k l) -> (k <= idx < k + length l)%nat.
Proof.
  induction l as [| y l IH]; intros k idx x; simpl; [contradiction |].
  intros [[= <- <-] | Hin]; [lia |]. apply IH in Hin. lia.
Qed.

Lemma resumed_rows_bound (segs : list Segment) (start idx : nat) (seg0 : Segment) :
  In (idx, seg0) (enumerate_from start (drop start segs)) -> (idx < length segs)%nat.
Proof.
  intros Hin. apply enumerate_from_bound in Hin. rewrite length_drop in Hin. lia.
Qed.

Lemma process_stage_logs (stage : Stage) :
  preserves logs_stay_unique (process_stage env stage).
Proof.
  unfold process_stage. pres logs_unique_leaf.
  apply stage_loop_preserves; [typeclasses eauto |]. intros. apply process_segment_logs.
Qed.

Lemma process_stage_below_full (stage : Stage) :
  preserves (trace_adds below_full) (process_stage env stage).
Proof.
  unfold process_stage. pres trace_adds_leaf.
  apply stage_loop_preserves; [typeclasses eauto |].
  intros idx seg0 history total_chars Hin. apply resumed_rows_bound in Hin.
  pres ltac:(first [ trace_adds_leaf
                   | prim_exec; eexists; split; [reflexivity |];
                     constructor; [apply stage_progress_bounds; assumption | constructor] ]).
Qed.

Lemma process_stage_progress_below (stage : Stage) :
  preserves progress_stays_below (process_stage env stage).
Proof.
  unfold process_stage.
  pres ltac:(prim_exec; unfold progress_stays_below; simpl; intros ?H; exact H).
  apply stage_loop_preserves; [typeclasses eauto |].
  intros idx seg0 history total_chars Hin. apply resumed_rows_bound in Hin.
  pres ltac:(prim_exec; unfold progress_stays_below; simpl; intros ?H;
             first [ exact H | apply stage_progress_bounds; assumption ]).
Qed.

End RunFacts.

(** ** A whole run *)

Section WholeRun.

Variable env : Collaborators.

Lemma grows_run_stages (mode : string) : grows (run_stages env mode).
Proof.
  apply grows_of_trace. intros w. unfold exec. rewrite run_stages_mapping.
  destruct (stages_of_mode mode) as [stages |].
  - exists (events_of (run_stage_list env stages) w).
    apply (grows_run_stage_list env stages w).
  - exists []. simpl. rewrite app_nil_r. reflexivity.
Qed.

Lemma run_after_setup_outcome (w : World) :
  outcome (run_after_setup env) w =
    outcome (run_stages env (effective_mode (session_obj (live (prepared env w)))))
      (prepared env w).
Proof. unfold outcome at 1. rewrite run_after_setup_phases. reflexivity. Qed.

Lemma run_after_setup_exec (w : World) :
  let m := run_stages env (effective_mode (session_obj (live (prepared env w)))) in
  exec (run_after_setup env) w =
    exec (emit EvGateRelease) (exec (conclude (outcome m (prepared env w)))
                                 (exec m (prepared env w))).
Proof. intros m. unfold exec at 1. rewrite run_after_setup_phases. reflexivity. Qed.

Lemma conclude_trace (r : Result unit) (w : World) :
  trace (exec (conclude r) w) = trace w ++ [EvRunStatus (final_status r)].
Proof. destruct r as [[] | e]; reflexivity. Qed.

(** the events of a run: admission, segmentation, the stages, the final
    status, the release of the gate *)
Lemma run_after_setup_events (w : World) :
  let m := run_stages env (effective_mode (session_obj (live (prepared env w)))) in
  events_of (run_after_setup env) w =
    admission_events env
      ++ split_events env (session_obj (live w)) (segments (live w))
      ++ events_of m (prepared env w)
      ++ [EvRunStatus (final_status (outcome m (prepared env w))); EvGateRelease].
Proof.
  intros m. apply events_of_trace. rewrite run_after_setup_exec. fold m.
  unfold exec at 1, emit. cbn [snd trace]. rewrite conclude_trace.
  pose proof (grows_run_stages (effective_mode (session_obj (live (prepared env w))))
                (prepared env w)) as Hg.
  fold m in Hg. rewrite Hg.
  change (trace (prepared env w))
    with (trace w ++ admission_events env
            ++ split_events env (session_obj (live w)) (segments (live w))).
  rewrite <- !app_assoc. reflexivity.
Qed.

Lemma wait_until_active_preserves (R : World -> World -> Prop) {HR : PreOrder R}
    (polls : nat) :
  (forall e, preserves R (emit (EvGatePoll e))) ->
  preserves R (wait_until_active polls).
Proof.
  intros He. induction polls as [| k IH]; simpl; [apply He |].
  apply preserves_bind; [exact HR | apply He | intros _; exact IH].
Qed.

Lemma run_after_setup_logs : preserves logs_stay_unique (run_after_setup env).
Proof.
  pose proof (process_stage_logs env) as Hstage.
  assert (Hwait : preserves logs_stay_unique (wait_until_active (gate_polls env))).
  { apply wait_until_active_preserves; [typeclasses eauto |]. intros e. logs_unique_leaf. }
  unfold run_after_setup, body_after_setup, run_stages.
  pres ltac:(first [ logs_unique_leaf | apply Hstage | exact Hwait ]).
Qed.

Lemma run_after_setup_below_full :
  preserves (trace_adds below_full) (run_after_setup env).
Proof.
  pose proof (process_stage_below_full env) as Hstage.
  assert (Hwait : preserves (trace_adds below_full) (wait_until_active (gate_polls env))).
  { apply wait_until_active_preserves; [typeclasses eauto |]. intros e. trace_adds_leaf. }
  unfold run_after_setup, body_after_setup, run_stages.
  pres ltac:(first [ trace_adds_leaf | apply Hstage | exact Hwait ]).
Qed.

Lemma run_stages_progress_below (mode : string) :
  preserves progress_stays_below (run_stages env mode).
Proof.
  pose proof (process_stage_progress_below env) as Hstage.
  unfold run_stages.
  pres ltac:(first [ apply Hstage
                   | prim_exec; unfold progress_stays_below; simpl; intros ?H; exact H ]).
Qed.

End WholeRun.

(** ** Events outside the stages *)

Lemma setup_events_no_stage (evs : list Event) :
  Forall setup_event evs ->
  stages_begun evs = [] /\ progress_writes evs = [] /\ generate_calls evs = [] /\
  forall i st input r, ~ In (EvGenerate i st input r) evs.
Proof.
  induction 1 as [| e evs He _ (IH1 & IH2 & IH3 & IH4)].
  - repeat split; auto.
  - destruct e; simpl in He; try contradiction; simpl;
      (repeat split; auto; intros i st input r [Heq | Hin];
       [discriminate | exact (IH4 _ _ _ _ Hin)]).
Qed.

Lemma poll_events_setup (polls : nat) : Forall setup_event (poll_events polls).
Proof.
  unfold poll_events. apply Forall_app. split.
  - induction polls; simpl; constructor; simpl; auto.
  - repeat constructor.
Qed.

Lemma admission_events_setup (env : Collaborators) : Forall setup_event (admission_events env).
Proof.
  unfold admission_events. constructor; [exact I |]. apply Forall_app. split.
  - destruct (gate_acquire env); [constructor |].
    constructor; [exact I | apply poll_events_setup].
  - repeat constructor.
Qed.

Lemma split_events_setup (env : Collaborators) (r : Run) (segs : list Segment) :
  Forall setup_event (split_events env r segs).
Proof. destruct segs; repeat constructor. Qed.

Lemma status_writes_app (e1 e2 : list Event) :
  status_writes (e1 ++ e2) = status_writes e1 ++ status_writes e2.
Proof. apply omap_app. Qed.

Lemma status_writes_poll_events (polls : nat) : status_writes (poll_events polls) = [].
Proof.
  unfold poll_events. rewrite status_writes_app. simpl. rewrite app_nil_r.
  induction polls; simpl; auto.
Qed.

Lemma status_writes_admission (env : Collaborators) :
  status_writes (admission_events env) =
    (if gate_acquire env then [] else [RunQueued]) ++ [RunProcessing].
Proof.
  unfold admission_events. destruct (gate_acquire env); simpl; [reflexivity |].
  rewrite status_writes_app, status_writes_poll_events. reflexivity.
Qed.

(** ** A mode outside the dispatch *)

Lemma stages_of_mode_none (mode : string) :
  mode <> "paper_polish" -> mode <> "emotion_polish" -> mode <> "paper_polish_enhance" ->
  stages_of_mode mode = None.
Proof.
  intros H1 H2 H3. unfold stages_of_mode.
  apply String.eqb_neq in H1, H2, H3. rewrite H1, H2, H3. reflexivity.
Qed.

(** what a run does when the dispatch finds no branch for the mode *)
Lemma run_after_setup_unsupported (env : Collaborators) (w : World) :
  let mode := effective_mode (session_obj (live w)) in
  let m := run_after_setup env in
  stages_of_mode mode = None ->
  outcome m w = Raised (unsupported_message mode) /\
  exec m w = exec (emit EvGateRelease)
               (exec (optimization_failed (unsupported_message mode)) (prepared env w)) /\
  events_of m w =
    admission_events env
      ++ split_events env (session_obj (live w)) (segments (live w))
      ++ [EvRunStatus RunFailed; EvGateRelease].
Proof.
  intros mode m Hnone. subst m.
  assert (Hmode : effective_mode (session_obj (live (prepared env w))) = mode)
    by reflexivity.
  assert (Hrun : forall w3, run_stages env mode w3 = (Raised (unsupported_message mode), w3)).
  { intros w3. rewrite run_stages_mapping, Hnone. reflexivity. }
  split; [| split].
  - rewrite run_after_setup_outcome, Hmode. unfold outcome. rewrite Hrun. reflexivity.
  - rewrite run_after_setup_exec, Hmode. unfold outcome, exec at 3.
    rewrite Hrun. reflexivity.
  - rewrite run_after_setup_events, Hmode.
    unfold events_of at 1, exec, outcome. rewrite Hrun. simpl.
    rewrite drop_all. reflexivity.
Qed.

(** ** The properties of the service *)


(** From the point where the services of the run are built:
    the loop of a stage steps through consecutive rows beginning at
    max(failed_segment_index, 0) when the checkpoint is set and at 0
    otherwise; and a run clears error_message and failed_segment_index
    before anything else, so that its stages, which run from the prepared
    state, all find the checkpoint cleared and begin at the first row. *)
Lemma checkpoint_start_after_setup (env : Collaborators) (stage : Stage) (w : World) :
  let m := process_stage env stage in
  let n := length (segments (live w)) in
  let start := match failed_segment_index (session_obj (live w)) with
               | Some k => Z.to_nat (Z.max k 0)
               | None => 0%nat
               end in
  let run := run_after_setup env in
  let w3 := prepared env w in
  (exists c, (c <= n - start)%nat /\
     map fst (progress_writes (events_of m w)) = seq start c /\
     (outcome m w = Ok tt -> c = (n - start)%nat) /\
     (start < n -> 1 <= c)%nat) /\
  In (EvStage stage start) (events_of m w) /\
  error_message (session_obj (live (exec reset_error_state w))) = None /\
  failed_segment_index (session_obj (live (exec reset_error_state w))) = None /\
  trace (exec reset_error_state w) = trace w /\
  error_message (session_obj (live w3)) = None /\
  failed_segment_index (session_obj (live w3)) = None /\
  events_of run w =
    admission_events env
      ++ split_events env (session_obj (live w)) (segments (live w))
      ++ events_of (run_stages env (effective_mode (session_obj (live w3)))) w3
      ++ [EvRunStatus (final_status (outcome run w)); EvGateRelease] /\
  stages_begun (admission_events env
                  ++ split_events env (session_obj (live w)) (segments (live w))) = [] /\
  Forall stage_from_first (events_of run w).
Proof.
  intros m n start run w3. subst m run.
  split; [| split; [| repeat (split; [reflexivity |])]].
  - destruct (process_stage_visits env stage w) as (c & Hc & Hp & Hok & Hne).
    exists c. split; [exact Hc |]. split; [| split; [exact Hok | exact Hne]].
    fold start in Hp. fold n in Hp. rewrite Hp, map_map. simpl. apply map_id.
  - destruct (process_stage_run env stage w) as (w0 & evs & _ & _ & -> & _).
    left. reflexivity.
  - assert (Hsetup : Forall setup_event
              (admission_events env
                 ++ split_events env (session_obj (live w)) (segments (live w)))).
    { apply Forall_app. split;
        [apply admission_events_setup | apply split_events_setup]. }
    split; [| split; [apply (setup_events_no_stage _ Hsetup) |]].
    + rewrite run_after_setup_events, run_after_setup_outcome. reflexivity.
    + rewrite run_after_setup_events, app_assoc. apply Forall_app. split.
      * eapply Forall_impl; [exact Hsetup |].
        intros [] Hev; simpl in *; auto; contradiction.
      * apply Forall_app. split; [| repeat constructor].
        unfold events_of, exec. rewrite run_stages_mapping.
        destruct (stages_of_mode _) as [stages |].
        -- apply (run_stage_list_from_first env stages (prepared env w)). reflexivity.
        -- simpl. rewrite drop_all. constructor.
Qed.

(** the progress values of consecutive rows never decrease *)
Lemma stage_progress_sorted (stage : Stage) (n c : nat) : forall a,
  StronglySorted Qle (map (fun j => stage_progress stage j n) (seq a c)).
Proof.
  induction c as [| c IH]; intros a; simpl; constructor; [apply IH |].
  apply List.Forall_forall. intros p Hp.
  apply in_map_iff in Hp as (j & <- & Hj). apply in_seq in Hj.
  apply stage_progress_mono. lia.
Qed.

(** From the point where the services of the run are built:
    within one execution of a stage the progress values written never
    decrease and each lies in [0, 100); during a whole run every progress
    write of a stage is below 100; a run that returns has set progress to
    exactly 100, and a run that raises, started below 100, ends below 100. *)
Lemma progress_after_setup (env : Collaborators) (stage : Stage) (w : World) :
  let written := map snd (progress_writes (events_of (process_stage env stage) w)) in
  let run := run_after_setup env in
  StronglySorted Qle written /\
  Forall (fun p => (0 <= p /\ p < 100)%Q) written /\
  Forall below_full (events_of run w) /\
  (outcome run w = Ok tt ->
     progress (session_obj (live (exec run w))) = 100%Q /\
     run_status (session_obj (live (exec run w))) = RunCompleted) /\
  ((progress (session_obj (live w)) < 100)%Q ->
   forall e, outcome run w = Raised e ->
     (progress (session_obj (live (exec run w))) < 100)%Q).
Proof.
  intros written run. subst written run.
  destruct (process_stage_visits env stage w) as (c & Hc & Hp & _ & _).
  rewrite Hp, map_map. simpl.
  split; [apply stage_progress_sorted |]. split; [| split; [| split]].
  - apply List.Forall_forall. intros p Hin.
    apply in_map_iff in Hin as (j & <- & Hj). apply in_seq in Hj.
    apply stage_progress_bounds. lia.
  - destruct (run_after_setup_below_full env w) as (evs & Htr & Hall).
    rewrite (events_of_trace _ _ _ Htr). exact Hall.
  - rewrite run_after_setup_outcome, run_after_setup_exec. intros ->.
    split; reflexivity.
  - intros Hlt e. rewrite run_after_setup_outcome, run_after_setup_exec.
    intros ->. simpl.
    apply (run_stages_progress_below env _ (prepared env w)). exact Hlt.
Qed.


(** C9: a segment whose output field for a stage is populated keeps that
    field, and indeed its whole row, through any number of later
    executions of that stage, whatever the threshold and the replies of
    the collaborators in those executions; the title branch, which writes
    both output fields, is never taken for it. *)
Theorem populated_output_not_overwritten (stage : Stage) (envs : list Collaborators)
    (w : World) (i : nat) (s : Segment) :
  segments (live w) !! i = Some s ->
  truthy (stage_output stage s) = true ->
  segments (live (rerun_stage stage envs w)) !! i = Some s /\
  stage_output stage <$> segments (live (rerun_stage stage envs w)) !! i =
    Some (stage_output stage s) /\
  (polish_like stage = true ->
   polished_text <$> segments (live (rerun_stage stage envs w)) !! i =
     Some (polished_text s)) /\
  (stage = Enhance ->
   enhanced_text <$> segments (live (rerun_stage stage envs w)) !! i =
     Some (enhanced_text s)).
Proof.
  intros Hi Ht.
  rewrite (rerun_stage_keeps_row stage envs w i s Hi Ht). auto.
Qed.

(** From the point where the services of the run are built:
    a run with no segments and a mode the dispatch has no branch for
    still creates the segments and commits total_segments, and passes
    through the processing status, before the unsupported-mode error is
    raised: it ends failed, with the new rows and their count durable. *)
Lemma materialized_after_setup (env : Collaborators) (w : World) :
  let run := run_after_setup env in
  let mode := effective_mode (session_obj (live w)) in
  let texts := split_text_into_segments env (run_original_text (session_obj (live w))) in
  segments (live w) = [] ->
  mode <> "paper_polish" -> mode <> "emotion_polish" -> mode <> "paper_polish_enhance" ->
  outcome run w = Raised (unsupported_message mode) /\
  segments (live (exec run w)) = new_segments env (session_obj (live w)) /\
  length (segments (live (exec run w))) = length texts /\
  total_segments (session_obj (live (exec run w))) = length texts /\
  durable (exec run w) = live (exec run w) /\
  run_status (session_obj (live (exec run w))) = RunFailed /\
  (exists before,
     events_of run w = before ++ [EvSplit (length texts); EvRunStatus RunFailed; EvGateRelease] /\
     status_writes before = (if gate_acquire env then [] else [RunQueued]) ++ [RunProcessing]) /\
  stages_begun (events_of run w) = [].
Proof.
  intros run mode texts Hempty H1 H2 H3. subst run.
  destruct (run_after_setup_unsupported env w) as (Ho & Hx & Hev).
  { apply stages_of_mode_none; assumption. }
  fold mode in Ho, Hx. rewrite Ho, Hx, Hev.
  split; [reflexivity |].
  unfold exec, emit, optimization_failed, set_run_status, bind, modify_run, commit, raise,
    emit. simpl. rewrite Hempty. simpl. fold texts.
  split; [reflexivity |].
  split; [unfold new_segments; rewrite length_map, length_enumerate_from; reflexivity |].
  split; [unfold new_segments; rewrite length_map, length_enumerate_from; reflexivity |].
  split; [reflexivity |]. split; [reflexivity |]. split.
  - exists (admission_events env). split.
    + reflexivity.
    + apply status_writes_admission.
  - assert (Hsetup : Forall setup_event
              (admission_events env ++ [EvSplit (length texts); EvRunStatus RunFailed;
                                        EvGateRelease])).
    { apply Forall_app. split; [apply admission_events_setup | repeat constructor]. }
    apply (setup_events_no_stage _ Hsetup).
Qed.

(** ** The initial history and the audit table, further *)

Section InitialHistory.

Variable env : Collaborators.

Lemma history_weight_app (h1 h2 : list Turn) :
  history_weight env (h1 ++ h2) = (history_weight env h1 + history_weight env h2)%Z.
Proof.
  unfold history_weight. induction h1 as [| t h1 IH]; simpl; [reflexivity | rewrite IH; lia].
Qed.

Lemma initial_history_cons (stage : Stage) (s : Segment) (segs : list Segment)
    (history : list Turn) (total_chars : Z) :
  initial_history env stage (s :: segs) history total_chars =
    match loaded_turn stage s with
    | Some t =>
        initial_history env stage segs (history ++ [t])
          (total_chars + count_chinese_characters env (content t))%Z
    | None => initial_history env stage segs history total_chars
    end.
Proof.
  unfold loaded_turn, stage_output. simpl.
  destruct (is_title s); [reflexivity |].
  destruct (if is_enhance stage then enhanced_text s else polished_text s)
    as [[| c t] |]; reflexivity.
Qed.

Lemma initial_history_from (stage : Stage) (segs : list Segment) :
  forall (history : list Turn) (total_chars : Z),
    initial_history env stage segs history total_chars =
      (history ++ omap (loaded_turn stage) segs,
       (total_chars + history_weight env (omap (loaded_turn stage) segs))%Z).
Proof.
  induction segs as [| s segs IH]; intros history total_chars.
  - simpl. rewrite app_nil_r. f_equal. unfold history_weight. simpl. lia.
  - rewrite initial_history_cons.
    change (omap (loaded_turn stage) (s :: segs)) with
      (match loaded_turn stage s with
       | Some t => t :: omap (loaded_turn stage) segs
       | None => omap (loaded_turn stage) segs
       end).
    destruct (loaded_turn stage s) as [t |]; [| apply IH].
    rewrite IH, <- app_assoc. simpl. f_equal.
    unfold history_weight. simpl. lia.
Qed.

End InitialHistory.

Lemma length_omap_le {A B} (f : A -> option B) (l : list A) :
  (length (omap f l) <= length l)%nat.
Proof.
  induction l as [| x l IH]; [simpl; lia |].
  change (omap f (x :: l)) with
    (match f x with Some y => y :: omap f l | None => omap f l end).
  destruct (f x); simpl; lia.
Qed.

(** X17: the history a stage starts from holds one assistant turn for each row
    that is not a title and has a non-empty output of the stage, in
    document order, and nothing else; the character total it starts with
    is the counted length of exactly these turns. *)
Theorem initial_history_loads_outputs (env : Collaborators) (stage : Stage)
    (segs : list Segment) :
  let loaded := initial_history env stage segs [] 0 in
  fst loaded = omap (loaded_turn stage) segs /\
  snd loaded = history_weight env (fst loaded) /\
  (length (fst loaded) <= length segs)%nat /\
  forall t, In t (fst loaded) ->
    role t = "assistant" /\ content t <> "" /\
    exists s, In s segs /\ is_title s = false /\ stage_output stage s = Some (content t).
Proof.
  intros loaded. unfold loaded. rewrite initial_history_from. simpl.
  split; [reflexivity |]. split; [lia |]. split; [apply length_omap_le |].
  intros t H. repeat split.
  - apply list_elem_of_In in H. apply list_elem_of_omap in H as (s & Hs & Ht).
    unfold loaded_turn in Ht. destruct (is_title s); [discriminate |].
    destruct (stage_output stage s) as [[| c u] |]; try discriminate.
    injection Ht as <-. reflexivity.
  - apply list_elem_of_In in H. apply list_elem_of_omap in H as (s & Hs & Ht).
    unfold loaded_turn in Ht. destruct (is_title s); [discriminate |].
    destruct (stage_output stage s) as [[| c u] |]; try discriminate.
    injection Ht as <-. discriminate.
  - apply list_elem_of_In in H. apply list_elem_of_omap in H as (s & Hs & Ht).
    exists s. split; [apply list_elem_of_In; exact Hs |].
    unfold loaded_turn in Ht. destruct (is_title s); [discriminate |].
    destruct (stage_output stage s) as [[| c u] |]; try discriminate.
    injection Ht as <-. split; reflexivity.
Qed.

Section AuditLookup.

Variable env : Collaborators.

Lemma latest_matching_alter (k : log_key) (f : ChangeLog -> ChangeLog) (rows : list ChangeLog) :
  (forall r, key_of (f r) = key_of r) ->
  (forall r, log_created_at (f r) = log_created_at r) ->
  forall j j0 r,
    latest_matching k rows = Some (j, r) ->
    latest_matching k (alter f j0 rows) = Some (j, if decide (j = j0) then f r else r).
Proof.
  intros Hk Hc. induction rows as [| r0 rows IH]; intros j j0 r; [simpl; discriminate |].
  destruct j0 as [| j0].
  - change (alter f 0%nat (r0 :: rows)) with (f r0 :: rows). cbn [latest_matching].
    unfold log_matches. rewrite Hk, Hc.
    destruct (bool_decide (key_of r0 = k)).
    + destruct (latest_matching k rows) as [[i r'] |]; simpl.
      * destruct (log_created_at r0 <? log_created_at r')%nat; intros [= <- <-]; reflexivity.
      * intros [= <- <-]. reflexivity.
    + destruct (latest_matching k rows) as [[i r'] |]; simpl; [| discriminate].
      intros [= <- <-]. reflexivity.
  - change (alter f (S j0) (r0 :: rows)) with (r0 :: alter f j0 rows).
    cbn [latest_matching].
    destruct (latest_matching k rows) as [[i r'] |] eqn:El; simpl.
    + rewrite (IH i j0 r' eq_refl). simpl.
      assert (Hc' : log_created_at (if decide (i = j0) then f r' else r') = log_created_at r').
      { destruct (decide (i = j0)); [apply Hc | reflexivity]. }
      rewrite Hc'.
      destruct (log_matches k r0).
      * destruct (log_created_at r0 <? log_created_at r')%nat; intros [= <- <-].
        -- f_equal. f_equal. destruct (decide (i = j0)), (decide (S i = S j0));
             try reflexivity; lia.
        -- reflexivity.
      * intros [= <- <-]. f_equal. f_equal.
        destruct (decide (i = j0)), (decide (S i = S j0)); try reflexivity; lia.
    + destruct (log_matches k r0); [| discriminate].
      intros [= <- <-].
      assert (Hn : latest_matching k (alter f j0 rows) = None).
      { apply latest_matching_None. rewrite key_count_alter by exact Hk.
        apply latest_matching_None. exact El. }
      rewrite Hn. reflexivity.
Qed.

Lemma latest_matching_new (k : log_key) (r : ChangeLog) (rows : list ChangeLog) :
  key_count k rows = 0%nat -> key_of r = k ->
  latest_matching k (rows ++ [r]) = Some (length rows, r).
Proof.
  intros H0 Hr. induction rows as [| r0 rows IH]; simpl.
  - unfold log_matches. rewrite bool_decide_eq_true_2 by exact Hr. reflexivity.
  - rewrite key_count_cons in H0.
    destruct (decide (key_of r0 = k)) as [He | He]; [simpl in H0; lia |].
    unfold log_matches. rewrite bool_decide_eq_false_2 by exact He.
    rewrite IH by (simpl in H0; exact H0). reflexivity.
Qed.

Lemma record_change_keeps_run (segment : Segment) (before : option string) (after : string)
    (stage : Stage) :
  preserves (keeps (fun w => session_obj (live w)))
    (record_change env segment before after stage).
Proof. pres keeps_leaf. Qed.

End AuditLookup.

Lemma alter_fixed {A} (f : A -> A) (j : nat) (l : list A) (x : A) :
  l !! j = Some x -> f x = x -> alter f j l = l.
Proof.
  intros Hj Hx. apply list_eq. intros i.
  destruct (decide (i = j)) as [-> |].
  - rewrite list_lookup_alter_eq, Hj. simpl. rewrite Hx. reflexivity.
  - apply list_lookup_alter_ne. congruence.
Qed.

Lemma record_change_found (env : Collaborators) (segment : Segment) (before after : string)
    (stage : Stage) (w : World) :
  let k := (run_id (session_obj (live w)), segment_index segment, stage) in
  let d := mkChangeDetail (str_len env before) (str_len env after)
             (negb (String.eqb before after)) in
  let m := record_change env segment (Some before) after stage in
  exists j r,
    latest_matching k (change_logs (live (exec m w))) = Some (j, r) /\
    r = mkChangeLog (run_id (session_obj (live w))) (segment_index segment) stage
          before after d
          (match latest_matching k (change_logs (live w)) with
           | Some (_, r0) => log_created_at r0
           | None => clock w
           end).
Proof.
  intros k d m. unfold m. rewrite record_change_rows. fold k d.
  destruct (latest_matching k (change_logs (live w))) as [[j r0] |] eqn:El.
  - exists j, (overwrite_log before after d r0). split.
    + rewrite (latest_matching_alter k _ _ (key_of_overwrite_log before after d)
                 (fun _ => eq_refl) j j r0 El).
      rewrite decide_True by reflexivity. reflexivity.
    + apply latest_matching_Some in El as [_ Hk]. unfold overwrite_log.
      unfold key_of, k in Hk. injection Hk as -> -> ->. reflexivity.
  - eexists _, _. split; [| reflexivity].
    apply latest_matching_new; [| reflexivity].
    apply latest_matching_None. exact El.
Qed.

(** X18: [_record_change]: the entry a call leaves is the one the next lookup of
    the key finds; it carries the texts and the detail of this call and
    the creation time of the entry it replaced (or the time of the call);
    and a second call with the same texts changes nothing in the table. *)
Theorem audit_entry_found_after_record (env : Collaborators) (segment : Segment)
    (before after : string) (stage : Stage) (w : World) :
  let k := (run_id (session_obj (live w)), segment_index segment, stage) in
  let d := mkChangeDetail (str_len env before) (str_len env after)
             (negb (String.eqb before after)) in
  let m := record_change env segment (Some before) after stage in
  let rows' := change_logs (live (exec m w)) in
  outcome m w = Ok tt /\
  (exists j r,
     latest_matching k rows' = Some (j, r) /\
     before_text r = before /\ after_text r = after /\ changes_detail r = d /\
     log_created_at r = match latest_matching k (change_logs (live w)) with
                        | Some (_, r0) => log_created_at r0
                        | None => clock w
                        end) /\
  change_logs (live (exec m (exec m w))) = rows' /\
  durable (exec m w) = live (exec m w).
Proof.
  intros k d m rows'.
  assert (Hrun : session_obj (live (exec m w)) = session_obj (live w))
    by apply (record_change_keeps_run env).
  destruct (record_change_found env segment before after stage w) as (j & r & Hl & Hr).
  fold k d m in Hl, Hr. fold rows' in Hl.
  split; [| split; [| split]].
  - clear Hl Hr Hrun. unfold outcome, m, record_change, bind, gets, commit. simpl.
    destruct (latest_matching _ _) as [[? ?] |]; reflexivity.
  - exists j, r. split; [exact Hl |]. rewrite Hr. repeat split.
  - unfold m at 1. rewrite record_change_rows. rewrite Hrun. fold k d m rows'.
    rewrite Hl. apply (alter_fixed _ j rows' r).
    + apply latest_matching_Some in Hl. apply Hl.
    + rewrite Hr. reflexivity.
  - clear Hl Hr Hrun. unfold m, record_change, exec, bind, gets, commit. simpl.
    destruct (latest_matching _ _) as [[? ?] |]; reflexivity.
Qed.

(** ** The gate, the run status and the sequence of stages *)

Section StageEvents.

Variable env : Collaborators.

Lemma loop_events_stage (evs : list Event) :
  Forall loop_event evs ->
  Forall stage_event evs /\ stages_begun evs = [] /\ status_writes evs = [] /\
  gate_traffic evs = [].
Proof.
  induction 1 as [| e evs He _ (IH1 & IH2 & IH3 & IH4)]; [repeat split; constructor |].
  destruct e; simpl in He; try contradiction;
    (split; [constructor; [exact I | exact IH1] | auto]).
Qed.

Lemma process_stage_events (stage : Stage) (w : World) :
  let evs := events_of (process_stage env stage) w in
  Forall stage_event evs /\ stages_begun evs = [stage] /\
  (forall i st input r, In (EvGenerate i st input r) evs -> st = stage).
Proof.
  intros evs. subst evs.
  destruct (process_stage_run env stage w) as (w0 & evs & _ & _ & -> & Hrun).
  pose proof (loop_run_events _ _ _ _ _ _ _ _ _ Hrun) as Hl.
  destruct (loop_events_stage evs Hl) as (H1 & H2 & _).
  split; [constructor; [exact I | exact H1] |].
  split; [change (stages_begun (EvStage stage (resume_index (checkpoint w)) :: evs))
            with (stage :: stages_begun evs); rewrite H2; reflexivity |].
  intros i st input r [Hin | Hin]; [discriminate |].
  destruct r as [out | e].
  - apply (loop_run_generated _ _ _ _ _ _ _ _ _ _ _ _ _ Hrun Hin).
  - apply (loop_run_failed _ _ _ _ _ _ _ _ _ _ _ _ _ Hrun Hin).
Qed.

End StageEvents.

Section StageSequence.

Variable env : Collaborators.

Lemma stages_begun_app (e1 e2 : list Event) :
  stages_begun (e1 ++ e2) = stages_begun e1 ++ stages_begun e2.
Proof. apply omap_app. Qed.

Lemma gate_traffic_app (e1 e2 : list Event) :
  gate_traffic (e1 ++ e2) = gate_traffic e1 ++ gate_traffic e2.
Proof. apply omap_app. Qed.

Lemma stage_events_quiet (evs : list Event) :
  Forall stage_event evs -> status_writes evs = [] /\ gate_traffic evs = [].
Proof.
  induction 1 as [| e evs He _ [IH1 IH2]]; [split; reflexivity |].
  destruct e; simpl in He; try contradiction; split; assumption.
Qed.

Lemma run_stage_list_stages (stages : list Stage) : forall w,
  let evs := events_of (run_stage_list env stages) w in
  Forall stage_event evs /\
  stages_begun evs `prefix_of` stages /\
  (outcome (run_stage_list env stages) w = Ok tt -> stages_begun evs = stages) /\
  (forall i st input r, In (EvGenerate i st input r) evs -> In st (stages_begun evs)).
Proof.
  induction stages as [| stage rest IH]; intros w evs; subst evs.
  - assert (He : events_of (run_stage_list env []) w = []).
    { unfold events_of, exec. simpl. apply drop_all. }
    rewrite He. split; [constructor |]. split; [apply prefix_nil |].
    split; [reflexivity |]. intros ? ? ? ? [].
  - rewrite run_stage_list_events, run_stage_list_outcome.
    destruct (process_stage_events env stage w) as (Hs & Hb & Hc).
    rewrite stages_begun_app, Hb.
    destruct (outcome (process_stage env stage) w) as [[] | e] eqn:Ho.
    + destruct (IH (exec (process_stage env stage) w)) as (IH1 & IH2 & IH3 & IH4).
      split; [apply Forall_app; split; assumption |].
      split; [apply prefix_cons, IH2 |].
      split; [intros Hok; simpl; f_equal; apply IH3, Hok |].
      intros i st input r Hin. apply in_app_or in Hin as [Hin | Hin].
      * left. symmetry. eapply Hc, Hin.
      * right. eapply IH4, Hin.
    + rewrite app_nil_r.
      split; [exact Hs |].
      split; [apply prefix_cons, prefix_nil |].
      split; [discriminate |].
      intros i st input r Hin. left. symmetry. eapply Hc, Hin.
Qed.

Lemma run_stages_events (mode : string) (w : World) :
  Forall stage_event (events_of (run_stages env mode) w).
Proof.
  unfold events_of, exec. rewrite run_stages_mapping.
  destruct (stages_of_mode mode) as [stages |].
  - apply (run_stage_list_stages stages w).
  - simpl. rewrite drop_all. constructor.
Qed.

End StageSequence.

(** From the point where the services of the run are built:
    the gate is asked once, at the start; a run that is not admitted
    polls until it is; and the gate is released once, as the last thing
    the run does, whether it returns or raises. *)
Lemma gate_after_setup (env : Collaborators) (w : World) :
  let evs := events_of (run_after_setup env) w in
  gate_traffic evs =
    EvGateAcquire (gate_acquire env)
      :: (if gate_acquire env then [] else poll_events (gate_polls env))
      ++ [EvGateRelease] /\
  head evs = Some (EvGateAcquire (gate_acquire env)) /\
  last evs = Some EvGateRelease.
Proof.
  intros evs. subst evs. rewrite run_after_setup_events.
  set (m := run_stages env _).
  destruct (stage_events_quiet _
              (run_stages_events env (effective_mode (session_obj (live (prepared env w))))
                 (prepared env w))) as [_ Hg].
  fold m in Hg.
  split; [| split].
  - rewrite !gate_traffic_app, Hg.
    assert (Hp : forall n, gate_traffic (poll_events n) = poll_events n).
    { intros n. unfold poll_events. rewrite gate_traffic_app.
      induction n as [| n IHn]; [reflexivity |]. simpl in *. rewrite IHn. reflexivity. }
    unfold admission_events. destruct (gate_acquire env); simpl.
    + destruct (segments (live w)); reflexivity.
    + rewrite gate_traffic_app, Hp. simpl.
      destruct (segments (live w)); simpl; rewrite <- app_assoc; reflexivity.
  - reflexivity.
  - rewrite !app_assoc.
    change [EvRunStatus (final_status (outcome m (prepared env w))); EvGateRelease]
      with ([EvRunStatus (final_status (outcome m (prepared env w)))] ++ [EvGateRelease]).
    rewrite app_assoc. apply last_snoc.
Qed.

Section RunEnd.

Variable env : Collaborators.

Lemma process_segment_keeps_error (stage : Stage) (prompt : string) (n : nat)
    (thr : Z) (idx : nat) (seg0 : Segment) (history : list Turn) (total_chars : Z) :
  preserves_ok (keeps run_error)
    (process_segment env stage prompt n thr idx seg0 history total_chars).
Proof.
  pose proof segment_failed_fails.
  repeat pres_ok_step keeps_leaf.
Qed.

Lemma stage_loop_keeps_error (stage : Stage) (prompt : string) (n : nat) (thr : Z)
    (items : list (nat * Segment)) :
  forall history total_chars,
    preserves_ok (keeps run_error)
      (stage_loop env stage prompt n thr items history total_chars).
Proof.
  induction items as [| [idx seg0] items IH]; intros history total_chars; simpl.
  - apply preserves_ok_weaken. pres keeps_leaf.
  - apply preserves_ok_bind; [typeclasses eauto | | intros hc; apply IH].
    apply process_segment_keeps_error.
Qed.

Lemma process_stage_keeps_error (stage : Stage) :
  preserves_ok (keeps run_error) (process_stage env stage).
Proof.
  pose proof stage_loop_keeps_error.
  repeat pres_ok_step keeps_leaf.
Qed.

Lemma run_stages_keeps_error (mode : string) :
  preserves_ok (keeps run_error) (run_stages env mode).
Proof.
  pose proof process_stage_keeps_error.
  assert (Hr : forall msg, preserves_ok (keeps run_error) (@raise unit msg)).
  { intros msg w a Ho. discriminate Ho. }
  unfold run_stages.
  repeat pres_ok_step keeps_leaf.
Qed.

(** how a run ends, from the state [w'] its stages leave with outcome [r] *)
Lemma conclude_state (r : Result unit) (w' : World) :
  let wf := exec (emit EvGateRelease) (exec (conclude r) w') in
  run_status (session_obj (live wf)) = final_status r /\
  durable wf = live wf /\
  match r with
  | Ok _ =>
      run_error wf = run_error w' /\
      failed_segment_index (session_obj (live wf)) = None /\
      run_completed_at (session_obj (live wf)) = Some (clock w')
  | Raised e =>
      run_error wf = Some e /\
      failed_segment_index (session_obj (live wf)) = failed_segment_index (session_obj (live w'))
  end.
Proof. destruct r as [[] | e]; repeat split. Qed.

End RunEnd.

(** From the point where the services of the run are built:
    the run status goes through queued (only when the gate does not admit
    the run at once) and processing, and ends completed exactly when
    the run returns and failed exactly when it raises.  A run
    that raises leaves the text of the error it raises as error_message;
    a run that returns leaves no error text and no checkpoint, and a
    completion time.  Either way everything written is committed. *)
Lemma lifecycle_after_setup (env : Collaborators) (w : World) :
  let run := run_after_setup env in
  let wf := exec run w in
  status_writes (events_of run w) =
    (if gate_acquire env then [] else [RunQueued])
      ++ [RunProcessing; final_status (outcome run w)] /\
  run_status (session_obj (live wf)) = final_status (outcome run w) /\
  (forall e, outcome run w = Raised e ->
     error_message (session_obj (live wf)) = Some e) /\
  (outcome run w = Ok tt ->
     error_message (session_obj (live wf)) = None /\
     failed_segment_index (session_obj (live wf)) = None /\
     exists t, run_completed_at (session_obj (live wf)) = Some t) /\
  durable wf = live wf.
Proof.
  intros run wf. subst run wf.
  rewrite run_after_setup_events, run_after_setup_outcome, run_after_setup_exec.
  set (mode := effective_mode (session_obj (live (prepared env w)))).
  set (m := run_stages env mode).
  destruct (stage_events_quiet _ (run_stages_events env mode (prepared env w))) as [Hs _].
  fold m in Hs.
  destruct (conclude_state (outcome m (prepared env w)) (exec m (prepared env w)))
    as (Hst & Hd & Hend).
  split; [| split; [exact Hst | split; [| split; [| exact Hd]]]].
  - rewrite !status_writes_app, Hs, status_writes_admission.
    destruct (segments (live w)); simpl; rewrite <- app_assoc; reflexivity.
  - intros e He. rewrite He in Hend |- *. exact (proj1 Hend).
  - intros Ho. rewrite Ho in Hend |- *. destruct Hend as (He & Hf & Hc).
    split; [| split; [exact Hf | eexists; exact Hc]].
    change (error_message (session_obj (live ?x))) with (run_error x).
    rewrite He.
    exact (run_stages_keeps_error env mode (prepared env w) tt Ho).
Qed.

(** From the point where the services of the run are built:
    the stages a run begins are an initial part of the sequence of its
    mode, in that order, and the whole sequence when the run returns; the
    generative collaborator is called only for stages that were begun. *)
Lemma stages_after_setup (env : Collaborators) (w : World) (stages : list Stage) :
  let run := run_after_setup env in
  stages_of_mode (effective_mode (session_obj (live w))) = Some stages ->
  stages_begun (events_of run w) `prefix_of` stages /\
  (outcome run w = Ok tt -> stages_begun (events_of run w) = stages) /\
  (forall i st input r, In (EvGenerate i st input r) (events_of run w) ->
     In st (stages_begun (events_of run w))).
Proof.
  intros run Hmode. subst run.
  rewrite run_after_setup_events, run_after_setup_outcome.
  change (effective_mode (session_obj (live (prepared env w))))
    with (effective_mode (session_obj (live w))).
  set (mode := effective_mode (session_obj (live w))) in *.
  assert (Hm : run_stages env mode (prepared env w) = run_stage_list env stages (prepared env w)).
  { rewrite run_stages_mapping, Hmode. reflexivity. }
  assert (He : events_of (run_stages env mode) (prepared env w) =
               events_of (run_stage_list env stages) (prepared env w)).
  { unfold events_of, exec. rewrite Hm. reflexivity. }
  assert (Ho : outcome (run_stages env mode) (prepared env w) =
               outcome (run_stage_list env stages) (prepared env w)).
  { unfold outcome. rewrite Hm. reflexivity. }
  rewrite He, Ho. clear He Ho Hm.
  destruct (run_stage_list_stages env stages (prepared env w)) as (_ & Hp & Hok & Hc).
  destruct (setup_events_no_stage _ (admission_events_setup env)) as (Ha & _ & _ & Hna).
  destruct (setup_events_no_stage _
              (split_events_setup env (session_obj (live w)) (segments (live w))))
    as (Hsp & _ & _ & Hns).
  assert (Hb : forall evs tail_status,
             stages_begun (admission_events env
                 ++ split_events env (session_obj (live w)) (segments (live w))
                 ++ evs ++ [EvRunStatus tail_status; EvGateRelease]) = stages_begun evs).
  { intros evs ts. rewrite !stages_begun_app, Ha, Hsp. simpl. apply app_nil_r. }
  rewrite !Hb. split; [exact Hp | split; [exact Hok |]].
  intros i st input r Hin.
  apply in_app_or in Hin as [Hin | Hin]; [exfalso; eapply Hna, Hin |].
  apply in_app_or in Hin as [Hin | Hin]; [exfalso; eapply Hns, Hin |].
  apply in_app_or in Hin as [Hin | Hin]; [eapply Hc, Hin |].
  destruct Hin as [Hin | [Hin | []]]; discriminate.
Qed.

Section Totals.

Variable env : Collaborators.

Lemma process_stage_keeps_total (stage : Stage) :
  preserves (keeps run_total) (process_stage env stage).
Proof.
  unfold process_stage. pres keeps_leaf.
  apply stage_loop_preserves; [typeclasses eauto |]. intros. pres keeps_leaf.
Qed.

Lemma run_stages_keeps_total (mode : string) :
  preserves (keeps run_total) (run_stages env mode).
Proof.
  pose proof process_stage_keeps_total as Hstage.
  unfold run_stages. pres ltac:(first [ apply Hstage | keeps_leaf ]).
Qed.

Lemma process_stage_length (stage : Stage) (w : World) :
  length (segments (live (exec (process_stage env stage) w))) = length (segments (live w)).
Proof.
  destruct (process_stage_run env stage w) as (w0 & evs & Hsegs & _ & _ & Hrun).
  apply loop_run_rows in Hrun as [Hlen _]. rewrite Hlen, Hsegs. reflexivity.
Qed.

Lemma run_stage_list_length (stages : list Stage) : forall w,
  length (segments (live (exec (run_stage_list env stages) w))) = length (segments (live w)).
Proof.
  induction stages as [| stage rest IH]; intros w; [reflexivity |].
  rewrite run_stage_list_exec.
  destruct (outcome (process_stage env stage) w) as [[] | e].
  - rewrite IH. apply process_stage_length.
  - apply process_stage_length.
Qed.

Lemma run_stages_length (mode : string) (w : World) :
  length (segments (live (exec (run_stages env mode) w))) = length (segments (live w)).
Proof.
  unfold exec. rewrite run_stages_mapping.
  destruct (stages_of_mode mode) as [stages |]; [apply run_stage_list_length | reflexivity].
Qed.

Lemma loop_run_nil (stage : Stage) (n k : nat) (w : World) (r : Result unit) (w' : World)
    (evs : list Event) :
  loop_run env stage n k [] w r w' evs -> r = Ok tt /\ w' = w /\ evs = [].
Proof. inversion 1; auto. Qed.

Lemma process_stage_empty (stage : Stage) (w : World) :
  segments (live w) = [] ->
  outcome (process_stage env stage) w = Ok tt /\
  events_of (process_stage env stage) w = [EvStage stage (resume_index (checkpoint w))] /\
  segments (live (exec (process_stage env stage) w)) = [].
Proof.
  intros Hnil.
  destruct (process_stage_run env stage w) as (w0 & evs & Hsegs & _ & Hev & Hrun).
  rewrite Hnil, drop_nil in Hrun. apply loop_run_nil in Hrun as (Ho & Hw & ->).
  split; [exact Ho |]. split; [exact Hev |].
  rewrite Hw, Hsegs. exact Hnil.
Qed.

Lemma run_stage_list_empty (stages : list Stage) : forall w,
  segments (live w) = [] -> checkpoint w = None ->
  outcome (run_stage_list env stages) w = Ok tt /\
  events_of (run_stage_list env stages) w = map (fun stage => EvStage stage 0) stages.
Proof.
  induction stages as [| stage rest IH]; intros w Hnil Hc.
  - split; [reflexivity |]. unfold events_of, exec. simpl. apply drop_all.
  - destruct (process_stage_empty stage w Hnil) as (Ho & He & Hs).
    rewrite run_stage_list_outcome, run_stage_list_events, Ho, He, Hc.
    destruct (IH (exec (process_stage env stage) w) Hs) as [IHo IHe].
    { rewrite <- Hc. exact (process_stage_keeps_checkpoint env stage w tt Ho). }
    rewrite IHo, IHe. split; reflexivity.
Qed.

End Totals.

(** From the point where the services of the run are built:
    a document that the segmenter splits into no piece: the run creates
    no row, begins each stage of its mode and finds nothing to do, and
    completes without a call, with zero segments and progress 100. *)
Lemma empty_document_after_setup (env : Collaborators) (w : World) (stages : list Stage) :
  let run := run_after_setup env in
  segments (live w) = [] ->
  split_text_into_segments env (run_original_text (session_obj (live w))) = [] ->
  stages_of_mode (effective_mode (session_obj (live w))) = Some stages ->
  outcome run w = Ok tt /\
  events_of run w =
    admission_events env ++ [EvSplit 0] ++ map (fun stage => EvStage stage 0) stages
      ++ [EvRunStatus RunCompleted; EvGateRelease] /\
  segments (live (exec run w)) = [] /\
  total_segments (session_obj (live (exec run w))) = 0%nat /\
  progress (session_obj (live (exec run w))) = 100%Q /\
  run_status (session_obj (live (exec run w))) = RunCompleted.
Proof.
  intros run Hnil Hsplit Hmode. subst run.
  rewrite run_after_setup_events, run_after_setup_outcome, run_after_setup_exec.
  change (effective_mode (session_obj (live (prepared env w))))
    with (effective_mode (session_obj (live w))).
  set (mode := effective_mode (session_obj (live w))) in *.
  assert (Hm : run_stages env mode (prepared env w) = run_stage_list env stages (prepared env w)).
  { rewrite run_stages_mapping, Hmode. reflexivity. }
  assert (Hsegs : segments (live (prepared env w)) = []).
  { simpl. rewrite Hnil. unfold materialized, new_segments. rewrite Hsplit. reflexivity. }
  destruct (run_stage_list_empty env stages (prepared env w) Hsegs eq_refl) as [Ho He].
  assert (Ho' : outcome (run_stages env mode) (prepared env w) = Ok tt).
  { unfold outcome. rewrite Hm. exact Ho. }
  assert (He' : events_of (run_stages env mode) (prepared env w) =
                map (fun stage => EvStage stage 0) stages).
  { unfold events_of, exec. rewrite Hm. exact He. }
  rewrite Ho', He'.
  split; [reflexivity |].
  split; [rewrite Hnil; simpl; rewrite Hsplit; reflexivity |].
  assert (Hlen : length (segments (live (exec (run_stages env mode) (prepared env w)))) = 0%nat).
  { rewrite run_stages_length, Hsegs. reflexivity. }
  assert (Htot : run_total (exec (run_stages env mode) (prepared env w)) = 0%nat).
  { rewrite (run_stages_keeps_total env mode (prepared env w)).
    unfold run_total. simpl. rewrite Hnil. unfold materialized, new_segments.
    rewrite Hsplit. reflexivity. }
  split; [apply nil_length_inv; exact Hlen |].
  split; [exact Htot | split; reflexivity].
Qed.

(** ** What a run keeps of the rows *)

Lemma row_kept_refl (s : Segment) : row_kept s s.
Proof. unfold row_kept. tauto. Qed.

Lemma row_kept_trans (s1 s2 s3 : Segment) : row_kept s1 s2 -> row_kept s2 s3 -> row_kept s1 s3.
Proof. unfold row_kept. intuition congruence. Qed.

#[global] Instance rows_kept_preorder : PreOrder rows_kept.
Proof.
  split.
  - intros w i s Hs. exists s. split; [exact Hs | apply row_kept_refl].
  - intros w1 w2 w3 H12 H23 i s Hs.
    destruct (H12 i s Hs) as (s2 & Hs2 & Hk2).
    destruct (H23 i s2 Hs2) as (s3 & Hs3 & Hk3).
    exists s3. split; [exact Hs3 | eapply row_kept_trans; eassumption].
Qed.

Lemma modify_segment_kept (idx : nat) (f : Segment -> Segment) :
  (forall s, row_kept s (f s)) -> preserves rows_kept (modify_segment idx f).
Proof.
  intros Hf w i s Hs. unfold exec, modify_segment. simpl.
  destruct (decide (idx = i)) as [-> | Hne].
  - exists (f s). rewrite list_lookup_alter_eq, Hs. split; [reflexivity | apply Hf].
  - exists s. rewrite list_lookup_alter_ne by exact Hne. split; [exact Hs | apply row_kept_refl].
Qed.

Lemma add_segments_kept (rows : list Segment) : preserves rows_kept (add_segments rows).
Proof.
  intros w i s Hs. unfold exec, add_segments. simpl. exists s.
  split; [apply lookup_app_l_Some; exact Hs | apply row_kept_refl].
Qed.

Ltac row_kept_solve :=
  intros ?s; unfold row_kept, set_stage_output, mark_title, seg_set_enhanced,
    seg_set_polished, seg_set_status, seg_set_completed_at, seg_set_stage;
  repeat match goal with |- context [if ?b then _ else _] => destruct b end;
  simpl; repeat split; solve [auto | congruence].

Ltac rows_kept_leaf' :=
  first [ apply modify_segment_kept; row_kept_solve
        | apply add_segments_kept
        | prim_exec; unfold rows_kept; simpl; intros; eexists;
          split; [eassumption | apply row_kept_refl] ].

Section RowsKept.

Variable env : Collaborators.

Lemma process_stage_kept (stage : Stage) : preserves rows_kept (process_stage env stage).
Proof.
  unfold process_stage. pres rows_kept_leaf'.
  apply stage_loop_preserves; [typeclasses eauto |]. intros. pres rows_kept_leaf'.
Qed.

Lemma run_stages_kept (mode : string) : preserves rows_kept (run_stages env mode).
Proof.
  pose proof process_stage_kept as Hstage.
  unfold run_stages. pres ltac:(first [ apply Hstage | rows_kept_leaf' ]).
Qed.

Lemma run_after_setup_kept : preserves rows_kept (run_after_setup env).
Proof.
  pose proof process_stage_kept as Hstage.
  assert (Hwait : preserves rows_kept (wait_until_active (gate_polls env))).
  { apply wait_until_active_preserves; [typeclasses eauto |]. intros e. rows_kept_leaf'. }
  unfold run_after_setup, body_after_setup, run_stages.
  pres ltac:(first [ rows_kept_leaf' | apply Hstage | exact Hwait ]).
Qed.

End RowsKept.

Lemma kept_fmap {B} (f : Segment -> B) (l l' : list Segment) :
  (forall i s, l !! i = Some s -> exists s', l' !! i = Some s' /\ f s' = f s) ->
  length l' = length l ->
  f <$> l' = f <$> l.
Proof.
  intros Hk Hlen. apply list_eq. intros i. rewrite !list_lookup_fmap.
  destruct (l !! i) as [s |] eqn:Hs.
  - destruct (Hk i s Hs) as (s' & -> & Hf). simpl. rewrite Hf. reflexivity.
  - apply lookup_ge_None in Hs. rewrite <- Hlen in Hs. apply lookup_ge_None in Hs.
    rewrite Hs. reflexivity.
Qed.

Lemma new_segments_fields (sid : Z) (texts : list string) : forall k,
  let rows := map (fun p => new_segment sid (fst p) (snd p)) (enumerate_from k texts) in
  original_text <$> rows = texts /\
  segment_index <$> rows = Z.of_nat <$> seq k (length texts) /\
  Forall (fun s => seg_session_id s = sid /\ seg_status s = SegPending /\
                   polished_text s = None /\ enhanced_text s = None /\
                   is_title s = false) rows.
Proof.
  induction texts as [| t texts IH]; intros k; simpl.
  - repeat split; constructor.
  - destruct (IH (S k)) as (IH1 & IH2 & IH3).
    split; [f_equal; exact IH1 |]. split; [f_equal; exact IH2 |].
    constructor; [repeat split | exact IH3].
Qed.

Section RowIdentity.

Variable env : Collaborators.

Lemma run_end_segments (r : Result unit) (w' : World) :
  segments (live (exec (emit EvGateRelease) (exec (conclude r) w'))) = segments (live w') /\
  run_total (exec (emit EvGateRelease) (exec (conclude r) w')) = run_total w'.
Proof. destruct r as [[] | e]; split; reflexivity. Qed.

Lemma run_after_setup_rows (w : World) :
  let wf := exec (run_after_setup env) w in
  let rows := materialized env (session_obj (live w)) (segments (live w)) in
  length (segments (live wf)) = length rows /\
  run_total wf = length rows /\
  forall i s, rows !! i = Some s ->
    exists s', segments (live wf) !! i = Some s' /\ row_kept s s'.
Proof.
  intros wf rows. subst wf. rewrite run_after_setup_exec.
  set (mode := effective_mode _). set (m := run_stages env mode).
  destruct (run_end_segments (outcome m (prepared env w)) (exec m (prepared env w)))
    as [-> ->].
  split; [| split].
  - unfold m. rewrite run_stages_length. reflexivity.
  - unfold m. rewrite (run_stages_keeps_total env mode (prepared env w)). reflexivity.
  - intros i s Hs. apply (run_stages_kept env mode (prepared env w) i s Hs).
Qed.

End RowIdentity.

(** From the point where the services of the run are built:
    a run never changes which rows there are: their number, and the
    session, index and original text of each, are those of the rows it
    found, or of the rows it created when it found none; and
    total_segments is that number at the end of every run, also of one
    that raises. *)
Lemma row_identity_after_setup (env : Collaborators) (w : World) :
  let wf := exec (run_after_setup env) w in
  let rows := materialized env (session_obj (live w)) (segments (live w)) in
  length (segments (live wf)) = length rows /\
  total_segments (session_obj (live wf)) = length rows /\
  original_text <$> segments (live wf) = original_text <$> rows /\
  segment_index <$> segments (live wf) = segment_index <$> rows /\
  seg_session_id <$> segments (live wf) = seg_session_id <$> rows.
Proof.
  intros wf rows.
  destruct (run_after_setup_rows env w) as (Hlen & Htot & Hk).
  fold wf rows in Hlen, Htot, Hk.
  split; [exact Hlen |]. split; [exact Htot |].
  repeat split; apply kept_fmap; try exact Hlen; intros i s Hs;
    destruct (Hk i s Hs) as (s' & Hs' & Hkept); exists s'; (split; [exact Hs' |]);
    apply Hkept.
Qed.

(** From the point where the services of the run are built:
    no run takes back what a row holds: a row flagged as a title stays
    flagged, and an output text or a completion time that is set is still
    set after the run, whatever the run did and however it ended. *)
Lemma never_clears_after_setup (env : Collaborators) (w : World) (i : nat) (s : Segment) :
  segments (live w) !! i = Some s ->
  exists s',
    segments (live (exec (run_after_setup env) w)) !! i = Some s' /\
    (is_title s = true -> is_title s' = true) /\
    (polished_text s <> None -> polished_text s' <> None) /\
    (enhanced_text s <> None -> enhanced_text s' <> None) /\
    (seg_completed_at s <> None -> seg_completed_at s' <> None).
Proof.
  intros Hs. destruct (run_after_setup_kept env w i s Hs) as (s' & Hs' & Hk).
  exists s'. split; [exact Hs' |]. apply Hk.
Qed.

(** From the point where the services of the run are built:
    rows are created only by a run that finds none: then they are the
    pieces of the segmenter in document order, indexed from 0, and
    total_segments is their number.  A run that finds rows does not
    consult the segmenter. *)
Lemma rows_created_after_setup (env : Collaborators) (w : World) :
  let run := run_after_setup env in
  let texts := split_text_into_segments env (run_original_text (session_obj (live w))) in
  (segments (live w) = [] ->
     original_text <$> segments (live (exec run w)) = texts /\
     segment_index <$> segments (live (exec run w)) = Z.of_nat <$> seq 0 (length texts) /\
     total_segments (session_obj (live (exec run w))) = length texts /\
     In (EvSplit (length texts)) (events_of run w)) /\
  (segments (live w) <> [] ->
     segments (live (prepared env w)) = segments (live w) /\
     forall n, ~ In (EvSplit n) (events_of run w)).
Proof.
  intros run texts. split.
  - intros Hnil.
    destruct (run_after_setup_rows env w) as (Hlen & Htot & Hk).
    rewrite Hnil in Hlen, Htot, Hk. simpl in Hlen, Htot, Hk. unfold new_segments in *.
    fold texts in Hlen, Htot, Hk.
    destruct (new_segments_fields (run_id (session_obj (live w))) texts 0) as (Ho & Hi & _).
    cbv zeta in Ho, Hi.
    rewrite length_map, length_enumerate_from in Hlen, Htot.
    split; [| split; [| split; [exact Htot |]]].
    3: { unfold run. rewrite run_after_setup_events, Hnil.
         apply in_or_app. right. left. reflexivity. }
    + etransitivity; [| exact Ho]. apply kept_fmap.
      * intros i s Hs. destruct (Hk i s Hs) as (s' & Hs' & Hkept). exists s'.
        split; [exact Hs' | apply Hkept].
      * rewrite length_map, length_enumerate_from. exact Hlen.
    + etransitivity; [| exact Hi]. apply kept_fmap.
      * intros i s Hs. destruct (Hk i s Hs) as (s' & Hs' & Hkept). exists s'.
        split; [exact Hs' | apply Hkept].
      * rewrite length_map, length_enumerate_from. exact Hlen.
  - intros Hsome. split.
    + simpl. destruct (segments (live w)); [congruence | reflexivity].
    + intros n Hin. unfold run in Hin. rewrite run_after_setup_events in Hin.
      apply in_app_or in Hin as [Hin | Hin].
      { unfold admission_events, poll_events in Hin.
        destruct (gate_acquire env); simpl in Hin.
        - destruct Hin as [Hin | [Hin | []]]; discriminate.
        - destruct Hin as [Hin | [Hin | Hin]]; try discriminate.
          apply in_app_or in Hin as [Hin | Hin].
          + apply in_app_or in Hin as [Hin | Hin].
            * apply repeat_spec in Hin. discriminate.
            * destruct Hin as [Hin | []]. discriminate.
          + destruct Hin as [Hin | []]. discriminate. }
      apply in_app_or in Hin as [Hin | Hin].
      { destruct (segments (live w)); [congruence | destruct Hin]. }
      apply in_app_or in Hin as [Hin | Hin].
      { pose proof (run_stages_events env
                      (effective_mode (session_obj (live (prepared env w))))
                      (prepared env w)) as Hst.
        rewrite List.Forall_forall in Hst. apply Hst in Hin. exact Hin. }
      destruct Hin as [Hin | [Hin | []]]; discriminate.
Qed.

(** ** Outputs and inputs of the stages *)

Section Outputs.

Variable env : Collaborators.

Lemma truthy_set (t : option string) : truthy t = true -> t <> None.
Proof. destruct t; [discriminate | discriminate]. Qed.

Lemma segment_step_output (stage : Stage) (k : nat) (s : Segment) (w w1 : World)
    (hc : list Turn * Z) (evs : list Event) :
  segments (live w) !! k = Some s ->
  segment_step env stage k s w w1 (Ok hc) evs ->
  exists s1, segments (live w1) !! k = Some s1 /\ stage_output stage s1 <> None.
Proof.
  intros Hs [Ht Hrows _ _ | -> _ _ Hrow _ _ | _ _ _ Hrow _ _ | e _ _ _ _ _ Hr _ _
            | out s' evs' _ _ _ Hrow Hout _ _ _].
  - exists s. rewrite Hrows. split; [exact Hs | apply truthy_set, Ht].
  - eexists. split; [exact Hrow | discriminate].
  - eexists. split; [exact Hrow |]. unfold stage_output, mark_title.
    destruct (is_enhance stage); discriminate.
  - discriminate Hr.
  - exists s'. split; [exact Hrow | congruence].
Qed.

Lemma loop_run_outputs (stage : Stage) (n k : nat) (l : list Segment) (w : World)
    (r : Result unit) (w' : World) (evs : list Event) :
  loop_run env stage n k l w r w' evs -> r = Ok tt ->
  forall i s', (k <= i < k + length l)%nat ->
    segments (live w') !! i = Some s' -> stage_output stage s' <> None.
Proof.
  induction 1 as [k w | k seg0 l s0 w w1 hc evs r w2 evs2 Hs Hrows Hstep Hrun IH
                 | k seg0 l s0 w w1 e evs Hs Hrows Hstep]; intros Hok i s' Hi Hrow.
  - simpl in Hi. lia.
  - destruct (decide (i = k)) as [-> | Hne].
    + destruct (segment_step_output _ _ _ _ _ _ _ Hs Hstep) as (s1 & Hs1 & Hout).
      apply loop_run_rows in Hrun as [_ Hframe].
      rewrite Hframe in Hrow by lia. congruence.
    + apply (IH Hok i s'); [simpl in Hi; lia | exact Hrow].
  - discriminate Hok.
Qed.

(** a stage that returns, begun with no checkpoint, leaves every row with
    the output of the stage set *)
Lemma process_stage_outputs (stage : Stage) (w : World) :
  checkpoint w = None ->
  outcome (process_stage env stage) w = Ok tt ->
  forall i s', segments (live (exec (process_stage env stage) w)) !! i = Some s' ->
    stage_output stage s' <> None.
Proof.
  intros Hc Ho i s' Hrow.
  destruct (process_stage_run env stage w) as (w0 & evs & Hsegs & _ & _ & Hrun).
  rewrite Hc in Hrun. simpl in Hrun. rewrite drop_0 in Hrun.
  apply (loop_run_outputs _ _ _ _ _ _ _ _ Hrun Ho i s'); [| exact Hrow].
  apply lookup_lt_Some in Hrow. rewrite process_stage_length in Hrow. lia.
Qed.

Lemma stage_output_kept (stage : Stage) (s s' : Segment) :
  row_kept s s' -> stage_output stage s <> None -> stage_output stage s' <> None.
Proof.
  intros (_ & _ & _ & _ & Hp & He & _). unfold stage_output.
  destruct (is_enhance stage); assumption.
Qed.

Lemma run_stage_list_kept (stages : list Stage) :
  preserves rows_kept (run_stage_list env stages).
Proof.
  induction stages as [| stage rest IH]; simpl.
  - apply preserves_ret. typeclasses eauto.
  - apply preserves_bind; [typeclasses eauto | apply process_stage_kept | intros _; exact IH].
Qed.

Lemma run_stage_list_outputs (stages : list Stage) : forall w,
  checkpoint w = None ->
  outcome (run_stage_list env stages) w = Ok tt ->
  forall stage, In stage stages ->
  forall i s', segments (live (exec (run_stage_list env stages) w)) !! i = Some s' ->
    stage_output stage s' <> None.
Proof.
  induction stages as [| st rest IH]; intros w Hc Ho stage Hin i s' Hrow; [destruct Hin |].
  rewrite run_stage_list_outcome in Ho. rewrite run_stage_list_exec in Hrow.
  destruct (outcome (process_stage env st) w) as [[] | e] eqn:Hst; [| discriminate].
  assert (Hc' : checkpoint (exec (process_stage env st) w) = None).
  { rewrite <- Hc. exact (process_stage_keeps_checkpoint env st w tt Hst). }
  destruct Hin as [<- | Hin]; [| exact (IH _ Hc' Ho stage Hin i s' Hrow)].
  assert (Hlt : (i < length (segments (live (exec (process_stage env st) w))))%nat).
  { apply lookup_lt_Some in Hrow. rewrite run_stage_list_length in Hrow. exact Hrow. }
  apply lookup_lt_is_Some in Hlt as [s1 Hs1].
  destruct (run_stage_list_kept rest _ i s1 Hs1) as (s2 & Hs2 & Hk).
  assert (s2 = s') by congruence. subst s2.
  eapply stage_output_kept; [exact Hk |].
  exact (process_stage_outputs st w Hc Hst i s1 Hs1).
Qed.

End Outputs.

(** From the point where the services of the run are built:
    a run that returns leaves no row without the output of any stage of
    its mode: polished_text is set in every row, and enhanced_text too
    when the mode includes the enhance stage. *)
Lemma fills_outputs_after_setup (env : Collaborators) (w : World) (stages : list Stage)
    (stage : Stage) (i : nat) (s' : Segment) :
  let run := run_after_setup env in
  stages_of_mode (effective_mode (session_obj (live w))) = Some stages ->
  outcome run w = Ok tt ->
  In stage stages ->
  segments (live (exec run w)) !! i = Some s' ->
  stage_output stage s' <> None.
Proof.
  intros run Hmode Ho Hin Hrow. subst run.
  rewrite run_after_setup_outcome in Ho. rewrite run_after_setup_exec in Hrow.
  change (effective_mode (session_obj (live (prepared env w))))
    with (effective_mode (session_obj (live w))) in *.
  set (mode := effective_mode (session_obj (live w))) in *.
  assert (Hm : run_stages env mode (prepared env w) = run_stage_list env stages (prepared env w)).
  { rewrite run_stages_mapping, Hmode. reflexivity. }
  unfold outcome in Ho. unfold exec at 3, outcome in Hrow. rewrite Hm in Ho, Hrow.
  fold (outcome (run_stage_list env stages) (prepared env w)) in Ho, Hrow.
  fold (exec (run_stage_list env stages) (prepared env w)) in Hrow.
  rewrite Ho in Hrow.
  exact (run_stage_list_outputs env stages (prepared env w) eq_refl Ho stage Hin i s' Hrow).
Qed.

Section Inputs.

Variable env : Collaborators.

(** the text handed to the generative collaborator for a row is the
    stage input of the row as the stage found it *)
Lemma loop_run_call_input (stage : Stage) (n k : nat) (l : list Segment) (w : World)
    (r : Result unit) (w' : World) (evs : list Event) :
  loop_run env stage n k l w r w' evs ->
  forall i st input reply, In (EvGenerate i st input reply) evs ->
    st = stage /\ (k <= i)%nat /\
    exists s, segments (live w) !! i = Some s /\ input = stage_input stage s.
Proof.
  induction 1 as [k w | k seg0 l s0 w w1 hc evs r w2 evs2 Hs Hrows Hstep Hrun IH
                 | k seg0 l s0 w w1 e evs Hs Hrows Hstep]; intros i st input reply Hin.
  - destruct Hin.
  - destruct Hin as [Hin | Hin]; [discriminate |].
    apply in_app_or in Hin as [Hin | Hin].
    + destruct (segment_step_generate _ _ _ _ _ _ _ _ _ _ _ _ Hstep Hin) as (-> & -> & -> & _).
      split; [reflexivity |]. split; [lia |]. exists s0. split; [exact Hs | reflexivity].
    + destruct (IH i st input reply Hin) as (-> & Hle & s & Hrow & ->).
      split; [reflexivity |]. split; [lia |]. exists s. split; [| reflexivity].
      destruct Hrows as [_ Hframe]. rewrite <- Hframe by lia. exact Hrow.
  - destruct Hin as [Hin | Hin]; [discriminate |].
    destruct (segment_step_generate _ _ _ _ _ _ _ _ _ _ _ _ Hstep Hin) as (-> & -> & -> & _).
    split; [reflexivity |]. split; [lia |]. exists s0. split; [exact Hs | reflexivity].
Qed.

Lemma process_stage_call_input (stage : Stage) (w : World) (i : nat) (st : Stage)
    (input : option string) (reply : Result string) :
  In (EvGenerate i st input reply) (events_of (process_stage env stage) w) ->
  st = stage /\ exists s, segments (live w) !! i = Some s /\ input = stage_input stage s.
Proof.
  destruct (process_stage_run env stage w) as (w0 & evs & Hsegs & _ & -> & Hrun).
  intros [Hin | Hin]; [discriminate |].
  destruct (loop_run_call_input _ _ _ _ _ _ _ _ Hrun i st input reply Hin)
    as (-> & _ & s & Hrow & ->).
  split; [reflexivity |]. exists s. rewrite <- Hsegs. split; [exact Hrow | reflexivity].
Qed.

Lemma stages_of_mode_cases (mode : string) (stages : list Stage) :
  stages_of_mode mode = Some stages ->
  stages = [Polish] \/ stages = [EmotionPolish] \/ stages = [Polish; Enhance].
Proof.
  unfold stages_of_mode.
  destruct (String.eqb mode "paper_polish"); [intros [= <-]; auto |].
  destruct (String.eqb mode "emotion_polish"); [intros [= <-]; auto |].
  destruct (String.eqb mode "paper_polish_enhance"); [intros [= <-]; auto | discriminate].
Qed.

Lemma polish_like_input (stage : Stage) (s : Segment) :
  polish_like stage = true -> stage_input stage s <> None.
Proof. destruct stage; simpl; discriminate. Qed.

Lemma run_stage_list_inputs (stages : list Stage) (w : World) :
  stages = [Polish] \/ stages = [EmotionPolish] \/ stages = [Polish; Enhance] ->
  checkpoint w = None ->
  forall i st input reply,
    In (EvGenerate i st input reply) (events_of (run_stage_list env stages) w) ->
    input <> None.
Proof.
  intros Hstages Hc i st input reply Hin.
  assert (Hnil : forall w', events_of (run_stage_list env []) w' = []).
  { intros w'. unfold events_of, exec. simpl. apply drop_all. }
  destruct Hstages as [-> | [-> | ->]]; rewrite run_stage_list_events in Hin.
  - rewrite Hnil in Hin. destruct (outcome _ _) as [[] |]; rewrite app_nil_r in Hin;
      apply process_stage_call_input in Hin as (_ & s & _ & ->);
      apply polish_like_input; reflexivity.
  - rewrite Hnil in Hin. destruct (outcome _ _) as [[] |]; rewrite app_nil_r in Hin;
      apply process_stage_call_input in Hin as (_ & s & _ & ->);
      apply polish_like_input; reflexivity.
  - apply in_app_or in Hin as [Hin | Hin].
    + apply process_stage_call_input in Hin as (_ & s & _ & ->).
      apply polish_like_input; reflexivity.
    + destruct (outcome (process_stage env Polish) w) as [[] | e] eqn:Ho; [| destruct Hin].
      rewrite run_stage_list_events, Hnil in Hin.
      assert (Hin' : In (EvGenerate i st input reply)
                       (events_of (process_stage env Enhance)
                          (exec (process_stage env Polish) w))).
      { destruct (outcome (process_stage env Enhance) _) as [[] |];
          rewrite app_nil_r in Hin; exact Hin. }
      apply process_stage_call_input in Hin' as (_ & s & Hrow & ->).
      exact (process_stage_outputs env Polish w Hc Ho i s Hrow).
Qed.

End Inputs.

(** From the point where the services of the run are built:
    during a run the generative collaborator is never called without an
    input text: the polish stages hand it the original text of the row,
    and the enhance stage, which a run begins only after its polish stage
    has returned, finds a polished text in every row. *)
Lemma carry_input_after_setup (env : Collaborators) (w : World) (i : nat) (st : Stage)
    (input : option string) (reply : Result string) :
  In (EvGenerate i st input reply) (events_of (run_after_setup env) w) ->
  exists text, input = Some text.
Proof.
  intros Hin. rewrite run_after_setup_events in Hin.
  cut (input <> None); [destruct input as [text |]; [eauto | congruence] |].
  apply in_app_or in Hin as [Hin | Hin].
  { exfalso. eapply (setup_events_no_stage _ (admission_events_setup env)), Hin. }
  apply in_app_or in Hin as [Hin | Hin].
  { exfalso. eapply (setup_events_no_stage _ (split_events_setup env _ _)), Hin. }
  apply in_app_or in Hin as [Hin | Hin]; [| destruct Hin as [Hin | [Hin | []]]; discriminate].
  unfold events_of, exec in Hin. rewrite run_stages_mapping in Hin.
  destruct (stages_of_mode _) as [stages |] eqn:Hmode.
  - apply stages_of_mode_cases in Hmode.
    exact (run_stage_list_inputs env stages (prepared env w) Hmode eq_refl i st input reply Hin).
  - simpl in Hin. rewrite drop_all in Hin. destruct Hin.
Qed.

(** ** A run over populated rows *)

Section Skipping.

Variable env : Collaborators.

Lemma process_segment_skip (stage : Stage) (prompt : string) (n : nat) (thr : Z)
    (idx : nat) (seg0 s : Segment) (history : list Turn) (total_chars : Z) (w : World) :
  segments (live w) !! idx = Some s ->
  truthy (stage_output stage s) = true ->
  process_segment env stage prompt n thr idx seg0 history total_chars w =
    (Ok (history, total_chars), progress_written stage n idx w).
Proof.
  intros Hs Ht.
  unfold process_segment, bind, modify_run, emit, commit, current_segment, gets. simpl.
  rewrite Hs. simpl.
  destruct stage; unfold stage_output in Ht; simpl in Ht; simpl; rewrite Ht; simpl;
    try reflexivity.
  rewrite andb_false_r. reflexivity.
Qed.

Lemma stage_loop_skips (stage : Stage) (prompt : string) (n : nat) (thr : Z)
    (items : list (nat * Segment)) :
  forall (history : list Turn) (total_chars : Z) (w : World),
    (forall idx seg0, In (idx, seg0) items ->
       exists s, segments (live w) !! idx = Some s /\ truthy (stage_output stage s) = true) ->
    exists w',
      stage_loop env stage prompt n thr items history total_chars w = (Ok tt, w') /\
      same_content w w' /\ (durable w = live w -> durable w' = live w') /\
      clock w' = clock w /\
      trace w' = trace w ++
        map (fun p => EvProgress (fst p) (stage_progress stage (fst p) n)) items.
Proof.
  induction items as [| [idx seg0] items IH]; intros history total_chars w Hall.
  - exists w. simpl. rewrite app_nil_r. unfold same_content.
    repeat split; intros; try reflexivity; assumption.
  - destruct (Hall idx seg0 (or_introl eq_refl)) as (s & Hs & Ht).
    cbn [stage_loop]. unfold bind at 1.
    rewrite (process_segment_skip stage prompt n thr idx seg0 s history total_chars w Hs Ht).
    destruct (IH history total_chars (progress_written stage n idx w)) as
      (w' & Hloop & Hsame & Hd & Hclock & Htrace).
    { intros idx' seg' Hin. apply (Hall idx' seg'). right. exact Hin. }
    exists w'. split; [exact Hloop |].
    destruct Hsame as (H1 & H2 & H3 & H4 & H5 & H6).
    split; [unfold same_content; repeat split; assumption |].
    split; [intros _; apply Hd; reflexivity |].
    split; [exact Hclock |].
    rewrite Htrace. simpl. rewrite <- app_assoc. reflexivity.
Qed.

Lemma enumerate_from_fst {A} (l : list A) : forall k,
  map fst (enumerate_from k l) = seq k (length l).
Proof.
  induction l as [| x l IH]; intros k; simpl; [reflexivity | rewrite IH; reflexivity].
Qed.

Lemma enumerate_from_lookup {A} (l : list A) : forall k idx x,
  In (idx, x) (enumerate_from k l) -> exists j, idx = (k + j)%nat /\ l !! j = Some x.
Proof.
  induction l as [| y l IH]; intros k idx x; simpl; [contradiction |].
  intros [[= <- <-] | Hin].
  - exists 0%nat. split; [lia | reflexivity].
  - apply IH in Hin as (j & -> & Hj). exists (S j). split; [lia | exact Hj].
Qed.

(** a stage that finds its output populated in every row steps over all
    of them *)
Lemma process_stage_skips (stage : Stage) (w : World) :
  checkpoint w = None ->
  Forall (fun s => truthy (stage_output stage s) = true) (segments (live w)) ->
  exists w',
    process_stage env stage w = (Ok tt, w') /\
    same_content w w' /\ durable w' = live w' /\ clock w' = clock w /\
    run_total w' = run_total w /\
    trace w' = trace w ++ skipping_stage_events (length (segments (live w))) stage.
Proof.
  intros Hc Hall. unfold checkpoint in Hc.
  unfold process_stage, bind, modify_run, commit, gets, emit. simpl. rewrite Hc. simpl.
  rewrite drop_0.
  match goal with
  | |- context [stage_loop ?e ?st ?p ?n ?thr ?items ?h ?t ?w1] =>
      destruct (stage_loop_skips st p n thr items h t w1)
        as (w' & Hloop & Hsame & Hd & Hclock & Htrace)
  end.
  { intros idx seg0 Hin. simpl. apply enumerate_from_lookup in Hin as (j & -> & Hj).
    exists seg0. split; [exact Hj |]. rewrite Forall_lookup in Hall. exact (Hall j seg0 Hj). }
  exists w'. split; [exact Hloop |].
  destruct Hsame as (H1 & H2 & H3 & H4 & H5 & H6).
  assert (Hkeep : run_total w' = run_total w).
  { pose proof (process_stage_keeps_total env stage w) as Hk. unfold keeps, exec in Hk.
    unfold process_stage, bind, modify_run, commit, gets, emit in Hk. simpl in Hk.
    rewrite Hc in Hk. simpl in Hk. rewrite drop_0 in Hk. rewrite Hloop in Hk. exact Hk. }
  split; [unfold same_content, checkpoint; repeat split; assumption |].
  split; [apply Hd; reflexivity |].
  split; [exact Hclock |]. split; [exact Hkeep |].
  rewrite Htrace. simpl. rewrite <- app_assoc. simpl. unfold skipping_stage_events.
  do 2 f_equal. rewrite <- (enumerate_from_fst (segments (live w)) 0), map_map.
  reflexivity.
Qed.

End Skipping.

Section SkippingRun.

Variable env : Collaborators.

Lemma run_stage_list_skips (stages : list Stage) : forall w,
  checkpoint w = None ->
  (forall stage, In stage stages ->
     Forall (fun s => truthy (stage_output stage s) = true) (segments (live w))) ->
  exists w',
    run_stage_list env stages w = (Ok tt, w') /\
    same_content w w' /\
    trace w' = trace w
      ++ flat_map (skipping_stage_events (length (segments (live w)))) stages.
Proof.
  induction stages as [| stage rest IH]; intros w Hc Hall.
  - exists w. simpl. rewrite app_nil_r. unfold same_content. repeat split; reflexivity.
  - destruct (process_stage_skips env stage w Hc (Hall stage (or_introl eq_refl)))
      as (w1 & Hst & Hsame & _ & _ & _ & Htrace).
    destruct Hsame as (H1 & H2 & H3 & H4 & H5 & H6).
    destruct (IH w1) as (w' & Hrest & Hsame' & Htrace').
    { rewrite H6. exact Hc. }
    { intros st Hin. rewrite H1. apply Hall. right. exact Hin. }
    destruct Hsame' as (K1 & K2 & K3 & K4 & K5 & K6).
    exists w'. split; [| split].
    + cbn [run_stage_list]. unfold bind. rewrite Hst. exact Hrest.
    + unfold same_content. repeat split; congruence.
    + rewrite Htrace', Htrace, H1. simpl. rewrite <- app_assoc. reflexivity.
Qed.

End SkippingRun.

(** From the point where the services of the run are built:
    a run over rows that already hold the output of every stage of its
    mode does no work: it writes the progress of each row of each stage
    and completes, without a call to the generative or to the summarising
    collaborator, and leaves the rows, the audit table and the snapshots
    as they were. *)
Lemma no_work_after_setup (env : Collaborators) (w : World) (stages : list Stage) :
  let run := run_after_setup env in
  let n := length (segments (live w)) in
  segments (live w) <> [] ->
  stages_of_mode (effective_mode (session_obj (live w))) = Some stages ->
  (forall stage s, In stage stages -> In s (segments (live w)) ->
     truthy (stage_output stage s) = true) ->
  outcome run w = Ok tt /\
  events_of run w =
    admission_events env ++ flat_map (skipping_stage_events n) stages
      ++ [EvRunStatus RunCompleted; EvGateRelease] /\
  segments (live (exec run w)) = segments (live w) /\
  change_logs (live (exec run w)) = change_logs (live w) /\
  histories (live (exec run w)) = histories (live w).
Proof.
  intros run n Hsome Hmode Hall. subst run.
  assert (Hsegs : segments (live (prepared env w)) = segments (live w)).
  { simpl. destruct (segments (live w)); [congruence | reflexivity]. }
  destruct (run_stage_list_skips env stages (prepared env w) eq_refl) as (w' & Hrun & Hsame & Htrace).
  { intros stage Hin. rewrite Hsegs. apply List.Forall_forall. intros s Hs.
    apply (Hall stage s Hin Hs). }
  assert (Hm : run_stages env (effective_mode (session_obj (live (prepared env w))))
                 (prepared env w) = (Ok tt, w')).
  { change (effective_mode (session_obj (live (prepared env w))))
      with (effective_mode (session_obj (live w))).
    rewrite run_stages_mapping, Hmode. exact Hrun. }
  set (m := run_stages env (effective_mode (session_obj (live (prepared env w))))) in *.
  assert (Ho : outcome m (prepared env w) = Ok tt) by (unfold outcome; rewrite Hm; reflexivity).
  assert (Hex : exec m (prepared env w) = w') by (unfold exec; rewrite Hm; reflexivity).
  assert (Hev : events_of m (prepared env w) = flat_map (skipping_stage_events n) stages).
  { unfold events_of. rewrite Hex, Htrace, Hsegs. apply drop_app_length. }
  rewrite run_after_setup_outcome, run_after_setup_events, run_after_setup_exec.
  fold m. rewrite Ho, Hev, Hex.
  destruct Hsame as (H1 & H2 & H3 & _).
  split; [reflexivity |]. split; [| split; [| split]].
  - destruct (segments (live w)); [congruence | reflexivity].
  - simpl. rewrite H1. exact Hsegs.
  - simpl. rewrite H2. reflexivity.
  - simpl. rewrite H3. reflexivity.
Qed.

(** ** The snapshots of the history *)

#[global] Instance snapshots_added_preorder (env : Collaborators) :
  PreOrder (snapshots_added env).
Proof.
  split.
  - intros w. split; [reflexivity |]. exists []. split; [symmetry; apply app_nil_r | constructor].
  - intros w1 w2 w3 [Hid1 (a1 & H1 & F1)] [Hid2 (a2 & H2 & F2)].
    split; [congruence |]. exists (a1 ++ a2). split.
    + rewrite H2, H1, app_assoc. reflexivity.
    + apply Forall_app. split; [exact F1 |]. rewrite Hid1 in F2. exact F2.
Qed.

Section Returns.

Lemma returns_ret {A} (P : A -> Prop) (a : A) : P a -> returns P (ret a).
Proof. intros Ha w a' [= <-]. exact Ha. Qed.

Lemma returns_bind {A B} (P : B -> Prop) (m : M A) (k : A -> M B) :
  (forall a, returns P (k a)) -> returns P (bind m k).
Proof.
  intros Hk w b. unfold outcome, bind. destruct (m w) as [[a | e] w1] eqn:Hm; simpl.
  - apply (Hk a w1 b).
  - discriminate.
Qed.

Lemma returns_try_except {A} (P : A -> Prop) (m : M A) (h : string -> M A) :
  returns P m -> (forall e, fails (h e)) -> returns P (try_except m h).
Proof.
  intros Hm Hh w a. unfold outcome, try_except.
  destruct (m w) as [[a' | e] w1] eqn:Em; simpl.
  - intros [= <-]. apply (Hm w a'). unfold outcome. rewrite Em. reflexivity.
  - intros Ho. exfalso. exact (Hh e w1 a Ho).
Qed.

Lemma preserves_bind_returns (R : World -> World -> Prop) {HR : PreOrder R} {A B}
    (Q : A -> Prop) (m : M A) (k : A -> M B) :
  preserves R m -> returns Q m -> (forall a, Q a -> preserves R (k a)) ->
  preserves R (bind m k).
Proof.
  intros Hm Hq Hk w. unfold exec, bind.
  pose proof (Hm w) as H1. pose proof (Hq w) as H2. unfold exec, outcome in H1, H2.
  destruct (m w) as [[a | e] w1]; simpl in *; [| exact H1].
  etransitivity; [exact H1 |]. apply (Hk a (H2 a eq_refl) w1).
Qed.

End Returns.

Lemma returns_bind_dep {A B} (Q : A -> Prop) (P : B -> Prop) (m : M A) (k : A -> M B) :
  returns Q m -> (forall a, Q a -> returns P (k a)) -> returns P (bind m k).
Proof.
  intros Hm Hk w b. unfold outcome, bind.
  pose proof (Hm w) as Hq. unfold outcome in Hq.
  destruct (m w) as [[a | e] w1]; simpl in *; [| discriminate].
  apply (Hk a (Hq a eq_refl) w1 b).
Qed.

Ltac snapshots_leaf :=
  prim_exec; split; [reflexivity |];
  exists []; split; [symmetry; apply app_nil_r | constructor].

Section Snapshots.

Variable env : Collaborators.

Lemma save_history_snapshot (hc : list Turn * Z) (stage : Stage) :
  history_ok env hc ->
  preserves (snapshots_added env) (save_history (fst hc) stage (snd hc)).
Proof.
  intros (Hne & Hw & Hb) w. unfold exec, save_history, bind, gets, add_history, commit.
  simpl. split; [reflexivity |]. eexists. split; [reflexivity |].
  constructor; [| constructor]. unfold snapshot_ok. simpl. repeat split; assumption.
Qed.

Lemma compress_history_snapshots (history : list Turn) (stage : Stage) :
  preserves (snapshots_added env) (compress_history env history stage).
Proof. pres snapshots_leaf. Qed.

Lemma compress_history_returns (history : list Turn) (stage : Stage) :
  history <> [] ->
  returns (fun h => h <> [] /\ single_system_turn h = true)
    (compress_history env history stage).
Proof.
  intros Hne w h Ho.
  destruct (single_system_turn history) eqn:Hs.
  - unfold outcome in Ho. rewrite (compress_history_compressed env history stage w Hs) in Ho.
    injection Ho as <-. split; [exact Hne | exact Hs].
  - rewrite (compress_history_fresh env history stage w Hs) in Ho.
    destruct (ai_compress env _ _ _) as [s | e]; [| discriminate].
    injection Ho as <-. split; [discriminate | reflexivity].
Qed.

Lemma record_and_save_snapshots (stage : Stage) (segment : Segment)
    (input : option string) (output : string) (history : list Turn) (total_chars : Z) :
  total_chars = history_weight env history ->
  preserves (snapshots_added env)
    (record_and_save env stage segment input output history total_chars) /\
  returns (fun hc => snd hc = history_weight env (fst hc))
    (record_and_save env stage segment input output history total_chars).
Proof.
  intros Hinv.
  set (history' := history ++ [mkTurn "assistant" output]).
  set (total' := (total_chars + count_chinese_characters env output)%Z).
  assert (Hw' : total' = history_weight env history').
  { unfold total', history'. rewrite history_weight_app, Hinv.
    unfold history_weight at 3. simpl. lia. }
  assert (Hne' : history' <> []).
  { unfold history'. destruct history; discriminate. }
  set (grow := if (HISTORY_COMPRESSION_THRESHOLD env <? total')%Z
               then compressed_history <- compress_history env history' stage ;;
                    ret (compressed_history, history_weight env compressed_history)
               else ret (history', total')).
  assert (Hgrow_pres : preserves (snapshots_added env) grow).
  { unfold grow. destruct (HISTORY_COMPRESSION_THRESHOLD env <? total')%Z.
    - apply preserves_bind; [typeclasses eauto | apply compress_history_snapshots |].
      intros h. apply preserves_ret. typeclasses eauto.
    - apply preserves_ret. typeclasses eauto. }
  assert (Hgrow_ret : returns (history_ok env) grow).
  { unfold grow. destruct (HISTORY_COMPRESSION_THRESHOLD env <? total')%Z eqn:Hthr.
    - eapply returns_bind_dep; [apply compress_history_returns; exact Hne' |].
      intros h [Hh Hs]. apply returns_ret. unfold history_ok. simpl. auto.
    - apply returns_ret. unfold history_ok. simpl.
      split; [exact Hne' |]. split; [exact Hw' |]. left. apply Z.ltb_ge. exact Hthr. }
  split.
  - unfold record_and_save. fold history' total' grow.
    apply preserves_bind; [typeclasses eauto | | intros _].
    { pres snapshots_leaf. }
    apply (preserves_bind_returns _ (history_ok env)); [exact Hgrow_pres | exact Hgrow_ret |].
    intros hc Hhc. apply preserves_bind; [typeclasses eauto | | intros _].
    + apply save_history_snapshot, Hhc.
    + apply preserves_ret. typeclasses eauto.
  - unfold record_and_save. fold history' total' grow.
    apply returns_bind. intros _.
    eapply returns_bind_dep; [exact Hgrow_ret |].
    intros hc (_ & Hhc & _). apply returns_bind. intros _. apply returns_ret. exact Hhc.
Qed.

End Snapshots.

Ltac returns_step :=
  lazymatch goal with
  | |- returns _ (bind _ _) => apply returns_bind; intros ?
  | |- returns _ (ret _) => apply returns_ret; simpl; assumption
  | |- returns _ (try_except _ _) =>
      apply returns_try_except; [| apply segment_failed_fails]
  | |- returns _ (if ?b then _ else _) => destruct b
  | |- returns _ (match ?x with _ => _ end) => destruct x
  | |- _ => progress unfold attempt_segment, process_segment; cbv zeta
  end.

Section SnapshotsOfRun.

Variable env : Collaborators.

Lemma record_and_save_adds (stage : Stage) (segment : Segment)
    (input : option string) (output : string) (history : list Turn) (total_chars : Z) :
  total_chars = history_weight env history ->
  preserves (snapshots_added env)
    (record_and_save env stage segment input output history total_chars).
Proof. intros H. apply record_and_save_snapshots, H. Qed.

Lemma record_and_save_weight (stage : Stage) (segment : Segment)
    (input : option string) (output : string) (history : list Turn) (total_chars : Z) :
  total_chars = history_weight env history ->
  returns (fun hc => snd hc = history_weight env (fst hc))
    (record_and_save env stage segment input output history total_chars).
Proof. intros H. apply record_and_save_snapshots, H. Qed.

Lemma process_segment_snapshots (stage : Stage) (prompt : string) (n : nat) (thr : Z)
    (idx : nat) (seg0 : Segment) (history : list Turn) (total_chars : Z) :
  total_chars = history_weight env history ->
  preserves (snapshots_added env)
    (process_segment env stage prompt n thr idx seg0 history total_chars).
Proof.
  intros Hinv.
  pres ltac:(first [ apply record_and_save_adds; assumption | snapshots_leaf ]).
Qed.

Lemma process_segment_weight (stage : Stage) (prompt : string) (n : nat) (thr : Z)
    (idx : nat) (seg0 : Segment) (history : list Turn) (total_chars : Z) :
  total_chars = history_weight env history ->
  returns (fun hc => snd hc = history_weight env (fst hc))
    (process_segment env stage prompt n thr idx seg0 history total_chars).
Proof.
  intros Hinv.
  repeat first [ apply record_and_save_weight; assumption | returns_step ].
Qed.

Lemma stage_loop_snapshots (stage : Stage) (prompt : string) (n : nat) (thr : Z)
    (items : list (nat * Segment)) :
  forall history total_chars,
    total_chars = history_weight env history ->
    preserves (snapshots_added env)
      (stage_loop env stage prompt n thr items history total_chars).
Proof.
  induction items as [| [idx seg0] items IH]; intros history total_chars Hinv; simpl.
  - apply preserves_ret. typeclasses eauto.
  - apply (preserves_bind_returns _ (fun hc => snd hc = history_weight env (fst hc))).
    + apply process_segment_snapshots, Hinv.
    + apply process_segment_weight, Hinv.
    + intros hc Hhc. apply IH, Hhc.
Qed.

Lemma process_stage_snapshots (stage : Stage) :
  preserves (snapshots_added env) (process_stage env stage).
Proof.
  unfold process_stage. pres snapshots_leaf.
  apply stage_loop_snapshots. rewrite initial_history_from. simpl. lia.
Qed.

Lemma run_after_setup_snapshots :
  preserves (snapshots_added env) (run_after_setup env).
Proof.
  pose proof process_stage_snapshots as Hstage.
  assert (Hwait : preserves (snapshots_added env) (wait_until_active (gate_polls env))).
  { apply wait_until_active_preserves; [typeclasses eauto |]. intros e. snapshots_leaf. }
  unfold run_after_setup, body_after_setup, run_stages.
  pres ltac:(first [ snapshots_leaf | apply Hstage | exact Hwait ]).
Qed.

End SnapshotsOfRun.

(** From the point where the services of the run are built:
    the snapshots of the history are append-only, and those a run adds
    stay within the compression threshold: each is a non-empty history of
    this run whose counted length is at most the threshold, unless it is a
    single system turn, which is exactly when it is flagged compressed. *)
Lemma snapshots_bounded_after_setup (env : Collaborators) (w : World) :
  exists added,
    histories (live (exec (run_after_setup env) w)) = histories (live w) ++ added /\
    Forall (fun h =>
              hist_session_id h = run_id (session_obj (live w)) /\
              history_data h <> [] /\
              (is_compressed h = true <-> single_system_turn (history_data h) = true) /\
              ((character_count h <= HISTORY_COMPRESSION_THRESHOLD env)%Z \/
               (is_compressed h = true /\ length (history_data h) = 1%nat))) added.
Proof.
  destruct (run_after_setup_snapshots env w) as [_ (added & Hadd & Hok)].
  exists added. split; [exact Hadd |].
  eapply Forall_impl; [exact Hok |].
  intros h (Hid & Hne & _ & Hc & Hb). split; [exact Hid |]. split; [exact Hne |].
  split; [rewrite Hc; reflexivity |].
  destruct Hb as [Hb | Hb]; [left; exact Hb | right]. split; [exact Hb |].
  rewrite Hc in Hb. destruct (history_data h) as [| t [| t' l]]; try discriminate.
  reflexivity.
Qed.

(** From the point where the services of the run are built:
    the character count a run records with a snapshot is the counted
    length of the turns of that snapshot: the running total that the loop
    carries, from the load of the earlier outputs through every reply and
    every compression, never drifts from the history it belongs to. *)
Lemma snapshot_count_after_setup (env : Collaborators) (w : World) (h : SessionHistory) :
  In h (histories (live (exec (run_after_setup env) w))) ->
  In h (histories (live w)) \/
  character_count h = history_weight env (history_data h).
Proof.
  destruct (run_after_setup_snapshots env w) as [_ (added & -> & Hok)].
  intros Hin. apply in_app_or in Hin as [Hin | Hin]; [left; exact Hin | right].
  rewrite List.Forall_forall in Hok. apply (Hok h Hin).
Qed.

(** ** Rows settled for the enhance stage *)

#[global] Instance rows_stay_settled_preorder : PreOrder rows_stay_settled.
Proof.
  split.
  - intros w i s Hs. exists s. split; [exact Hs | auto].
  - intros w1 w2 w3 H12 H23 i s Hs.
    destruct (H12 i s Hs) as (s2 & Hs2 & Hk2).
    destruct (H23 i s2 Hs2) as (s3 & Hs3 & Hk3).
    exists s3. split; [exact Hs3 | auto].
Qed.

Lemma modify_segment_settled (idx : nat) (f : Segment -> Segment) :
  (forall s, enhance_settled s = true -> enhance_settled (f s) = true) ->
  preserves rows_stay_settled (modify_segment idx f).
Proof.
  intros Hf w i s Hs. unfold exec, modify_segment. simpl.
  destruct (decide (idx = i)) as [-> | Hne].
  - exists (f s). rewrite list_lookup_alter_eq, Hs. split; [reflexivity | apply Hf].
  - exists s. rewrite list_lookup_alter_ne by exact Hne. split; [exact Hs | auto].
Qed.

Ltac settled_leaf :=
  first [ apply modify_segment_settled; intros ?s; unfold enhance_settled; simpl;
          try (intros _; apply orb_true_r); solve [auto]
        | prim_exec; unfold rows_stay_settled; simpl; intros; eexists;
          split; [eassumption | auto] ].

Section Settled.

Variable env : Collaborators.

Lemma process_segment_settled (stage : Stage) (prompt : string) (n : nat) (thr : Z)
    (idx : nat) (seg0 : Segment) (history : list Turn) (total_chars : Z) :
  polish_like stage = true ->
  preserves rows_stay_settled
    (process_segment env stage prompt n thr idx seg0 history total_chars).
Proof.
  intros Hp. destruct stage; try discriminate Hp;
    unfold process_segment, attempt_segment, set_stage_output; cbn [is_enhance polish_like andb];
    pres settled_leaf.
Qed.

Lemma process_stage_settled (stage : Stage) :
  polish_like stage = true -> preserves rows_stay_settled (process_stage env stage).
Proof.
  intros Hp. unfold process_stage. pres settled_leaf.
  apply stage_loop_preserves; [typeclasses eauto |]. intros.
  apply process_segment_settled, Hp.
Qed.

End Settled.

Section SettledRun.

Variable env : Collaborators.

Lemma loop_run_settled (i : nat) (s : Segment) (n k : nat)
    (l : list Segment) (w : World) (r : Result unit) (w' : World) (evs : list Event) :
  loop_run env Enhance n k l w r w' evs ->
  segments (live w) !! i = Some s ->
  enhance_settled s = true ->
  Forall (no_call_for i) evs.
Proof.
  induction 1 as [k w | k seg0 l s0 w w1 hc evs r w2 evs2 Hs [Hl Hk] Hstep Hrun IH
                 | k seg0 l s0 w w1 e evs Hs [Hl Hk] Hstep]; intros Hi Ht.
  - constructor.
  - constructor; [exact I |]. apply Forall_app.
    destruct (decide (k = i)) as [-> | Hne].
    + assert (s0 = s) as -> by congruence.
      split; [| eapply loop_run_calls_before; [exact Hrun | lia]].
      unfold enhance_settled in Ht.
      destruct Hstep as [_ _ -> _ | _ _ _ _ -> _ | Hf Hti | e Hf Hti | out s' evs' Hf Hti];
        try constructor;
        unfold stage_output in Hf; simpl in Hf; rewrite Hf, (Hti eq_refl) in Ht;
        discriminate Ht.
    + split; [eapply segment_step_other_calls; eassumption |].
      apply IH; [rewrite Hk by auto; exact Hi | exact Ht].
  - constructor; [exact I |].
    destruct (decide (k = i)) as [-> | Hne].
    + assert (s0 = s) as -> by congruence.
      unfold enhance_settled in Ht.
      destruct Hstep as [_ _ -> _ | _ _ _ _ -> _ | Hf Hti | e' Hf Hti | out s' evs' Hf Hti];
        try constructor;
        unfold stage_output in Hf; simpl in Hf; rewrite Hf, (Hti eq_refl) in Ht;
        discriminate Ht.
    + eapply segment_step_other_calls; eassumption.
Qed.

Lemma no_call_not_in (i : nat) (evs : list Event) (st : Stage) (input : option string)
    (reply : Result string) :
  Forall (no_call_for i) evs -> ~ In (EvGenerate i st input reply) evs.
Proof.
  intros Hall Hin. rewrite List.Forall_forall in Hall. apply Hall in Hin. simpl in Hin.
  congruence.
Qed.

(** a stage makes no call for a row it finds with its output populated,
    and the enhance stage none for a row it finds settled *)
Lemma process_stage_no_call (stage : Stage) (w : World) (i : nat) (s : Segment) :
  segments (live w) !! i = Some s ->
  truthy (stage_output stage s) = true \/ (stage = Enhance /\ enhance_settled s = true) ->
  Forall (no_call_for i) (events_of (process_stage env stage) w).
Proof.
  intros Hi Hs.
  destruct (process_stage_run env stage w) as (w0 & evs & Hsegs & _ & -> & Hrun).
  constructor; [exact I |]. rewrite <- Hsegs in Hi.
  destruct Hs as [Ht | [-> Ht]].
  - eapply loop_run_skip; eassumption.
  - eapply loop_run_settled; eassumption.
Qed.

Lemma run_stage_list_no_call (stages : list Stage) (w : World) (i : nat) (s : Segment)
    (stage : Stage) (input : option string) (reply : Result string) :
  stages = [Polish] \/ stages = [EmotionPolish] \/ stages = [Polish; Enhance] ->
  segments (live w) !! i = Some s ->
  truthy (stage_output stage s) = true \/ (stage = Enhance /\ enhance_settled s = true) ->
  ~ In (EvGenerate i stage input reply) (events_of (run_stage_list env stages) w).
Proof.
  intros Hstages Hi Ht Hin.
  assert (Hnil : forall w', events_of (run_stage_list env []) w' = []).
  { intros w'. unfold events_of, exec. simpl. apply drop_all. }
  assert (Hone : forall st w1 s1,
             segments (live w1) !! i = Some s1 ->
             (st = stage -> truthy (stage_output stage s1) = true \/
                            (stage = Enhance /\ enhance_settled s1 = true)) ->
             ~ In (EvGenerate i stage input reply) (events_of (process_stage env st) w1)).
  { intros st w1 s1 Hs1 Hcase Hin1.
    pose proof (process_stage_events env st w1) as (_ & _ & Hown).
    pose proof (Hown _ _ _ _ Hin1) as Hst. symmetry in Hst.
    specialize (Hcase Hst). subst st.
    exact (no_call_not_in i _ stage input reply
             (process_stage_no_call stage w1 i s1 Hs1 Hcase) Hin1). }
  destruct Hstages as [-> | [-> | ->]]; rewrite run_stage_list_events in Hin.
  - rewrite Hnil in Hin.
    assert (Hin' : In (EvGenerate i stage input reply) (events_of (process_stage env Polish) w))
      by (destruct (outcome _ _) as [[] |]; rewrite app_nil_r in Hin; exact Hin).
    exact (Hone Polish w s Hi (fun _ => Ht) Hin').
  - rewrite Hnil in Hin.
    assert (Hin' : In (EvGenerate i stage input reply)
                     (events_of (process_stage env EmotionPolish) w))
      by (destruct (outcome _ _) as [[] |]; rewrite app_nil_r in Hin; exact Hin).
    exact (Hone EmotionPolish w s Hi (fun _ => Ht) Hin').
  - apply in_app_or in Hin as [Hin | Hin].
    + exact (Hone Polish w s Hi (fun _ => Ht) Hin).
    + destruct (outcome (process_stage env Polish) w) as [[] | e]; [| destruct Hin].
      rewrite run_stage_list_events, Hnil in Hin.
      assert (Hin' : In (EvGenerate i stage input reply)
                       (events_of (process_stage env Enhance)
                          (exec (process_stage env Polish) w)))
        by (destruct (outcome (process_stage env Enhance) _) as [[] |];
            rewrite app_nil_r in Hin; exact Hin).
      destruct (process_stage_settled env Polish eq_refl w i s Hi) as (s1 & Hs1 & Hset).
      refine (Hone Enhance _ s1 Hs1 _ Hin').
      intros <-. right. split; [reflexivity |]. apply Hset.
      destruct Ht as [Ht | [_ Ht]]; [| exact Ht].
      unfold enhance_settled. unfold stage_output in Ht. simpl in Ht. rewrite Ht. reflexivity.
Qed.

Lemma run_after_setup_no_call (w : World) (i : nat) (s : Segment)
    (stage : Stage) (input : option string) (reply : Result string) :
  segments (live w) !! i = Some s ->
  truthy (stage_output stage s) = true \/ (stage = Enhance /\ enhance_settled s = true) ->
  ~ In (EvGenerate i stage input reply) (events_of (run_after_setup env) w).
Proof.
  intros Hi Ht Hin. rewrite run_after_setup_events in Hin.
  apply in_app_or in Hin as [Hin | Hin].
  { eapply (setup_events_no_stage _ (admission_events_setup env)), Hin. }
  apply in_app_or in Hin as [Hin | Hin].
  { eapply (setup_events_no_stage _ (split_events_setup env _ _)), Hin. }
  apply in_app_or in Hin as [Hin | Hin]; [| destruct Hin as [Hin | [Hin | []]]; discriminate].
  unfold events_of, exec in Hin. rewrite run_stages_mapping in Hin.
  destruct (stages_of_mode _) as [stages |] eqn:Hmode.
  - apply stages_of_mode_cases in Hmode.
    refine (run_stage_list_no_call stages (prepared env w) i s stage input reply
              Hmode _ Ht Hin).
    simpl. destruct (segments (live w)); [discriminate Hi | exact Hi].
  - simpl in Hin. rewrite drop_all in Hin. destruct Hin.
Qed.

End SettledRun.

(** From the point where the services of the run are built:
    a run never submits a row to a stage whose output the row already
    held when the run began, whatever the mode and whatever the earlier
    stages of the run do: work that an earlier run completed is not paid
    for again on resume. *)
Lemma skips_populated_after_setup (env : Collaborators) (w : World) (i : nat) (s : Segment)
    (stage : Stage) (input : option string) (reply : Result string) :
  segments (live w) !! i = Some s ->
  truthy (stage_output stage s) = true ->
  ~ In (EvGenerate i stage input reply) (events_of (run_after_setup env) w).
Proof.
  intros Hi Ht. apply (run_after_setup_no_call env w i s); [exact Hi | left; exact Ht].
Qed.

(** From the point where the services of the run are built:
    a row that is flagged as a title when a run begins is never submitted
    to the enhance stage by that run, with or without an enhanced text. *)
Lemma titles_after_setup (env : Collaborators) (w : World) (i : nat) (s : Segment)
    (input : option string) (reply : Result string) :
  segments (live w) !! i = Some s ->
  is_title s = true ->
  ~ In (EvGenerate i Enhance input reply) (events_of (run_after_setup env) w).
Proof.
  intros Hi Ht. apply (run_after_setup_no_call env w i s); [exact Hi | right].
  split; [reflexivity |]. unfold enhance_settled. rewrite Ht. apply orb_true_r.
Qed.

(** ** A failure of the summarising collaborator *)

Section SummariserFailure.

Variable env : Collaborators.

Lemma record_change_trace (segment : Segment) (before : option string) (after : string)
    (stage : Stage) :
  preserves (keeps (fun w => (trace w, histories (live w), session_obj (live w))))
    (record_change env segment before after stage).
Proof. pres keeps_leaf. Qed.

(** [record_and_save] when the summariser raises: the error is passed on
    as it is, after the audit entry and before any snapshot *)
Lemma record_and_save_compress_failed (stage : Stage) (segment : Segment)
    (input : option string) (output : string) (history : list Turn) (total_chars : Z)
    (w : World) (e : string) (turns : list Turn) :
  let m := record_and_save env stage segment input output history total_chars in
  In (EvCompress turns (Raised e)) (events_of m w) ->
  outcome m w = Raised e /\
  histories (live (exec m w)) = histories (live w) /\
  session_obj (live (exec m w)) = session_obj (live w).
Proof.
  intros m. subst m. unfold events_of, outcome, exec, record_and_save, bind.
  pose proof (record_change_trace segment input output stage w) as Hk.
  unfold keeps, exec in Hk.
  destruct (record_change env segment input output stage w) as [[[] | e0] w1]; simpl in *.
  2: { injection Hk as Ht _ _. rewrite Ht, drop_all. intros []. }
  injection Hk as Ht Hh Hs.
  destruct (HISTORY_COMPRESSION_THRESHOLD env <? _)%Z.
  - unfold compress_history.
    destruct (single_system_turn (history ++ [_])).
    + unfold save_history, bind, gets, add_history, commit, ret. simpl.
      rewrite Ht, drop_all. intros [].
    + unfold bind, call_compress.
      destruct (ai_compress env (compress_calls w1) _ _) as [summary | e1]; simpl.
      * rewrite Ht, drop_app_length. intros [Hin | []]. discriminate.
      * rewrite Ht, drop_app_length. intros [Hin | []]. injection Hin as _ <-.
        split; [reflexivity |]. split; assumption.
  - unfold save_history, bind, gets, add_history, commit, ret. simpl.
    rewrite Ht, drop_all. intros [].
Qed.

End SummariserFailure.

Section SummariserFailureStep.

Variable env : Collaborators.

Lemma attempt_compress_failed (stage : Stage) (prompt : string) (thr : Z) (idx : nat)
    (s : Segment) (history : list Turn) (total_chars : Z) (w1 : World) (e : string)
    (turns : list Turn) (r : Result (list Turn * Z)) (w' : World) :
  try_except (attempt_segment env stage prompt thr idx s history total_chars)
    (segment_failed idx) w1 = (r, w') ->
  In (EvCompress turns (Raised e)) (drop (length (trace w1)) (trace w')) ->
  r = Raised (abort_message idx e) /\
  run_error w' = Some e /\
  histories (live w') = histories (live w1).
Proof.
  unfold attempt_segment.
  destruct (count_text_length env (original_text s) <? thr)%Z.
  - unfold try_except, bind, utcnow, modify_segment, commit, ret. simpl.
    intros [= <- <-]. simpl. rewrite drop_all. intros [].
  - rewrite try_except_bind. unfold modify_segment at 1. cbv beta iota.
    rewrite try_except_bind. unfold commit at 1. cbv beta iota.
    rewrite try_except_bind, run_with_retry_call. cbv zeta. simpl ai_calls.
    destruct (ai_text env (ai_calls w1) stage (stage_input stage s) prompt history)
      as [out | e0].
    + unfold try_except, bind, modify_segment, utcnow, commit. simpl.
      match goal with
      | |- context [record_and_save env ?x1 ?x2 ?x3 ?x4 ?x5 ?x6 ?w3] =>
          pose proof (record_and_save_compress_failed env x1 x2 x3 x4 x5 x6 w3 e turns) as Hc;
          pose proof (record_and_save_quiet env x1 x2 x3 x4 x5 x6 w3) as (evs' & Htr & Hq);
          cbv zeta in Hc; unfold events_of, outcome, exec in Hc, Htr;
          destruct (record_and_save env x1 x2 x3 x4 x5 x6 w3) as [[hc | e1] w4]
      end; simpl in *.
      * intros [= <- <-]. rewrite Htr, <- app_assoc, drop_app_length.
        intros [Hin | Hin]; [discriminate |].
        rewrite Htr, drop_app_length in Hc. destruct (Hc Hin) as [Ho _]. discriminate Ho.
      * unfold segment_failed, bind, modify_segment, modify_run, commit, raise. simpl.
        intros [= <- <-]. simpl. rewrite Htr, <- app_assoc, drop_app_length.
        intros [Hin | Hin]; [discriminate |].
        rewrite Htr, drop_app_length in Hc. destruct (Hc Hin) as ([= ->] & Hh & _).
        split; [reflexivity |]. split; [reflexivity | exact Hh].
    + unfold segment_failed, bind, modify_segment, modify_run, commit, raise. simpl.
      intros [= <- <-]. simpl. rewrite drop_app_length. intros [Hin | []]. discriminate Hin.
Qed.

End SummariserFailureStep.

Section SummariserFailureLoop.

Variable env : Collaborators.

Lemma quiet_or_generate_compress (idx : nat) (stage : Stage) (s : Segment) (w w' : World)
    (r : Result (list Turn * Z)) (evs : list Event) (turns : list Turn) (e : string) :
  segment_step env stage idx s w w' r evs ->
  In (EvCompress turns (Raised e)) evs ->
  exists s' out,
    segments (live w') !! idx = Some s' /\ stage_output stage s' = Some out /\
    (forall e', r = Raised e' ->
       seg_status s' = SegFailed /\ checkpoint w' = Some (Z.of_nat idx)).
Proof.
  intros [_ _ -> _ | _ _ _ _ -> _ | _ _ _ _ -> _ | e0 _ _ _ _ -> _ _ _
         | out s' evs' _ _ _ Hrow Hout -> _ Hfail] Hin;
    try (destruct Hin; fail).
  - destruct Hin as [Hin | []]. discriminate.
  - exists s', out. auto.
Qed.

Lemma process_segment_compress_failed (stage : Stage) (n idx : nat) (seg0 s : Segment)
    (history : list Turn) (total_chars : Z) (w : World) (r : Result (list Turn * Z))
    (w' : World) (e : string) (turns : list Turn) :
  segments (live w) !! idx = Some s ->
  process_segment env stage (get_prompt env stage) n
    (Z.max (SEGMENT_SKIP_THRESHOLD env) 0) idx seg0 history total_chars w = (r, w') ->
  In (EvCompress turns (Raised e)) (drop (length (trace w)) (trace w')) ->
  r = Raised (abort_message idx e) /\ run_error w' = Some e /\
  histories (live w') = histories (live w).
Proof.
  intros Hs Heq.
  destruct (process_segment_step env stage n idx seg0 s history total_chars w r w' Hs Heq)
    as (evs & Htr & Hstep).
  revert Heq. unfold process_segment, current_segment.
  unfold bind at 1 2 3 4 5. unfold gets, modify_run, emit, commit. simpl.
  rewrite Hs. simpl. fold (progress_written stage n idx w).
  assert (Hin1 : In (EvCompress turns (Raised e)) (drop (length (trace w)) (trace w')) ->
                 In (EvCompress turns (Raised e))
                    (drop (length (trace (progress_written stage n idx w))) (trace w'))).
  { rewrite Htr. simpl. rewrite drop_app_length.
    change (trace w ++ EvProgress idx (stage_progress stage idx n) :: evs)
      with (trace w ++ [EvProgress idx (stage_progress stage idx n)] ++ evs).
    rewrite app_assoc, drop_app_length'; [| rewrite length_app; simpl; lia].
    intros [Hin | Hin]; [discriminate | exact Hin]. }
  assert (Hnone : forall (x : Result (list Turn * Z)),
             (x, progress_written stage n idx w) = (r, w') ->
             In (EvCompress turns (Raised e)) (drop (length (trace w)) (trace w')) -> False).
  { intros x [= <- <-]. simpl. rewrite drop_app_length. intros [Hin | []]. discriminate. }
  assert (Hattempt :
    try_except
      (attempt_segment env stage (get_prompt env stage)
         (Z.max (SEGMENT_SKIP_THRESHOLD env) 0) idx s history total_chars)
      (segment_failed idx) (progress_written stage n idx w) = (r, w') ->
    In (EvCompress turns (Raised e)) (drop (length (trace w)) (trace w')) ->
    r = Raised (abort_message idx e) /\ run_error w' = Some e /\
    histories (live w') = histories (live w)).
  { intros Ha Hin. apply Hin1 in Hin.
    exact (attempt_compress_failed env _ _ _ _ _ _ _ _ _ _ _ _ Ha Hin). }
  destruct (polish_like stage && truthy (polished_text s)).
  { intros Hx Hin. exfalso. exact (Hnone _ Hx Hin). }
  destruct (is_enhance stage && (truthy (enhanced_text s) || is_title s)); [| exact Hattempt].
  destruct (is_title s && negb (truthy (enhanced_text s))).
  - unfold bind, modify_segment, utcnow, commit, ret. simpl.
    destruct (seg_completed_at s); simpl; intros [= <- <-]; simpl;
      rewrite drop_app_length; intros [Hin | []]; discriminate.
  - intros Hx Hin. exfalso. exact (Hnone _ Hx Hin).
Qed.

Lemma stage_loop_compress_failed (stage : Stage) (n : nat) (e : string) (turns : list Turn)
    (l : list Segment) :
  forall (k : nat) (history : list Turn) (total_chars : Z) (w : World)
         (r : Result unit) (w' : World),
    (l <> [] -> (k + length l <= length (segments (live w)))%nat) ->
    stage_loop env stage (get_prompt env stage) n (Z.max (SEGMENT_SKIP_THRESHOLD env) 0)
      (enumerate_from k l) history total_chars w = (r, w') ->
    In (EvCompress turns (Raised e)) (drop (length (trace w)) (trace w')) ->
    exists idx, compress_abort stage idx e r w'.
Proof.
  induction l as [| seg0 l IH]; intros k history total_chars w r w' Hlen.
  - simpl. intros [= <- <-]. rewrite drop_all. intros [].
  - specialize (Hlen ltac:(discriminate)). simpl in *. unfold bind.
    destruct (lookup_lt_is_Some_2 (segments (live w)) k ltac:(lia)) as [s Hs].
    pose proof (process_segment_rows env stage (get_prompt env stage) n
                  (Z.max (SEGMENT_SKIP_THRESHOLD env) 0) k seg0 history total_chars w)
      as Hrows.
    unfold exec in Hrows.
    destruct (process_segment env stage (get_prompt env stage) n
                (Z.max (SEGMENT_SKIP_THRESHOLD env) 0) k seg0 history total_chars w)
      as [[hc | e1] w1] eqn:Hstep;
      destruct (process_segment_step env stage n k seg0 s history total_chars w _ _ Hs Hstep)
        as (evs & Htr & Hcase); simpl in Hrows.
    + intros Hrest Hin.
      assert (Hlen1 : l <> [] -> (S k + length l <= length (segments (live w1)))%nat).
      { intros _. destruct Hrows as [-> _]. lia. }
      destruct (stage_loop_run env stage n l (S k) (fst hc) (snd hc) w1 r w' Hlen1 Hrest)
        as (evs2 & Htr2 & _).
      apply (IH (S k) (fst hc) (snd hc) w1 r w' Hlen1 Hrest).
      rewrite Htr2, drop_app_length.
      rewrite Htr2, Htr, <- app_assoc, drop_app_length in Hin.
      destruct Hin as [Hin | Hin]; [discriminate |].
      apply in_app_or in Hin as [Hin | Hin]; [| exact Hin].
      exfalso.
      assert (Hin' : In (EvCompress turns (Raised e)) (drop (length (trace w)) (trace w1))).
      { rewrite Htr, drop_app_length. right. exact Hin. }
      destruct (process_segment_compress_failed stage n k seg0 s history total_chars
                  w _ _ e turns Hs Hstep Hin') as [Hr _].
      discriminate Hr.
    + intros [= <- <-] Hin.
      destruct (process_segment_compress_failed stage n k seg0 s history total_chars
                  w _ _ e turns Hs Hstep Hin) as ([= ->] & Herr & _).
      rewrite Htr, drop_app_length in Hin.
      destruct Hin as [Hin | Hin]; [discriminate |].
      destruct (quiet_or_generate_compress _ _ _ _ _ _ _ _ _ Hcase Hin)
        as (s' & out & Hrow & Hout & Hfail).
      destruct (Hfail _ eq_refl) as [Hst Hcp].
      exists k. unfold compress_abort. split; [reflexivity |].
      split; [exact Hcp |]. split; [exact Herr |]. exists s', out. auto.
Qed.

End SummariserFailureLoop.

Section SummariserFailureRun.

Variable env : Collaborators.

Lemma process_stage_compress_failed (stage : Stage) (w : World) (e : string)
    (turns : list Turn) :
  let m := process_stage env stage in
  In (EvCompress turns (Raised e)) (events_of m w) ->
  exists idx, compress_abort stage idx e (outcome m w) (exec m w).
Proof.
  intros m. subst m. unfold events_of, outcome, exec.
  destruct (process_stage env stage w) as [r w'] eqn:Hrun. simpl.
  unfold process_stage, bind, modify_run, commit, gets, emit in Hrun. simpl in Hrun.
  intros Hin.
  pose proof Hrun as Hloop. apply stage_loop_run in Hloop.
  2: { simpl. intros Hne. rewrite length_drop.
       destruct (Nat.le_gt_cases (length (segments (live w)))
                   (resume_index (failed_segment_index (session_obj (live w)))))
         as [Hle | Hgt]; [| lia].
       exfalso. apply Hne. apply drop_ge. exact Hle. }
  destruct Hloop as (evs & Htr & _). simpl in Htr.
  eapply stage_loop_compress_failed; [| exact Hrun |].
  - simpl. intros Hne. rewrite length_drop.
    destruct (Nat.le_gt_cases (length (segments (live w)))
                (resume_index (failed_segment_index (session_obj (live w)))))
      as [Hle | Hgt]; [| lia].
    exfalso. apply Hne. apply drop_ge. exact Hle.
  - simpl. rewrite Htr, drop_app_length.
    rewrite Htr, <- app_assoc, drop_app_length in Hin.
    destruct Hin as [Hin | Hin]; [discriminate | exact Hin].
Qed.

Lemma run_stage_list_compress_failed (stages : list Stage) (e : string) (turns : list Turn) :
  forall w,
    let m := run_stage_list env stages in
    In (EvCompress turns (Raised e)) (events_of m w) ->
    exists stage idx, In stage stages /\ compress_abort stage idx e (outcome m w) (exec m w).
Proof.
  induction stages as [| stage rest IH]; intros w m; subst m.
  - unfold events_of, exec. simpl. rewrite drop_all. intros [].
  - rewrite run_stage_list_events, run_stage_list_outcome, run_stage_list_exec.
    intros Hin. apply in_app_or in Hin as [Hin | Hin].
    + destruct (process_stage_compress_failed stage w e turns Hin) as (idx & Habort).
      pose proof Habort as (Ho & _). rewrite Ho.
      exists stage, idx. split; [left; reflexivity |]. rewrite Ho in Habort. exact Habort.
    + destruct (outcome (process_stage env stage) w) as [[] | e0]; [| destruct Hin].
      destruct (IH _ Hin) as (st & idx & Hst & Habort).
      exists st, idx. split; [right; exact Hst | exact Habort].
Qed.

End SummariserFailureRun.

(** From the point where the services of the run are built:
    when the summarising collaborator raises while the reply for a row is
    being recorded, the run is aborted although the reply has been stored:
    the row keeps the output of the stage and is marked failed, the
    checkpoint is its index, and the caller gets the error of the
    summariser inside the wrapper of the loop only, without the wrapper
    that names the stage. *)
Lemma summariser_after_setup (env : Collaborators) (w : World) (turns : list Turn)
    (e : string) :
  let run := run_after_setup env in
  In (EvCompress turns (Raised e)) (events_of run w) ->
  exists stage idx s' out,
    outcome run w = Raised (abort_message idx e) /\
    run_status (session_obj (live (exec run w))) = RunFailed /\
    error_message (session_obj (live (exec run w))) = Some (abort_message idx e) /\
    failed_segment_index (session_obj (live (exec run w))) = Some (Z.of_nat idx) /\
    segments (live (exec run w)) !! idx = Some s' /\
    stage_output stage s' = Some out /\ seg_status s' = SegFailed.
Proof.
  intros run Hin. subst run. rewrite run_after_setup_events in Hin.
  apply in_app_or in Hin as [Hin | Hin].
  { exfalso. pose proof (admission_events_setup env) as Hs.
    rewrite List.Forall_forall in Hs. exact (Hs _ Hin). }
  apply in_app_or in Hin as [Hin | Hin].
  { exfalso. pose proof (split_events_setup env (session_obj (live w)) (segments (live w))) as Hs.
    rewrite List.Forall_forall in Hs. exact (Hs _ Hin). }
  apply in_app_or in Hin as [Hin | Hin]; [| destruct Hin as [Hin | [Hin | []]]; discriminate].
  rewrite run_after_setup_outcome, run_after_setup_exec.
  set (mode := effective_mode (session_obj (live (prepared env w)))) in *.
  assert (Hcase : exists stage idx,
             compress_abort stage idx e (outcome (run_stages env mode) (prepared env w))
               (exec (run_stages env mode) (prepared env w))).
  { unfold events_of, outcome, exec in *. rewrite run_stages_mapping in *.
    destruct (stages_of_mode mode) as [stages |].
    - destruct (run_stage_list_compress_failed env stages e turns (prepared env w) Hin)
        as (stage & idx & _ & Habort).
      exists stage, idx. exact Habort.
    - simpl in Hin. rewrite drop_all in Hin. destruct Hin. }
  destruct Hcase as (stage & idx & Ho & Hcp & _ & s' & out & Hrow & Hout & Hst).
  exists stage, idx, s', out. rewrite Ho. simpl.
  repeat split; assumption.
Qed.

(** ** The number of generative calls *)

Section CallBound.

Variable env : Collaborators.

Lemma generate_calls_app (e1 e2 : list Event) :
  generate_calls (e1 ++ e2) = generate_calls e1 ++ generate_calls e2.
Proof. apply omap_app. Qed.

Lemma quiet_generate_calls (evs : list Event) :
  Forall quiet_event evs -> generate_calls evs = [].
Proof.
  induction 1 as [| e evs He _ IH]; [reflexivity |].
  destruct e; simpl in He; try contradiction. exact IH.
Qed.

Lemma segment_step_one_call (stage : Stage) (k : nat) (s : Segment) (w w' : World)
    (r : Result (list Turn * Z)) (evs : list Event) :
  segment_step env stage k s w w' r evs -> (length (generate_calls evs) <= 1)%nat.
Proof.
  intros [_ _ -> _ | _ _ _ _ -> _ | _ _ _ _ -> _ | e _ _ _ _ -> _ _ _
         | out s' evs' _ _ _ _ _ -> Hq _]; simpl; try lia.
  change (generate_calls (EvGenerate k stage (stage_input stage s) (Ok out) :: evs'))
    with (k :: generate_calls evs').
  rewrite (quiet_generate_calls evs' Hq). simpl. lia.
Qed.

Lemma loop_run_call_bound (stage : Stage) (n k : nat) (l : list Segment) (w : World)
    (r : Result unit) (w' : World) (evs : list Event) :
  loop_run env stage n k l w r w' evs -> (length (generate_calls evs) <= length l)%nat.
Proof.
  induction 1 as [k w | k seg0 l s0 w w1 hc evs r w2 evs2 Hs Hrows Hstep Hrun IH
                 | k seg0 l s0 w w1 e evs Hs Hrows Hstep].
  - simpl. lia.
  - change (generate_calls (EvProgress k (stage_progress stage k n) :: evs ++ evs2))
      with (generate_calls (evs ++ evs2)).
    rewrite generate_calls_app, length_app. simpl.
    pose proof (segment_step_one_call _ _ _ _ _ _ _ Hstep). lia.
  - change (generate_calls (EvProgress k (stage_progress stage k n) :: evs))
      with (generate_calls evs).
    simpl. pose proof (segment_step_one_call _ _ _ _ _ _ _ Hstep). lia.
Qed.

Lemma process_stage_call_bound (stage : Stage) (w : World) :
  (length (generate_calls (events_of (process_stage env stage) w))
   <= length (segments (live w)))%nat.
Proof.
  destruct (process_stage_run env stage w) as (w0 & evs & _ & _ & -> & Hrun).
  apply loop_run_call_bound in Hrun. rewrite length_drop in Hrun.
  change (generate_calls (EvStage stage (resume_index (checkpoint w)) :: evs))
    with (generate_calls evs).
  lia.
Qed.

Lemma run_stage_list_call_bound (stages : list Stage) : forall w,
  (length (generate_calls (events_of (run_stage_list env stages) w))
   <= length stages * length (segments (live w)))%nat.
Proof.
  induction stages as [| stage rest IH]; intros w.
  - unfold events_of, exec. simpl. rewrite drop_all. simpl. lia.
  - rewrite run_stage_list_events, generate_calls_app, length_app.
    pose proof (process_stage_call_bound stage w) as H1.
    destruct (outcome (process_stage env stage) w) as [[] | e].
    + pose proof (IH (exec (process_stage env stage) w)) as H2.
      rewrite process_stage_length in H2. simpl. lia.
    + simpl. lia.
Qed.

End CallBound.

(** From the point where the services of the run are built:
    a run makes at most one generative call for each row in each stage of
    its mode: at most as many calls as it has rows in a single-stage
    mode, twice as many in the polish-then-enhance mode, and none in a
    mode without stages. *)
Lemma call_bound_after_setup (env : Collaborators) (w : World) :
  let run := run_after_setup env in
  let rows := materialized env (session_obj (live w)) (segments (live w)) in
  let stages := default [] (stages_of_mode (effective_mode (session_obj (live w)))) in
  (length (generate_calls (events_of run w)) <= length stages * length rows)%nat /\
  (length stages <= 2)%nat /\
  forall j, (calls_for j (events_of run w) <= length stages)%nat.
Proof.
  intros run rows stages. subst run.
  rewrite run_after_setup_events.
  change (effective_mode (session_obj (live (prepared env w))))
    with (effective_mode (session_obj (live w))).
  set (mode := effective_mode (session_obj (live w))) in *.
  destruct (setup_events_no_stage _ (admission_events_setup env)) as (_ & _ & Ha & _).
  destruct (setup_events_no_stage _
              (split_events_setup env (session_obj (live w)) (segments (live w))))
    as (_ & _ & Hs & _).
  assert (Hev : forall evs final,
            generate_calls (admission_events env
              ++ split_events env (session_obj (live w)) (segments (live w))
              ++ evs ++ [EvRunStatus final; EvGateRelease]) = generate_calls evs).
  { intros evs final. rewrite !generate_calls_app, Ha, Hs. simpl. apply app_nil_r. }
  unfold calls_for. rewrite Hev.
  assert (Hst : events_of (run_stages env mode) (prepared env w) =
                events_of (run_stage_list env stages) (prepared env w)).
  { unfold events_of, exec. rewrite run_stages_mapping. unfold stages.
    destruct (stages_of_mode mode); reflexivity. }
  rewrite Hst.
  split; [apply (run_stage_list_call_bound env stages (prepared env w)) |].
  split.
  - unfold stages. destruct (stages_of_mode mode) as [l |] eqn:Hm; [| simpl; lia].
    apply stages_of_mode_cases in Hm as [-> | [-> | ->]]; simpl; lia.
  - intros j. fold (calls_for j (events_of (run_stage_list env stages) (prepared env w))).
    generalize (prepared env w). clear. induction stages as [| stage rest IH]; intros w0.
    + unfold events_of, exec. simpl. rewrite drop_all. unfold calls_for. simpl. lia.
    + rewrite run_stage_list_events, calls_for_app.
      pose proof (process_stage_once env stage w0 j) as H1.
      destruct (outcome (process_stage env stage) w0) as [[] | e].
      * pose proof (IH (exec (process_stage env stage) w0)). simpl. lia.
      * unfold calls_for at 2. simpl. lia.
Qed.

(** ** The bindings of the services *)

(** X19: the emotion-polish service has no settings of its own: it falls back
    to the polish settings, so that a run with neither polish nor emotion
    overrides binds the two services alike, and one that gives the two
    stages the same overrides does too.  The compression service is bound
    from the settings alone, whatever the run carries. *)
Theorem emotion_service_falls_back_to_polish (o o' : RunOverrides) (st : ServiceSettings) :
  (emotion_overrides o = polish_overrides o ->
     emotion_service (init_ai_services o st) = polish_service (init_ai_services o st)) /\
  (all_unset (polish_overrides o) -> all_unset (emotion_overrides o) ->
     emotion_service (init_ai_services o st) = polish_service (init_ai_services o st) /\
     polish_service (init_ai_services o st) =
       mkAIServiceArgs (POLISH_MODEL st) (POLISH_API_KEY st) (POLISH_BASE_URL st)) /\
  compression_service (init_ai_services o st) = compression_service (init_ai_services o' st).
Proof.
  split; [| split].
  - intros [= H1 H2 H3]. simpl. rewrite H1, H2, H3. reflexivity.
  - intros (P1 & P2 & P3) (E1 & E2 & E3). simpl in *. unfold value_or.
    rewrite P1, P2, P3, E1, E2, E3. split; reflexivity.
  - reflexivity.
Qed.

(** ** The construction of the services *)

Section Setup.

Variable env : Collaborators.

(** building the services reads the run and writes nothing *)
Lemma init_services_state (w : World) :
  init_services env w = (services_outcome env w, w).
Proof.
  unfold services_outcome, outcome, init_services, bind, gets, construct. simpl.
  repeat (match goal with
          | |- context [AIService env ?a] => destruct (AIService env a) as [[] |]
          end; simpl; try reflexivity).
Qed.

Lemma setup_failed_state (e : string) (w : World) :
  setup_failed e w =
    let st := store_upd_run (fun r => run_set_error_message (Some e)
                                        (run_set_status RunFailed r)) (live w) in
    mkWorld st st (clock w) (ai_calls w) (compress_calls w)
      (trace w ++ [EvRunStatus RunFailed; EvGateRelease]).
Proof.
  unfold setup_failed, exec, optimization_failed, set_run_status, bind, modify_run, emit,
    commit, raise. simpl. rewrite <- app_assoc. reflexivity.
Qed.

(** a run whose services are built goes on as [run_after_setup] *)
Lemma start_optimization_built (w : World) (u : unit) :
  services_outcome env w = Ok u ->
  start_optimization env w = run_after_setup env w.
Proof.
  intros Hs. unfold start_optimization, run_after_setup, try_finally, try_except,
    optimization_body.
  unfold bind at 1. rewrite init_services_state, Hs. reflexivity.
Qed.

(** a run whose services cannot be built goes to the [except] and the
    [finally] at once *)
Lemma start_optimization_setup_failed (w : World) (e : string) :
  services_outcome env w = Raised e ->
  start_optimization env w = (Raised e, setup_failed e w).
Proof.
  intros Hs. unfold start_optimization, try_finally, try_except, optimization_body.
  unfold bind at 1. rewrite init_services_state, Hs.
  unfold setup_failed, exec, optimization_failed, set_run_status, bind, modify_run, emit,
    commit, raise. simpl. reflexivity.
Qed.

Lemma run_built (w : World) (u : unit) :
  services_outcome env w = Ok u ->
  outcome (start_optimization env) w = outcome (run_after_setup env) w /\
  exec (start_optimization env) w = exec (run_after_setup env) w /\
  events_of (start_optimization env) w = events_of (run_after_setup env) w.
Proof.
  intros Hs. unfold events_of, outcome, exec.
  rewrite (start_optimization_built w u Hs). auto.
Qed.

Lemma run_setup_failed (w : World) (e : string) :
  services_outcome env w = Raised e ->
  outcome (start_optimization env) w = Raised e /\
  exec (start_optimization env) w = setup_failed e w /\
  events_of (start_optimization env) w = [EvRunStatus RunFailed; EvGateRelease].
Proof.
  intros Hs. unfold events_of, outcome, exec.
  rewrite (start_optimization_setup_failed w e Hs). cbn [fst snd].
  split; [reflexivity |]. split; [reflexivity |].
  rewrite setup_failed_state. cbn [trace]. apply drop_app_length.
Qed.

End Setup.

(** splits a goal about a run on whether its services are built, and
    rewrites the run accordingly *)
Ltac run_cases env w :=
  let Hs := fresh "Hs" in
  let Ho := fresh "Ho" in
  let Hx := fresh "Hx" in
  let He := fresh "He" in
  let e := fresh "e" in
  destruct (services_outcome env w) as [? | e] eqn:Hs;
  [ destruct (run_built env w _ Hs) as (Ho & Hx & He)
  | destruct (run_setup_failed env w e Hs) as (Ho & Hx & He) ];
  rewrite ?Ho, ?Hx, ?He.

Section TitleFlags.

Variable env : Collaborators.

Lemma segment_step_titles (stage : Stage) (idx : nat) (s : Segment) (w w' : World)
    (r : Result (list Turn * Z)) (evs : list Event) :
  segments (live w) !! idx = Some s ->
  rows_kept_but idx w w' ->
  segment_step env stage idx s w w' r evs ->
  titles_as_written env w -> titles_as_written env w'.
Proof.
  intros Hs [_ Hother] Hstep Hw i s' Hi.
  destruct (decide (i = idx)) as [-> | Hne].
  2: { rewrite (Hother i Hne) in Hi. exact (Hw i s' Hi). }
  pose proof (Hw idx s Hs) as Hflag.
  destruct Hstep as [_ Hsame _ _ | _ _ _ Hrow _ _ | _ _ Hlt Hrow _ _
                    | e _ _ _ Hrow _ _ _ _ | out s1 evs' _ _ Hge Hrow _ _ _ _ Hsame].
  - rewrite Hsame, Hs in Hi. injection Hi as <-. exact Hflag.
  - rewrite Hrow in Hi. injection Hi as <-. exact Hflag.
  - rewrite Hrow in Hi. injection Hi as <-. intros _. split; [reflexivity | exact Hlt].
  - rewrite Hrow in Hi. injection Hi as <-. exact Hflag.
  - rewrite Hrow in Hi. injection Hi as <-. intros Ht. rewrite Hsame in Ht.
    destruct (Hflag Ht) as [_ Hlt]. lia.
Qed.

Lemma loop_run_titles (stage : Stage) (n k : nat) (l : list Segment) (w : World)
    (r : Result unit) (w' : World) (evs : list Event) :
  loop_run env stage n k l w r w' evs ->
  titles_as_written env w -> titles_as_written env w'.
Proof.
  induction 1 as [k w | k seg0 l s w w1 hc evs r w2 evs2 Hs Hrows Hstep Hrun IH
                 | k seg0 l s w w1 e evs Hs Hrows Hstep]; intros Hw.
  - exact Hw.
  - apply IH. exact (segment_step_titles _ _ _ _ _ _ _ Hs Hrows Hstep Hw).
  - exact (segment_step_titles _ _ _ _ _ _ _ Hs Hrows Hstep Hw).
Qed.

Lemma process_stage_titles (stage : Stage) (w : World) :
  titles_as_written env w -> titles_as_written env (exec (process_stage env stage) w).
Proof.
  intros Hw.
  destruct (process_stage_run env stage w) as (w0 & evs & Hsegs & _ & _ & Hrun).
  apply (loop_run_titles _ _ _ _ _ _ _ _ Hrun).
  intros i s Hi. rewrite Hsegs in Hi. exact (Hw i s Hi).
Qed.

Lemma run_stage_list_titles (stages : list Stage) : forall w,
  titles_as_written env w -> titles_as_written env (exec (run_stage_list env stages) w).
Proof.
  induction stages as [| stage rest IH]; intros w Hw; [exact Hw |].
  rewrite run_stage_list_exec.
  destruct (outcome (process_stage env stage) w).
  - apply IH, process_stage_titles, Hw.
  - apply process_stage_titles, Hw.
Qed.

Lemma new_segments_unflagged (r : Run) (i : nat) (s : Segment) :
  new_segments env r !! i = Some s -> is_title s = false.
Proof.
  unfold new_segments. rewrite list_lookup_fmap.
  destruct (enumerate_from 0 _ !! i) as [p |]; [| discriminate].
  intros [= <-]. reflexivity.
Qed.

Lemma prepared_titles (w : World) :
  titles_as_written env w -> titles_as_written env (prepared env w).
Proof.
  intros Hw i s. unfold prepared. simpl. unfold materialized.
  destruct (segments (live w)) as [| s0 l] eqn:Hsegs.
  - intros Hi Ht. rewrite (new_segments_unflagged _ _ _ Hi) in Ht. discriminate.
  - intros Hi. apply (Hw i). rewrite Hsegs. exact Hi.
Qed.

Lemma run_after_setup_titles (w : World) :
  titles_as_written env w -> titles_as_written env (exec (run_after_setup env) w).
Proof.
  intros Hw i s. rewrite run_after_setup_exec, (proj1 (run_end_segments _ _)).
  apply (fun H => H i s). unfold exec. rewrite run_stages_mapping.
  destruct (stages_of_mode _) as [stages |].
  - apply (run_stage_list_titles stages), prepared_titles, Hw.
  - apply prepared_titles, Hw.
Qed.

End TitleFlags.

(** X20: the title flag is only ever set by the title branch, together
    with the copy of the original text: if every flagged row holds its
    original text as polished text and is below the skip threshold, the
    same is true after every execution of a stage and after every run
    under the same settings; and it is true of every row after a run that
    began without rows. *)
Theorem title_flag_set_with_copy (env : Collaborators) (stage : Stage) (w : World) :
  (titles_as_written env w -> titles_as_written env (exec (process_stage env stage) w)) /\
  (titles_as_written env w -> titles_as_written env (exec (start_optimization env) w)) /\
  (segments (live w) = [] -> titles_as_written env (exec (start_optimization env) w)).
Proof.
  assert (Hrun : titles_as_written env w ->
                 titles_as_written env (exec (start_optimization env) w)).
  { intros Hw. run_cases env w.
    - apply run_after_setup_titles, Hw.
    - rewrite setup_failed_state. exact Hw. }
  split; [apply process_stage_titles |]. split; [exact Hrun |].
  intros Hnil. apply Hrun. intros i s. rewrite Hnil. discriminate.
Qed.

(** ** The properties of a whole run *)

(** C4: within one execution of a stage the progress values written never
    decrease and each lies in [0, 100); during a whole run every progress
    write of a stage is below 100; a run that returns has set progress to
    exactly 100, and a run that raises, started below 100, ends below 100. *)
Theorem progress_nondecreasing_below_full (env : Collaborators) (stage : Stage) (w : World) :
  let written := map snd (progress_writes (events_of (process_stage env stage) w)) in
  let run := start_optimization env in
  StronglySorted Qle written /\
  Forall (fun p => (0 <= p /\ p < 100)%Q) written /\
  Forall below_full (events_of run w) /\
  (outcome run w = Ok tt ->
     progress (session_obj (live (exec run w))) = 100%Q /\
     run_status (session_obj (live (exec run w))) = RunCompleted) /\
  ((progress (session_obj (live w)) < 100)%Q ->
   forall e, outcome run w = Raised e ->
     (progress (session_obj (live (exec run w))) < 100)%Q).
Proof.
  intros written run. subst written run.
  destruct (progress_after_setup env stage w) as (Hsorted & Hrange & Hbelow & Hdone & Hlt).
  split; [exact Hsorted |]. split; [exact Hrange |].
  run_cases env w.
  - split; [exact Hbelow |]. split; [exact Hdone | exact Hlt].
  - rewrite setup_failed_state. split; [repeat constructor |].
    split; [discriminate |]. intros Hp e' _. exact Hp.
Qed.


(** X3: the stages a run begins are an initial part of the sequence of its
    mode, in that order, and the whole sequence when the run returns; the
    generative collaborator is called only for stages that were begun. *)
Theorem stages_follow_mode (env : Collaborators) (w : World) (stages : list Stage) :
  let run := start_optimization env in
  stages_of_mode (effective_mode (session_obj (live w))) = Some stages ->
  stages_begun (events_of run w) `prefix_of` stages /\
  (outcome run w = Ok tt -> stages_begun (events_of run w) = stages) /\
  (forall i st input r, In (EvGenerate i st input r) (events_of run w) ->
     In st (stages_begun (events_of run w))).
Proof.
  intros run Hmode. subst run. run_cases env w.
  - apply stages_after_setup, Hmode.
  - split; [apply prefix_nil |]. split; [discriminate |].
    intros i st input r [Hin | [Hin | []]]; discriminate.
Qed.

(** X8: a run that returns leaves no row without the output of any stage of
    its mode: polished_text is set in every row, and enhanced_text too
    when the mode includes the enhance stage. *)
Theorem completed_run_fills_outputs (env : Collaborators) (w : World) (stages : list Stage)
    (stage : Stage) (i : nat) (s' : Segment) :
  let run := start_optimization env in
  stages_of_mode (effective_mode (session_obj (live w))) = Some stages ->
  outcome run w = Ok tt ->
  In stage stages ->
  segments (live (exec run w)) !! i = Some s' ->
  stage_output stage s' <> None.
Proof.
  intros run Hmode. subst run. run_cases env w.
  - apply fills_outputs_after_setup, Hmode.
  - discriminate.
Qed.

(** X9: during a run the generative collaborator is never called without an
    input text: the polish stages hand it the original text of the row,
    and the enhance stage, which a run begins only after its polish stage
    has returned, finds a polished text in every row. *)
Theorem calls_always_carry_input (env : Collaborators) (w : World) (i : nat) (st : Stage)
    (input : option string) (reply : Result string) :
  In (EvGenerate i st input reply) (events_of (start_optimization env) w) ->
  exists text, input = Some text.
Proof.
  run_cases env w.
  - apply carry_input_after_setup.
  - intros [Hin | [Hin | []]]; discriminate.
Qed.

(** X16: when the summarising collaborator raises while the reply for a row is
    being recorded, the run is aborted although the reply has been stored:
    the row keeps the output of the stage and is marked failed, the
    checkpoint is its index, and the caller gets the error of the
    summariser inside the wrapper of the loop only, without the wrapper
    that names the stage. *)
Theorem summariser_failure_aborts_run (env : Collaborators) (w : World) (turns : list Turn)
    (e : string) :
  let run := start_optimization env in
  In (EvCompress turns (Raised e)) (events_of run w) ->
  exists stage idx s' out,
    outcome run w = Raised (abort_message idx e) /\
    run_status (session_obj (live (exec run w))) = RunFailed /\
    error_message (session_obj (live (exec run w))) = Some (abort_message idx e) /\
    failed_segment_index (session_obj (live (exec run w))) = Some (Z.of_nat idx) /\
    segments (live (exec run w)) !! idx = Some s' /\
    stage_output stage s' = Some out /\ seg_status s' = SegFailed.
Proof.
  intros run. subst run. run_cases env w.
  - apply summariser_after_setup.
  - intros [Hin | [Hin | []]]; discriminate.
Qed.

(** X13: a run makes at most one generative call for each row in each stage of
    its mode: at most as many calls as it has rows in a single-stage
    mode, twice as many in the polish-then-enhance mode, and none in a
    mode without stages. *)
Theorem calls_bounded_by_rows (env : Collaborators) (w : World) :
  let run := start_optimization env in
  let rows := materialized env (session_obj (live w)) (segments (live w)) in
  let stages := default [] (stages_of_mode (effective_mode (session_obj (live w)))) in
  (length (generate_calls (events_of run w)) <= length stages * length rows)%nat /\
  (length stages <= 2)%nat /\
  forall j, (calls_for j (events_of run w) <= length stages)%nat.
Proof.
  intros run rows stages. subst run.
  destruct (call_bound_after_setup env w) as (Hall & Hst & Hrow).
  run_cases env w.
  - split; [exact Hall |]. split; [exact Hst | exact Hrow].
  - split; [simpl; lia |]. split; [exact Hst |]. intros j. unfold calls_for. simpl. lia.
Qed.

(** X10: a run never submits a row to a stage whose output the row already
    held when the run began, whatever the mode and whatever the earlier
    stages of the run do: work that an earlier run completed is not paid
    for again on resume. *)
Theorem run_skips_populated_rows (env : Collaborators) (w : World) (i : nat) (s : Segment)
    (stage : Stage) (input : option string) (reply : Result string) :
  segments (live w) !! i = Some s ->
  truthy (stage_output stage s) = true ->
  ~ In (EvGenerate i stage input reply) (events_of (start_optimization env) w).
Proof.
  run_cases env w.
  - apply skips_populated_after_setup.
  - intros _ _ [Hin | [Hin | []]]; discriminate.
Qed.

(** X11: a row that is flagged as a title when a run begins is never submitted
    to the enhance stage by that run, with or without an enhanced text. *)
Theorem titles_never_enhanced (env : Collaborators) (w : World) (i : nat) (s : Segment)
    (input : option string) (reply : Result string) :
  segments (live w) !! i = Some s ->
  is_title s = true ->
  ~ In (EvGenerate i Enhance input reply) (events_of (start_optimization env) w).
Proof.
  run_cases env w.
  - apply titles_after_setup.
  - intros _ _ [Hin | [Hin | []]]; discriminate.
Qed.

(** X7: no run takes back what a row holds: a row flagged as a title stays
    flagged, and an output text or a completion time that is set is still
    set after the run, whatever the run did and however it ended. *)
Theorem run_never_clears_row (env : Collaborators) (w : World) (i : nat) (s : Segment) :
  segments (live w) !! i = Some s ->
  exists s',
    segments (live (exec (start_optimization env) w)) !! i = Some s' /\
    (is_title s = true -> is_title s' = true) /\
    (polished_text s <> None -> polished_text s' <> None) /\
    (enhanced_text s <> None -> enhanced_text s' <> None) /\
    (seg_completed_at s <> None -> seg_completed_at s' <> None).
Proof.
  run_cases env w.
  - apply never_clears_after_setup.
  - intros Hrow. exists s. rewrite setup_failed_state. split; [exact Hrow |]. tauto.
Qed.

(** X14: the snapshots of the history are append-only, and those a run adds
    stay within the compression threshold: each is a non-empty history of
    this run whose counted length is at most the threshold, unless it is a
    single system turn, which is exactly when it is flagged compressed. *)
Theorem snapshots_bounded_or_compressed (env : Collaborators) (w : World) :
  exists added,
    histories (live (exec (start_optimization env) w)) = histories (live w) ++ added /\
    Forall (fun h =>
              hist_session_id h = run_id (session_obj (live w)) /\
              history_data h <> [] /\
              (is_compressed h = true <-> single_system_turn (history_data h) = true) /\
              ((character_count h <= HISTORY_COMPRESSION_THRESHOLD env)%Z \/
               (is_compressed h = true /\ length (history_data h) = 1%nat))) added.
Proof.
  run_cases env w.
  - apply snapshots_bounded_after_setup.
  - exists []. rewrite setup_failed_state. split; [symmetry; apply app_nil_r | constructor].
Qed.

(** X15: the character count a run records with a snapshot is the counted
    length of the turns of that snapshot: the running total that the loop
    carries, from the load of the earlier outputs through every reply and
    every compression, never drifts from the history it belongs to. *)
Theorem snapshot_count_matches_turns (env : Collaborators) (w : World) (h : SessionHistory) :
  In h (histories (live (exec (start_optimization env) w))) ->
  In h (histories (live w)) \/
  character_count h = history_weight env (history_data h).
Proof.
  run_cases env w.
  - apply snapshot_count_after_setup.
  - rewrite setup_failed_state. intros Hin. left. exact Hin.
Qed.

(** C2: the loop of a stage steps through consecutive rows beginning at
    max(failed_segment_index, 0) when the checkpoint is set and at 0
    otherwise; and a run clears error_message and failed_segment_index
    before anything else it does once its services are built, so that its
    stages, which run from the prepared state, all find the checkpoint
    cleared and begin at the first row.  A run whose services cannot be
    built begins no stage. *)
Theorem stage_loop_starts_at_checkpoint (env : Collaborators) (stage : Stage) (w : World) :
  let m := process_stage env stage in
  let n := length (segments (live w)) in
  let start := match failed_segment_index (session_obj (live w)) with
               | Some k => Z.to_nat (Z.max k 0)
               | None => 0%nat
               end in
  let run := start_optimization env in
  let w3 := prepared env w in
  (exists c, (c <= n - start)%nat /\
     map fst (progress_writes (events_of m w)) = seq start c /\
     (outcome m w = Ok tt -> c = (n - start)%nat) /\
     (start < n -> 1 <= c)%nat) /\
  In (EvStage stage start) (events_of m w) /\
  error_message (session_obj (live (exec reset_error_state w))) = None /\
  failed_segment_index (session_obj (live (exec reset_error_state w))) = None /\
  trace (exec reset_error_state w) = trace w /\
  error_message (session_obj (live w3)) = None /\
  failed_segment_index (session_obj (live w3)) = None /\
  match services_outcome env w with
  | Ok _ =>
      events_of run w =
        admission_events env
          ++ split_events env (session_obj (live w)) (segments (live w))
          ++ events_of (run_stages env (effective_mode (session_obj (live w3)))) w3
          ++ [EvRunStatus (final_status (outcome run w)); EvGateRelease]
  | Raised _ => events_of run w = [EvRunStatus RunFailed; EvGateRelease]
  end /\
  stages_begun (admission_events env
                  ++ split_events env (session_obj (live w)) (segments (live w))) = [] /\
  Forall stage_from_first (events_of run w).
Proof.
  intros m n start run w3. subst m n start run w3.
  destruct (checkpoint_start_after_setup env stage w)
    as (Hloop & Hst & He1 & Hf1 & Htr & He3 & Hf3 & Hev & Hsb & Hall).
  split; [exact Hloop |]. split; [exact Hst |]. split; [exact He1 |].
  split; [exact Hf1 |]. split; [exact Htr |]. split; [exact He3 |]. split; [exact Hf3 |].
  run_cases env w.
  - split; [exact Hev |]. split; [exact Hsb | exact Hall].
  - split; [reflexivity |]. split; [exact Hsb |]. repeat constructor.
Qed.

(** C7: a run whose processing mode, after the default of line 112, is
    none of the three names of the dispatch raises the unsupported-mode
    error before any stage begins: no stage is started, no progress is
    written and no generative call is made; the run ends failed with the
    error text as its error_message, and the caller gets that error.  When
    the services of the run cannot be built, the error is that of the
    constructor. *)
Theorem unsupported_mode_fails_fast (env : Collaborators) (w : World) :
  let run := start_optimization env in
  let mode := effective_mode (session_obj (live w)) in
  let error := match services_outcome env w with
               | Ok _ => unsupported_message mode
               | Raised e => e
               end in
  mode <> "paper_polish" -> mode <> "emotion_polish" -> mode <> "paper_polish_enhance" ->
  outcome run w = Raised error /\
  run_status (session_obj (live (exec run w))) = RunFailed /\
  error_message (session_obj (live (exec run w))) = Some error /\
  stages_begun (events_of run w) = [] /\
  progress_writes (events_of run w) = [] /\
  generate_calls (events_of run w) = [].
Proof.
  intros run mode error H1 H2 H3. subst run error.
  assert (Hnone : stages_of_mode mode = None) by (apply stages_of_mode_none; assumption).
  run_cases env w.
  - destruct (run_after_setup_unsupported env w Hnone) as (Houtcome & Hexec & Hev).
    rewrite Houtcome, Hexec, Hev. fold mode.
    destruct (setup_events_no_stage _ (admission_events_setup env)) as (Ha1 & Ha2 & Ha3 & _).
    destruct (setup_events_no_stage _
                (split_events_setup env (session_obj (live w)) (segments (live w))))
      as (Hs1 & Hs2 & Hs3 & _).
    split; [reflexivity |]. split; [reflexivity |]. split; [reflexivity |].
    unfold stages_begun, progress_writes, generate_calls in *.
    rewrite !omap_app, Ha1, Ha2, Ha3, Hs1, Hs2, Hs3. auto.
  - rewrite setup_failed_state. auto 10.
Qed.

(** C10: a run with no segments and a mode the dispatch has no branch for
    still creates the segments and commits total_segments, and passes
    through the processing status, before the unsupported-mode error is
    raised: it ends failed, with the new rows and their count durable.
    Only a run whose services cannot be built fails before that, with the
    error of the constructor and without rows. *)
Theorem unsupported_mode_after_materialization (env : Collaborators) (w : World) :
  let run := start_optimization env in
  let mode := effective_mode (session_obj (live w)) in
  let texts := split_text_into_segments env (run_original_text (session_obj (live w))) in
  segments (live w) = [] ->
  mode <> "paper_polish" -> mode <> "emotion_polish" -> mode <> "paper_polish_enhance" ->
  match services_outcome env w with
  | Ok _ =>
      outcome run w = Raised (unsupported_message mode) /\
      segments (live (exec run w)) = new_segments env (session_obj (live w)) /\
      length (segments (live (exec run w))) = length texts /\
      total_segments (session_obj (live (exec run w))) = length texts /\
      durable (exec run w) = live (exec run w) /\
      run_status (session_obj (live (exec run w))) = RunFailed /\
      (exists before,
         events_of run w =
           before ++ [EvSplit (length texts); EvRunStatus RunFailed; EvGateRelease] /\
         status_writes before =
           (if gate_acquire env then [] else [RunQueued]) ++ [RunProcessing]) /\
      stages_begun (events_of run w) = []
  | Raised e =>
      outcome run w = Raised e /\
      segments (live (exec run w)) = [] /\
      events_of run w = [EvRunStatus RunFailed; EvGateRelease]
  end.
Proof.
  intros run mode texts Hnil H1 H2 H3. subst run mode texts.
  run_cases env w.
  - apply materialized_after_setup; assumption.
  - rewrite setup_failed_state. auto.
Qed.

(** X1: a run whose services are built asks the gate once, before anything
    else it does with it, and polls until it is admitted when it is not
    admitted at once; a run whose services cannot be built never asks the
    gate.  Every run releases the gate once, as the last thing it does,
    whether it returns or raises and whether it asked or not. *)
Theorem gate_released_once_at_end (env : Collaborators) (w : World) :
  let evs := events_of (start_optimization env) w in
  gate_traffic evs =
    match services_outcome env w with
    | Ok _ =>
        EvGateAcquire (gate_acquire env)
          :: (if gate_acquire env then [] else poll_events (gate_polls env))
    | Raised _ => []
    end ++ [EvGateRelease] /\
  head evs = match services_outcome env w with
             | Ok _ => Some (EvGateAcquire (gate_acquire env))
             | Raised _ => Some (EvRunStatus RunFailed)
             end /\
  last evs = Some EvGateRelease.
Proof.
  intros evs. subst evs.
  destruct (gate_after_setup env w) as (Htraffic & Hhead & Hlast).
  run_cases env w.
  - split; [exact Htraffic |]. split; [exact Hhead | exact Hlast].
  - split; [reflexivity |]. split; reflexivity.
Qed.

(** X2: the status of a run whose services are built goes through queued
    (only when the gate does not admit the run at once) and processing,
    and ends completed exactly when [start_optimization] returns and
    failed exactly when it raises; a run whose services cannot be built
    is written failed and nothing else.  A run that raises leaves the text
    of the error it raises as error_message; a run that returns leaves no
    error text and no checkpoint, and a completion time.  Either way
    everything written is committed. *)
Theorem run_status_lifecycle (env : Collaborators) (w : World) :
  let run := start_optimization env in
  let wf := exec run w in
  status_writes (events_of run w) =
    match services_outcome env w with
    | Ok _ =>
        (if gate_acquire env then [] else [RunQueued])
          ++ [RunProcessing; final_status (outcome run w)]
    | Raised _ => [RunFailed]
    end /\
  run_status (session_obj (live wf)) = final_status (outcome run w) /\
  (forall e, outcome run w = Raised e ->
     error_message (session_obj (live wf)) = Some e) /\
  (outcome run w = Ok tt ->
     error_message (session_obj (live wf)) = None /\
     failed_segment_index (session_obj (live wf)) = None /\
     exists t, run_completed_at (session_obj (live wf)) = Some t) /\
  durable wf = live wf.
Proof.
  intros run wf. subst run wf.
  destruct (lifecycle_after_setup env w) as (Hst & Hfinal & Herr & Hok & Hd).
  run_cases env w.
  - split; [exact Hst |]. split; [exact Hfinal |]. split; [exact Herr |].
    split; [exact Hok | exact Hd].
  - rewrite setup_failed_state. split; [reflexivity |]. split; [reflexivity |].
    split; [intros e' [= <-]; reflexivity |]. split; [discriminate | reflexivity].
Qed.

(** X4: a document that the segmenter splits into no piece: the run creates
    no row, begins each stage of its mode and finds nothing to do, and
    completes without a call, with zero segments and progress 100; unless
    its services cannot be built, when it fails before the segmenter is
    consulted. *)
Theorem empty_document_completes (env : Collaborators) (w : World) (stages : list Stage) :
  let run := start_optimization env in
  segments (live w) = [] ->
  split_text_into_segments env (run_original_text (session_obj (live w))) = [] ->
  stages_of_mode (effective_mode (session_obj (live w))) = Some stages ->
  match services_outcome env w with
  | Ok _ =>
      outcome run w = Ok tt /\
      events_of run w =
        admission_events env ++ [EvSplit 0] ++ map (fun stage => EvStage stage 0) stages
          ++ [EvRunStatus RunCompleted; EvGateRelease] /\
      segments (live (exec run w)) = [] /\
      total_segments (session_obj (live (exec run w))) = 0%nat /\
      progress (session_obj (live (exec run w))) = 100%Q /\
      run_status (session_obj (live (exec run w))) = RunCompleted
  | Raised e =>
      outcome run w = Raised e /\
      events_of run w = [EvRunStatus RunFailed; EvGateRelease] /\
      segments (live (exec run w)) = []
  end.
Proof.
  intros run Hnil Hsplit Hmode. subst run.
  run_cases env w.
  - apply empty_document_after_setup; assumption.
  - rewrite setup_failed_state. auto.
Qed.

(** X5: rows are created only by a run that finds none and whose services
    are built: then they are the pieces of the segmenter in document
    order, indexed from 0, and total_segments is their number.  A run
    that finds rows, or whose services cannot be built, does not consult
    the segmenter. *)
Theorem rows_created_once (env : Collaborators) (w : World) :
  let run := start_optimization env in
  let texts := split_text_into_segments env (run_original_text (session_obj (live w))) in
  (segments (live w) = [] ->
     match services_outcome env w with
     | Ok _ =>
         original_text <$> segments (live (exec run w)) = texts /\
         segment_index <$> segments (live (exec run w)) = Z.of_nat <$> seq 0 (length texts) /\
         total_segments (session_obj (live (exec run w))) = length texts /\
         In (EvSplit (length texts)) (events_of run w)
     | Raised _ =>
         segments (live (exec run w)) = [] /\
         forall n, ~ In (EvSplit n) (events_of run w)
     end) /\
  (segments (live w) <> [] ->
     segments (live (prepared env w)) = segments (live w) /\
     forall n, ~ In (EvSplit n) (events_of run w)).
Proof.
  intros run texts. subst run texts.
  destruct (rows_created_after_setup env w) as (Hnew & Hold).
  run_cases env w.
  - split; [exact Hnew | exact Hold].
  - split.
    + intros Hnil. rewrite setup_failed_state. split; [exact Hnil |].
      intros n [Hin | [Hin | []]]; discriminate.
    + intros Hne. split; [exact (proj1 (Hold Hne)) |].
      intros n [Hin | [Hin | []]]; discriminate.
Qed.

(** X6: a run never changes which rows there are: their number, and the
    session, index and original text of each, are those of the rows it
    found, or of the rows it created when it found none and its services
    were built; and at the end of every run whose services were built,
    also of one that raises, total_segments is that number.  A run whose
    services cannot be built leaves total_segments as it found it. *)
Theorem run_keeps_row_identity (env : Collaborators) (w : World) :
  let wf := exec (start_optimization env) w in
  let rows := match services_outcome env w with
              | Ok _ => materialized env (session_obj (live w)) (segments (live w))
              | Raised _ => segments (live w)
              end in
  length (segments (live wf)) = length rows /\
  total_segments (session_obj (live wf)) =
    match services_outcome env w with
    | Ok _ => length rows
    | Raised _ => total_segments (session_obj (live w))
    end /\
  original_text <$> segments (live wf) = original_text <$> rows /\
  segment_index <$> segments (live wf) = segment_index <$> rows /\
  seg_session_id <$> segments (live wf) = seg_session_id <$> rows.
Proof.
  intros wf rows. subst wf rows.
  run_cases env w.
  - apply row_identity_after_setup.
  - rewrite setup_failed_state. auto.
Qed.

(** X12: a run over rows that already hold the output of every stage of its
    mode does no work: it writes the progress of each row of each stage
    and completes, without a call to the generative or to the summarising
    collaborator, and leaves the rows, the audit table and the snapshots
    as they were.  A run whose services cannot be built fails instead,
    and leaves them as they were too. *)
Theorem populated_run_does_no_work (env : Collaborators) (w : World) (stages : list Stage) :
  let run := start_optimization env in
  let n := length (segments (live w)) in
  segments (live w) <> [] ->
  stages_of_mode (effective_mode (session_obj (live w))) = Some stages ->
  (forall stage s, In stage stages -> In s (segments (live w)) ->
     truthy (stage_output stage s) = true) ->
  match services_outcome env w with
  | Ok _ =>
      outcome run w = Ok tt /\
      events_of run w =
        admission_events env ++ flat_map (skipping_stage_events n) stages
          ++ [EvRunStatus RunCompleted; EvGateRelease]
  | Raised e =>
      outcome run w = Raised e /\
      events_of run w = [EvRunStatus RunFailed; EvGateRelease]
  end /\
  segments (live (exec run w)) = segments (live w) /\
  change_logs (live (exec run w)) = change_logs (live w) /\
  histories (live (exec run w)) = histories (live w).
Proof.
  intros run n Hne Hmode Hall. subst run n.
  destruct (no_work_after_setup env w stages Hne Hmode Hall) as (Ho' & Hev & Hrows & Hlogs & Hh).
  run_cases env w.
  - split; [split; [exact Ho' | exact Hev] |]. split; [exact Hrows |].
    split; [exact Hlogs | exact Hh].
  - rewrite setup_failed_state. auto 10.
Qed.

Lemma recent_messages_drop (history : list Turn) :
  recent_messages history = drop (length history - 3) history.
Proof.
  unfold recent_messages. destruct (Nat.ltb_spec 3 (length history)) as [Hlt | Hge].
  - reflexivity.
  - replace (length history - 3)%nat with 0%nat by lia. reflexivity.
Qed.

Lemma single_system_turn_shape (history : list Turn) :
  single_system_turn history = true <-> exists c, history = [mkTurn "system" c].
Proof.
  split.
  - destruct history as [| [r c] [| t l]]; try discriminate. simpl.
    intros H. apply String.eqb_eq in H. subst r. exists c. reflexivity.
  - intros [c ->]. reflexivity.
Qed.

Section CompressionCall.

Variable env : Collaborators.

Lemma compress_history_call (history : list Turn) (stage : Stage) (w : World) :
  single_system_turn history = false ->
  events_of (compress_history env history stage) w =
    [EvCompress (recent_messages history)
       (ai_compress env (compress_calls w) (recent_messages history) (compression_prompt stage))].
Proof.
  intros H. apply events_of_trace.
  unfold exec, compress_history, bind, call_compress, ret. rewrite H. simpl.
  destruct (ai_compress env _ _ _); reflexivity.
Qed.

(** C6: a history that is one system-authored turn comes back unchanged,
    with no call and no state change; for any other history the
    summariser is called once, with the last three turns of the history
    (all of them when there are fewer), and when it answers the result is
    one system-authored turn holding the fixed prefix and the summary;
    and whatever [compress_history] returns is returned unchanged by a
    second call. *)
Theorem compress_history_idempotent (history : list Turn) (stage : Stage) (w : World) :
  let m := compress_history env history stage in
  let recent := drop (length history - 3) history in
  let reply := ai_compress env (compress_calls w) recent (compression_prompt stage) in
  (single_system_turn history = true <-> exists c, history = [mkTurn "system" c]) /\
  (single_system_turn history = true -> m w = (Ok history, w)) /\
  (single_system_turn history = false ->
     length recent = Nat.min 3 (length history) /\
     recent `suffix_of` history /\
     events_of m w = [EvCompress recent reply] /\
     outcome m w =
       match reply with
       | Ok s => Ok [mkTurn "system" ("之前处理的段落摘要：
" +:+ s)]
       | Raised e => Raised e
       end) /\
  (forall h', outcome m w = Ok h' ->
     single_system_turn h' = true /\
     forall stage' w', compress_history env h' stage' w' = (Ok h', w')).
Proof.
  intros m recent reply. subst m recent reply. rewrite <- recent_messages_drop.
  split; [apply single_system_turn_shape |]. split; [| split].
  - apply compress_history_compressed.
  - intros H. split; [rewrite recent_messages_drop, length_drop; lia |].
    split; [apply recent_messages_suffix |].
    split; [apply compress_history_call, H |]. apply compress_history_fresh, H.
  - intros h' Hout.
    assert (Hs : single_system_turn h' = true).
    { destruct (single_system_turn history) eqn:E.
      - unfold outcome in Hout.
        rewrite (compress_history_compressed _ _ _ _ E) in Hout.
        simpl in Hout. congruence.
      - rewrite (compress_history_fresh _ _ _ _ E) in Hout.
        destruct (ai_compress env _ _ _); [| discriminate].
        injection Hout as <-. reflexivity. }
    split; [exact Hs |]. intros stage' w'. apply compress_history_compressed, Hs.
Qed.

End CompressionCall.

Lemma alter_insert_at {A} (f : A -> A) (l : list A) (j : nat) (x : A) :
  l !! j = Some x -> alter f j l = <[j := f x]> l.
Proof.
  revert j. induction l as [| y l IH]; intros [| j] H; try discriminate.
  - injection H as ->. reflexivity.
  - change (alter f (S j) (y :: l)) with (y :: alter f j l).
    change (<[S j := f x]> (y :: l)) with (y :: <[j := f x]> l).
    rewrite (IH j H). reflexivity.
Qed.

Lemma key_count_none (k : log_key) (rows : list ChangeLog) :
  key_count k rows = 0%nat -> forall r, In r rows -> key_of r <> k.
Proof.
  intros H0 r Hin Hk. unfold key_count in H0. apply length_zero_iff_nil in H0.
  assert (Hf : r ∈ filter (fun r => key_of r = k) rows).
  { apply list_elem_of_filter. split; [exact Hk | apply list_elem_of_In, Hin]. }
  rewrite H0 in Hf. inversion Hf.
Qed.

(** C5: [_record_change] looks up the entry of the key
    (session, segment_index, stage) created last.  When there is one, the
    row at its position keeps its key and its creation time and gets the
    new before text, after text and detail, and no row is added; when
    there is none, one row with the key, the texts, the detail and the
    time of the call is appended.  So the number of rows of the key
    becomes one if it was zero and stays what it was otherwise, the rows
    of every other key are as many as before, and a table with at most
    one row per key keeps that property through every call and through
    every whole run. *)
Theorem audit_row_unique_per_key (env : Collaborators) (segment : Segment)
    (before after : string) (stage : Stage) (w : World) :
  let sid := run_id (session_obj (live w)) in
  let idx := segment_index segment in
  let k := (sid, idx, stage) in
  let d := mkChangeDetail (str_len env before) (str_len env after)
             (negb (String.eqb before after)) in
  let rows := change_logs (live w) in
  let rows' := change_logs (live (exec (record_change env segment (Some before) after stage) w)) in
  match latest_matching k rows with
  | Some (j, r) =>
      rows !! j = Some r /\
      log_session_id r = sid /\ log_segment_index r = idx /\ log_stage r = stage /\
      (forall i r', rows !! i = Some r' ->
         log_session_id r' = sid -> log_segment_index r' = idx -> log_stage r' = stage ->
         (log_created_at r' <= log_created_at r)%nat) /\
      rows' = <[j := mkChangeLog sid idx stage before after d (log_created_at r)]> rows /\
      length rows' = length rows
  | None =>
      (forall r', In r' rows ->
         ~ (log_session_id r' = sid /\ log_segment_index r' = idx /\ log_stage r' = stage)) /\
      rows' = rows ++ [mkChangeLog sid idx stage before after d (clock w)]
  end /\
  (forall k', key_count k' rows' =
     if decide (k' = k) then Nat.max 1 (key_count k rows) else key_count k' rows) /\
  (unique_keys rows -> unique_keys rows') /\
  (unique_keys rows ->
   unique_keys (change_logs (live (exec (start_optimization env) w)))).
Proof.
  intros sid idx k d rows rows'. split; [| split; [| split]].
  - subst rows'. rewrite record_change_rows. fold sid idx k d rows.
    destruct (latest_matching k rows) as [[j r] |] eqn:El.
    + destruct (latest_matching_Some _ _ _ _ El) as [Hj Hk].
      injection Hk as Hsid Hidx Hstage.
      split; [exact Hj |]. split; [exact Hsid |]. split; [exact Hidx |].
      split; [exact Hstage |]. split.
      * intros i r' Hi H1 H2 H3. apply (latest_matching_latest _ _ _ _ El i r' Hi).
        unfold key_of, k. congruence.
      * rewrite (alter_insert_at _ _ _ _ Hj). unfold overwrite_log.
        rewrite Hsid, Hidx, Hstage. split; [reflexivity | apply length_insert].
    + split; [| reflexivity].
      intros r' Hin (H1 & H2 & H3).
      apply (key_count_none k rows (proj1 (latest_matching_None _ _) El) r' Hin).
      unfold key_of, k. congruence.
  - intros k'. subst rows'. rewrite record_change_key_count. reflexivity.
  - apply record_change_unique.
  - intros Hu. run_cases env w.
    + apply (run_after_setup_logs env w), Hu.
    + rewrite setup_failed_state. exact Hu.
Qed.

(** a segment the loop of a stage reaches, whose output for the stage is
    not set and whose counted length is below the skip threshold, is
    completed without a generative call.  Unless the stage is enhance and
    the segment is already flagged as a title, it is flagged as a title
    and [original_text] is copied into both output fields; in the enhance
    stage a segment already flagged as a title keeps its polished text and
    gets as enhanced text its polished text, or else its original text. *)
Lemma short_segment_completed (env : Collaborators) (stage : Stage) (w : World)
    (i : nat) (s : Segment) :
  let m := process_stage env stage in
  segments (live w) !! i = Some s ->
  In i (map fst (progress_writes (events_of m w))) ->
  truthy (stage_output stage s) = false ->
  (count_text_length env (original_text s) < Z.max (SEGMENT_SKIP_THRESHOLD env) 0)%Z ->
  exists s',
    segments (live (exec m w)) !! i = Some s' /\
    calls_for i (events_of m w) = 0%nat /\
    is_title s' = true /\ seg_status s' = SegCompleted /\
    if is_enhance stage && is_title s
    then polished_text s' = polished_text s /\
         enhanced_text s' = Some (text_or (polished_text s) (original_text s))
    else polished_text s' = Some (original_text s) /\
         enhanced_text s' = Some (original_text s).
Proof.
  intros m Hi Hin Hf Hshort. subst m.
  destruct (is_enhance stage && is_title s) eqn:Hcase.
  - apply andb_true_iff in Hcase as [He Hti].
    destruct stage; try discriminate.
    destruct (process_stage_title_filled env w i s Hi Hin Hf Hti) as [[now Hrow] Hcalls].
    exists (fill_title now s). simpl. auto 10.
  - assert (Hnt : stage = Enhance -> is_title s = false).
    { intros ->. simpl in Hcase. exact Hcase. }
    destruct (process_stage_titled env stage w i s Hi Hin Hf Hnt Hshort)
      as [[now Hrow] Hcalls].
    exists (mark_title stage now s). simpl. auto 10.
Qed.

Lemma text_or_same (t : string) : text_or (Some t) t = t.
Proof. destruct t; reflexivity. Qed.

(** C3: a segment the loop of a stage reaches, whose output for the stage
    is not set and whose counted length is below the skip threshold
    max(SEGMENT_SKIP_THRESHOLD, 0), is classified as a title: it is
    flagged, [original_text] is copied into both output fields, it is
    marked completed, and no generative call is made for it - in every
    stage.  The title flag is taken as the service sets it, at line 211
    together with the copy of lines 213-214: a segment that the enhance
    stage finds flagged already holds its original text as polished
    text. *)
Theorem short_segment_becomes_title (env : Collaborators) (stage : Stage) (w : World)
    (i : nat) (s : Segment) :
  let m := process_stage env stage in
  segments (live w) !! i = Some s ->
  In i (map fst (progress_writes (events_of m w))) ->
  truthy (stage_output stage s) = false ->
  (count_text_length env (original_text s) < Z.max (SEGMENT_SKIP_THRESHOLD env) 0)%Z ->
  (stage = Enhance -> is_title s = true -> polished_text s = Some (original_text s)) ->
  exists s',
    segments (live (exec m w)) !! i = Some s' /\
    is_title s' = true /\
    polished_text s' = Some (original_text s) /\
    enhanced_text s' = Some (original_text s) /\
    seg_status s' = SegCompleted /\
    calls_for i (events_of m w) = 0%nat.
Proof.
  intros m Hi Hin Hf Hshort Hflag. subst m.
  destruct (short_segment_completed env stage w i s Hi Hin Hf Hshort)
    as (s' & Hrow & Hcalls & Hti & Hst & Hout).
  exists s'. split; [exact Hrow |]. split; [exact Hti |].
  destruct (is_enhance stage && is_title s) eqn:Hcase.
  - apply andb_true_iff in Hcase as [He Ht].
    assert (Hp : polished_text s = Some (original_text s)).
    { apply Hflag; [destruct stage; try discriminate; reflexivity | exact Ht]. }
    destruct Hout as [Hp' He'].
    rewrite Hp' , He', Hp, text_or_same. auto.
  - destruct Hout as [Hp' He']. auto.
Qed.

(** ** The properties at sample runs *)


Lemma stage_loop_starts_at_checkpoint_witness :
  outcome (process_stage (sample_env 99) Polish) checkpoint_world = Ok tt /\
  map fst (progress_writes (events_of (process_stage (sample_env 99) Polish)
                              checkpoint_world)) = [1; 2]%nat.
Proof.
  assert (Hok : outcome (process_stage (sample_env 99) Polish) checkpoint_world = Ok tt)
    by (vm_compute; reflexivity).
  split; [exact Hok |].
  destruct (stage_loop_starts_at_checkpoint (sample_env 99) Polish checkpoint_world)
    as [(c & _ & Hvisited & Hall & _) _].
  rewrite Hvisited, (Hall Hok). reflexivity.
Defined.

Lemma short_segment_becomes_title_witness :
  segments (live polished_short_world) !! 0%nat = Some seg_polished_short /\
  truthy (stage_output Enhance seg_polished_short) = false /\
  exists s',
    segments (live (exec (process_stage (sample_env 99) Enhance) polished_short_world)) !! 0%nat
      = Some s' /\
    is_title s' = true /\
    polished_text s' = Some "Intro" /\ enhanced_text s' = Some "Intro" /\
    seg_status s' = SegCompleted /\
    calls_for 0 (events_of (process_stage (sample_env 99) Enhance) polished_short_world) = 0%nat.
Proof.
  split; [reflexivity |]. split; [reflexivity |].
  apply (short_segment_becomes_title (sample_env 99) Enhance polished_short_world 0
           seg_polished_short).
  - reflexivity.
  - apply (nth_error_In _ 0). vm_compute. reflexivity.
  - reflexivity.
  - vm_compute. reflexivity.
  - intros _ Hflag. discriminate Hflag.
Defined.

Lemma progress_nondecreasing_below_full_witness :
  outcome (start_optimization (sample_env 99)) (fresh_world (Some "paper_polish")) = Ok tt /\
  progress (session_obj (live (exec (start_optimization (sample_env 99))
                                 (fresh_world (Some "paper_polish"))))) = 100%Q.
Proof.
  assert (Hok : outcome (start_optimization (sample_env 99))
                  (fresh_world (Some "paper_polish")) = Ok tt)
    by (vm_compute; reflexivity).
  split; [exact Hok |].
  destruct (progress_nondecreasing_below_full (sample_env 99) Polish
              (fresh_world (Some "paper_polish"))) as (_ & _ & _ & Hdone & _).
  exact (proj1 (Hdone Hok)).
Defined.

Lemma audit_row_unique_per_key_witness :
  latest_matching (7%Z, 1%Z, Polish) (change_logs (live audited_world)) = Some (1%nat, old_log) /\
  change_logs (live (exec (record_change (sample_env 99) seg_pending
                             (Some "second paragraph body") "out:second paragraph body"
                             Polish) audited_world)) =
    [other_log;
     mkChangeLog 7 1 Polish "second paragraph body" "out:second paragraph body"
       (mkChangeDetail 21 25 true) 3] /\
  unique_keys (change_logs (live audited_world)) /\
  unique_keys (change_logs (live (exec (start_optimization (sample_env 99)) audited_world))).
Proof.
  assert (Hl : latest_matching (7%Z, 1%Z, Polish) (change_logs (live audited_world))
               = Some (1%nat, old_log)) by reflexivity.
  assert (Hu : unique_keys (change_logs (live audited_world))).
  { intros [[sid idx] stage]. unfold key_count. simpl. rewrite !filter_cons, filter_nil.
    destruct (decide _) as [E1 |]; destruct (decide _) as [E2 |]; simpl; try lia.
    exfalso. rewrite <- E2 in E1. discriminate E1. }
  pose proof (audit_row_unique_per_key (sample_env 99) seg_pending
                "second paragraph body" "out:second paragraph body" Polish audited_world)
    as Hthm.
  cbv zeta in Hthm.
  change (run_id (session_obj (live audited_world))) with 7%Z in Hthm.
  change (segment_index seg_pending) with 1%Z in Hthm.
  rewrite Hl in Hthm.
  destruct Hthm as ((_ & _ & _ & _ & _ & Hrows & _) & _ & _ & Hrun).
  split; [exact Hl |]. split; [exact Hrows |]. split; [exact Hu | exact (Hrun Hu)].
Defined.

Lemma compress_history_idempotent_witness :
  single_system_turn four_turns = false /\
  outcome (compress_history digest_env four_turns Polish) resumed_world =
    Ok [mkTurn "system" "之前处理的段落摘要：
second|third|fourth"] /\
  compress_history digest_env
    [mkTurn "system" "之前处理的段落摘要：
second|third|fourth"] Enhance resumed_world =
    (Ok [mkTurn "system" "之前处理的段落摘要：
second|third|fourth"], resumed_world).
Proof.
  split; [reflexivity |].
  destruct (compress_history_idempotent digest_env four_turns Polish resumed_world)
    as (_ & _ & Hfresh & Hfix).
  destruct (Hfresh eq_refl) as (_ & _ & _ & Hout).
  split; [exact Hout |].
  exact (proj2 (Hfix _ Hout) Enhance resumed_world).
Defined.

Lemma unsupported_mode_fails_fast_witness :
  effective_mode (session_obj (live (fresh_world (Some "summarize")))) = "summarize" /\
  outcome (start_optimization (sample_env 99)) (fresh_world (Some "summarize"))
    = Raised (unsupported_message "summarize") /\
  run_status (session_obj (live (exec (start_optimization (sample_env 99))
                                   (fresh_world (Some "summarize"))))) = RunFailed /\
  stages_begun (events_of (start_optimization (sample_env 99))
                  (fresh_world (Some "summarize"))) = [].
Proof.
  split; [reflexivity |].
  destruct (unsupported_mode_fails_fast (sample_env 99) (fresh_world (Some "summarize")))
    as (Ho & Hst & _ & Hs & _).
  - discriminate.
  - discriminate.
  - discriminate.
  - split; [exact Ho |]. split; [exact Hst | exact Hs].
Defined.


Lemma populated_output_not_overwritten_witness :
  segments (live resumed_world) !! 0%nat = Some seg_polished /\
  truthy (stage_output Polish seg_polished) = true /\
  polished_text <$> segments (live (rerun_stage Polish [sample_env 0; sample_env 99]
                                     resumed_world)) !! 0%nat
    = Some (Some "out:first paragraph body").
Proof.
  split; [reflexivity |]. split; [reflexivity |].
  destruct (populated_output_not_overwritten Polish [sample_env 0; sample_env 99]
              resumed_world 0 seg_polished) as (_ & _ & Hp & _).
  - reflexivity.
  - reflexivity.
  - exact (Hp eq_refl).
Defined.

Lemma unsupported_mode_after_materialization_witness :
  segments (live (fresh_world (Some "summarize"))) = [] /\
  outcome (start_optimization (sample_env 99)) (fresh_world (Some "summarize"))
    = Raised (unsupported_message "summarize") /\
  length (segments (live (exec (start_optimization (sample_env 99))
                            (fresh_world (Some "summarize"))))) = 3%nat /\
  total_segments (session_obj (live (exec (start_optimization (sample_env 99))
                                       (fresh_world (Some "summarize"))))) = 3%nat.
Proof.
  split; [reflexivity |].
  assert (Hrun := unsupported_mode_after_materialization (sample_env 99)
                    (fresh_world (Some "summarize"))).
  cbv zeta in Hrun.
  assert (Hs : services_outcome (sample_env 99) (fresh_world (Some "summarize")) = Ok tt)
    by reflexivity.
  rewrite Hs in Hrun.
  destruct Hrun as (Ho & _ & Hlen & Htotal & _).
  - reflexivity.
  - discriminate.
  - discriminate.
  - discriminate.
  - split; [exact Ho |]. split; [exact Hlen | exact Htotal].
Defined.

(** ** Where a claim fails as worded *)


(** a run whose services cannot be built: the constructor of the enhance
    service raises, the run is written failed with that error, and the
    gate, which was never asked, is released *)
Remark failed_construction_fails_run :
  outcome (start_optimization keyless_env) (fresh_world (Some "paper_polish"))
    = Raised "api_key is required" /\
  events_of (start_optimization keyless_env) (fresh_world (Some "paper_polish"))
    = [EvRunStatus RunFailed; EvGateRelease] /\
  error_message (session_obj (live (exec (start_optimization keyless_env)
                                      (fresh_world (Some "paper_polish")))))
    = Some "api_key is required" /\
  segments (live (exec (start_optimization keyless_env) (fresh_world (Some "paper_polish"))))
    = [].
Proof. vm_compute. auto. Qed.

(** The title branch of one stage does write the output field of another:
    in the enhance stage a short row that is not flagged has its polished
    text replaced by its original text. *)
Remark enhance_title_branch_rewrites_polished_text :
  polished_text <$> segments (live polished_short_world) !! 0%nat
    = Some (Some "A polished introduction") /\
  polished_text <$> segments (live (exec (process_stage (sample_env 99) Enhance)
                                     polished_short_world)) !! 0%nat
    = Some (Some "Intro").
Proof. split; vm_compute; reflexivity. Qed.

(** ** The further properties at sample runs *)

Ltac pick_event := repeat first [ left; reflexivity | right ].

Lemma stages_follow_mode_witness :
  stages_of_mode (effective_mode (session_obj (live (fresh_world (Some "paper_polish_enhance")))))
    = Some [Polish; Enhance] /\
  stages_begun (events_of (start_optimization (sample_env 2))
                  (fresh_world (Some "paper_polish_enhance"))) `prefix_of` [Polish; Enhance].
Proof.
  split; [reflexivity |].
  refine (proj1 (stages_follow_mode (sample_env 2) (fresh_world (Some "paper_polish_enhance"))
                   [Polish; Enhance] _)).
  reflexivity.
Defined.

Lemma empty_document_completes_witness :
  outcome (start_optimization empty_split_env) (fresh_world (Some "paper_polish_enhance"))
    = Ok tt /\
  total_segments (session_obj (live (exec (start_optimization empty_split_env)
                                       (fresh_world (Some "paper_polish_enhance"))))) = 0%nat.
Proof.
  assert (Hrun := empty_document_completes empty_split_env
                    (fresh_world (Some "paper_polish_enhance")) [Polish; Enhance]).
  cbv zeta in Hrun.
  assert (Hs : services_outcome empty_split_env (fresh_world (Some "paper_polish_enhance"))
               = Ok tt) by reflexivity.
  rewrite Hs in Hrun.
  destruct Hrun as (Ho & _ & _ & Ht & _).
  - reflexivity.
  - reflexivity.
  - reflexivity.
  - split; [exact Ho | exact Ht].
Defined.

Lemma run_never_clears_row_witness :
  segments (live resumed_world) !! 0%nat = Some seg_polished /\
  exists s',
    segments (live (exec (start_optimization (sample_env 99)) resumed_world)) !! 0%nat = Some s' /\
    (polished_text seg_polished <> None -> polished_text s' <> None).
Proof.
  split; [reflexivity |].
  destruct (run_never_clears_row (sample_env 99) resumed_world 0 seg_polished)
    as (s' & Hs' & _ & Hp & _).
  - reflexivity.
  - exists s'. split; [exact Hs' | exact Hp].
Defined.

Lemma completed_run_fills_outputs_witness :
  outcome (start_optimization (sample_env 99)) (fresh_world (Some "paper_polish")) = Ok tt /\
  exists s',
    segments (live (exec (start_optimization (sample_env 99))
                      (fresh_world (Some "paper_polish")))) !! 1%nat = Some s' /\
    stage_output Polish s' <> None.
Proof.
  split; [vm_compute; reflexivity |].
  eexists. split; [vm_compute; reflexivity |].
  apply (completed_run_fills_outputs (sample_env 99) (fresh_world (Some "paper_polish"))
           [Polish] Polish 1).
  - reflexivity.
  - vm_compute. reflexivity.
  - left. reflexivity.
  - vm_compute. reflexivity.
Defined.

Lemma calls_always_carry_input_witness :
  In (EvGenerate 1 Enhance (Some "out:first paragraph body") (Ok "out:out:first paragraph body"))
     (events_of (start_optimization (sample_env 99)) (fresh_world (Some "paper_polish_enhance")))
  /\ exists text, Some "out:first paragraph body" = Some text.
Proof.
  assert (Hin : In (EvGenerate 1 Enhance (Some "out:first paragraph body")
                      (Ok "out:out:first paragraph body"))
                   (events_of (start_optimization (sample_env 99))
                      (fresh_world (Some "paper_polish_enhance")))).
  { vm_compute. pick_event. }
  split; [exact Hin |].
  exact (calls_always_carry_input _ _ _ _ _ _ Hin).
Defined.

Lemma populated_run_does_no_work_witness :
  outcome (start_optimization (sample_env 0)) polished_world = Ok tt /\
  segments (live (exec (start_optimization (sample_env 0)) polished_world))
    = segments (live polished_world).
Proof.
  assert (Hrun := populated_run_does_no_work (sample_env 0) polished_world [Polish]).
  cbv zeta in Hrun.
  assert (Hs : services_outcome (sample_env 0) polished_world = Ok tt) by reflexivity.
  rewrite Hs in Hrun.
  destruct Hrun as ((Ho & _) & Hrows & _).
  - discriminate.
  - reflexivity.
  - intros stage s [<- | []] [<- | []]. reflexivity.
  - split; [exact Ho | exact Hrows].
Defined.

Lemma snapshot_count_matches_turns_witness :
  let h := mkSessionHistory 7 Polish [mkTurn "assistant" "out:first paragraph body"] false 24 in
  In h (histories (live (exec (start_optimization (sample_env 99))
                           (fresh_world (Some "paper_polish"))))) /\
  (In h (histories (live (fresh_world (Some "paper_polish")))) \/
   character_count h = history_weight (sample_env 99) (history_data h)).
Proof.
  intros h.
  assert (Hin : In h (histories (live (exec (start_optimization (sample_env 99))
                                         (fresh_world (Some "paper_polish")))))).
  { vm_compute. left. reflexivity. }
  split; [exact Hin |].
  exact (snapshot_count_matches_turns (sample_env 99) (fresh_world (Some "paper_polish")) h Hin).
Defined.

Lemma run_skips_populated_rows_witness :
  truthy (stage_output Polish seg_polished) = true /\
  ~ In (EvGenerate 0 Polish (Some "first paragraph body") (Ok "out:first paragraph body"))
       (events_of (start_optimization (sample_env 99)) resumed_world).
Proof.
  split; [reflexivity |].
  apply (run_skips_populated_rows (sample_env 99) resumed_world 0 seg_polished Polish).
  - reflexivity.
  - reflexivity.
Defined.

Lemma titles_never_enhanced_witness :
  is_title seg_flagged_title = true /\
  ~ In (EvGenerate 0 Enhance (Some "Polished intro") (Ok "out:Polished intro"))
       (events_of (start_optimization (sample_env 99)) flagged_world).
Proof.
  split; [reflexivity |].
  apply (titles_never_enhanced (sample_env 99) flagged_world 0 seg_flagged_title).
  - reflexivity.
  - reflexivity.
Defined.

Lemma summariser_failure_aborts_run_witness :
  let run := start_optimization summariser_down_env in
  let w := fresh_world (Some "paper_polish") in
  In (EvCompress [mkTurn "assistant" "out:first paragraph body"] (Raised "quota"))
     (events_of run w) /\
  exists stage idx s' out,
    outcome run w = Raised (abort_message idx "quota") /\
    segments (live (exec run w)) !! idx = Some s' /\
    stage_output stage s' = Some out /\ seg_status s' = SegFailed.
Proof.
  intros run w.
  assert (Hin : In (EvCompress [mkTurn "assistant" "out:first paragraph body"] (Raised "quota"))
                   (events_of run w)).
  { vm_compute. pick_event. }
  split; [exact Hin |].
  destruct (summariser_failure_aborts_run summariser_down_env w _ _ Hin)
    as (stage & idx & s' & out & Ho & _ & _ & _ & Hrow & Hout & Hst).
  exists stage, idx, s', out.
  split; [exact Ho |]. split; [exact Hrow |]. split; [exact Hout | exact Hst].
Defined.
